(** * Kaleidoscope front end: lexer and operator-precedence parser

    A shallow embedding of [src/main.cpp].  The program keeps its state in
    globals ([LastChar], [IdentifierStr], [NumVal], [CurTok],
    [BinopPrecedence]) and reads standard input one character at a time; the
    embedding threads one record holding these globals, the unread part of
    standard input and what was written to standard error. *)

From Stdlib Require Import ZArith String Ascii List Bool Lia.
From Stdlib Require Import FunctionalExtensionality.
From stdpp Require Import gmap.
Import ListNotations.

Set Warnings "-register-all".

Local Open Scope string_scope.
Local Open Scope Z_scope.

(* stdpp keeps [simpl] from unfolding the concatenation of strings. *)
#[local] Arguments String.append !_ _ : simpl nomatch.

(** ** The C library, as far as the program uses it *)

(** [std::stod] and the type [double] are floating point and are not
    modelled: the development is parametric in them.  [stod s = None] stands
    for the call throwing ([std::invalid_argument] when no conversion can be
    performed, [std::out_of_range] when the value does not fit); the program
    catches nothing, so a throw ends the process.  [double_zero] is the value
    of a zero-initialised [static double]. *)
Class Floating := {
  double : Type;
  double_zero : double;
  stod : string -> option double
}.

(** The value [getchar] returns for a character: its code as unsigned char. *)
Definition ord (a : ascii) : Z := Z.of_N (N_of_ascii a).

(** Conversion of an [int] to [char], as in [IdentifierStr += LastChar]. *)
Definition char_of (c : Z) : ascii := ascii_of_N (Z.to_N (c mod 256)).

Definition EOF : Z := -1.

(** Character classes of <cctype> in the "C" locale (the program never calls
    [setlocale]); all of them are false on [EOF]. *)
Definition isspace (c : Z) : bool := (c =? 32) || ((9 <=? c) && (c <=? 13)).
Definition isdigit (c : Z) : bool := (48 <=? c) && (c <=? 57).
Definition isalpha (c : Z) : bool :=
  ((65 <=? c) && (c <=? 90)) || ((97 <=? c) && (c <=? 122)).
Definition isalnum (c : Z) : bool := isalpha c || isdigit c.
Definition isascii (c : Z) : bool := (0 <=? c) && (c <=? 127).

(** [rank c] is the number of characters a lookahead [c] stands for: none
    when it is [EOF]. *)
Definition rank (c : Z) : nat := if c =? EOF then 0%nat else 1%nat.

(** ** 1. Lexer *)

(** [enum Token]; any other token is the code [0..255] of a character. *)
Definition tok_eof : Z := -1.
Definition tok_def : Z := -2.
Definition tok_extern : Z := -3.
Definition tok_identifier : Z := -4.
Definition tok_number : Z := -5.

(** ** 2. AST *)

Section Model.
Context `{FP : Floating}.

Inductive ExprAST : Type :=
| NumberExprAST (Val : double)
| VariableExprAST (Name : string)
| BinaryExprAST (Op : ascii) (LHS RHS : ExprAST)
| CallExprAST (Callee : string) (Args : list ExprAST).

Record PrototypeAST : Type := mkPrototypeAST {
  Name : string;
  Args : list string
}.

Record FunctionAST : Type := mkFunctionAST {
  Proto : PrototypeAST;
  Body : ExprAST
}.

(** ** Program state *)

Record State : Type := mkState {
  stdin : string;                 (* characters not yet read by getchar *)
  LastChar : Z;                   (* static int LastChar, in gettok *)
  IdentifierStr : string;
  NumVal : double;
  CurTok : Z;
  BinopPrecedence : gmap Z Z;     (* std::map<char, int> *)
  stderr : list string            (* lines written to standard error *)
}.

Definition set_stdin (s : string) (st : State) : State :=
  mkState s (LastChar st) (IdentifierStr st) (NumVal st) (CurTok st)
          (BinopPrecedence st) (stderr st).
Definition set_LastChar (c : Z) (st : State) : State :=
  mkState (stdin st) c (IdentifierStr st) (NumVal st) (CurTok st)
          (BinopPrecedence st) (stderr st).
Definition set_IdentifierStr (s : string) (st : State) : State :=
  mkState (stdin st) (LastChar st) s (NumVal st) (CurTok st)
          (BinopPrecedence st) (stderr st).
Definition set_NumVal (v : double) (st : State) : State :=
  mkState (stdin st) (LastChar st) (IdentifierStr st) v (CurTok st)
          (BinopPrecedence st) (stderr st).
Definition set_CurTok (t : Z) (st : State) : State :=
  mkState (stdin st) (LastChar st) (IdentifierStr st) (NumVal st) t
          (BinopPrecedence st) (stderr st).
Definition set_BinopPrecedence (m : gmap Z Z) (st : State) : State :=
  mkState (stdin st) (LastChar st) (IdentifierStr st) (NumVal st) (CurTok st)
          m (stderr st).
Definition set_stderr (l : list string) (st : State) : State :=
  mkState (stdin st) (LastChar st) (IdentifierStr st) (NumVal st) (CurTok st)
          (BinopPrecedence st) l.

(** The initialiser of [BinopPrecedence]. *)
Definition BinopPrecedence_init : gmap Z Z :=
  <[ord "<" := 10]> (<[ord "+" := 20]> (<[ord "-" := 20]>
    (<[ord "*" := 40]> (<[ord "/" := 40]> ∅)))).

(** The state in which [main] starts, with [s] on standard input:
    [LastChar = ' '], the other statics zero-initialised. *)
Definition initial (s : string) : State :=
  mkState s (ord " ") "" double_zero 0 BinopPrecedence_init [].

(** ** gettok *)

(** [getchar()]: the next character of standard input, [EOF] once it is
    exhausted. *)
Definition getchar (st : State) : Z * State :=
  match stdin st with
  | EmptyString => (EOF, st)
  | String a rest => (ord a, set_stdin rest st)
  end.

(** [while (isspace(LastChar)) LastChar = getchar();] on unread input [inp]
    and [LastChar = c]; returns the final [LastChar] and the unread input.
    At the end of input [getchar] yields [EOF], which is not a space. *)
Fixpoint skip_space (inp : string) (c : Z) : Z * string :=
  if isspace c then
    match inp with
    | EmptyString => (EOF, EmptyString)
    | String a rest => skip_space rest (ord a)
    end
  else (c, inp).

(** [while (isalnum((LastChar = getchar()))) IdentifierStr += LastChar;]
    with [IdentifierStr = id]; returns the final [IdentifierStr], [LastChar]
    and unread input. *)
Fixpoint read_identifier (inp : string) (id : string) : string * Z * string :=
  match inp with
  | EmptyString => (id, EOF, EmptyString)
  | String a rest =>
      if isalnum (ord a)
      then read_identifier rest (id ++ String (char_of (ord a)) "")
      else (id, ord a, rest)
  end.

(** [do { NumStr += LastChar; LastChar = getchar(); }
     while (isdigit(LastChar) || LastChar == '.');] *)
Fixpoint read_number (inp : string) (c : Z) (NumStr : string)
  : string * Z * string :=
  let NumStr := NumStr ++ String (char_of c) "" in
  match inp with
  | EmptyString => (NumStr, EOF, EmptyString)
  | String a rest =>
      if isdigit (ord a) || (ord a =? ord ".")
      then read_number rest (ord a) NumStr
      else (NumStr, ord a, rest)
  end.

(** [do LastChar = getchar();
     while (LastChar != EOF && LastChar != '\n' && LastChar != '\r');] *)
Fixpoint skip_comment (inp : string) : Z * string :=
  match inp with
  | EmptyString => (EOF, EmptyString)
  | String a rest =>
      if (ord a =? 10) || (ord a =? 13) then (ord a, rest)
      else skip_comment rest
  end.

(** The body of [gettok], with the call [return gettok();] after a comment
    given as [self].  [None] is an uncaught exception of [std::stod].  After
    a comment that ran to the end of input the source falls through to
    [if (LastChar == EOF) return tok_eof;]. *)
Definition gettok_body (self : State -> option (Z * State)) (st : State)
  : option (Z * State) :=
  let '(c, inp) := skip_space (stdin st) (LastChar st) in
  let st := set_LastChar c (set_stdin inp st) in
  if isalpha c then
    let '(id, c', inp') := read_identifier inp (String (char_of c) "") in
    let st := set_LastChar c' (set_stdin inp' (set_IdentifierStr id st)) in
    if String.eqb id "def" then Some (tok_def, st)
    else if String.eqb id "extern" then Some (tok_extern, st)
    else Some (tok_identifier, st)
  else if isdigit c || (c =? ord ".") then
    let '(NumStr, c', inp') := read_number inp c "" in
    let st := set_LastChar c' (set_stdin inp' st) in
    match stod NumStr with
    | Some v => Some (tok_number, set_NumVal v st)
    | None => None
    end
  else if c =? ord "#" then
    let '(c', inp') := skip_comment inp in
    let st := set_LastChar c' (set_stdin inp' st) in
    if negb (c' =? EOF) then self st
    else Some (tok_eof, st)
  else if c =? EOF then Some (tok_eof, st)
  else
    let ThisChar := c in
    let '(c', st) := getchar st in
    Some (ThisChar, set_LastChar c' st).

(** The recursion of [gettok] is on a strictly shorter unread input; [n]
    bounds its depth, and [gettok] supplies the length of the unread input,
    which is enough ([gettok_unfold] below). *)
Fixpoint gettok_rec (n : nat) (st : State) : option (Z * State) :=
  match n with
  | O => gettok_body (fun _ => None) st
  | S n' => gettok_body (gettok_rec n') st
  end.

Definition gettok (st : State) : option (Z * State) :=
  gettok_rec (String.length (stdin st)) st.

(** ** 3. Parser *)

(** A call either returns a value in a new state, or an exception of
    [std::stod] unwinds through it, or the model's recursion bound is
    reached. A [std::unique_ptr] is an [option]: [None] is [nullptr]. *)
Inductive outcome (A : Type) : Type :=
| Done (a : A) (st : State)
| Throw
| OutOfFuel.
Arguments Done {A} a st.
Arguments Throw {A}.
Arguments OutOfFuel {A}.

Definition M (A : Type) : Type := State -> outcome A.

Definition ret {A} (a : A) : M A := fun st => Done a st.
Definition bind {A B} (m : M A) (k : A -> M B) : M B :=
  fun st =>
    match m st with
    | Done a st' => k a st'
    | Throw => Throw
    | OutOfFuel => OutOfFuel
    end.
Definition out_of_fuel {A} : M A := fun _ => OutOfFuel.
Definition read {A} (f : State -> A) : M A := fun st => Done (f st) st.

End Model.

Arguments Done {FP A} a st.
Arguments Throw {FP A}.
Arguments OutOfFuel {FP A}.

Notation "x <- m ;; k" := (bind m (fun x => k))
  (at level 64, m at next level, right associativity).
Notation "m ;;; k" := (bind m (fun _ => k))
  (at level 64, right associativity).

Section Parsing.
Context `{FP : Floating}.

Definition getNextToken : M Z :=
  fun st =>
    match gettok st with
    | Some (t, st') => Done t (set_CurTok t st')
    | None => Throw
    end.

(** [LogError] and [LogErrorP]: one line on standard error, then [nullptr]. *)
Definition LogError {A} (Str : string) : M (option A) :=
  fun st =>
    Done None (set_stderr (stderr st ++ [("LogError: " ++ Str)%string]) st).
Definition LogErrorP (Str : string) : M (option PrototypeAST) :=
  @LogError ExprAST Str ;;; ret None.

Definition ParseNumberExpr : M (option ExprAST) :=
  Result <- read NumVal ;;
  getNextToken ;;;
  ret (Some (NumberExprAST Result)).

(** [std::map::operator[]]: a key that is absent is inserted with the
    value-initialised [0]. *)
Definition map_subscript (key : Z) : M Z :=
  fun st =>
    match BinopPrecedence st !! key with
    | Some v => Done v st
    | None => Done 0 (set_BinopPrecedence (<[key := 0]> (BinopPrecedence st)) st)
    end.

(** The key of the map is a [char]; [isascii] has checked that [CurTok] is
    in [0..127], where converting [int] to [char] keeps the value. *)
Definition GetTokPrecedence : M Z :=
  tok <- read CurTok ;;
  if negb (isascii tok) then ret (-1)
  else
    TokPrec <- map_subscript tok ;;
    if TokPrec <=? 0 then ret (-1) else ret TokPrec.

(** The mutually recursive parsing functions.  [fuel] bounds the depth of
    calls (a turn of a [while (1)] loop counts as a call); [ParseArguments]
    is the loop of [ParseIdentifierExpr], returning [None] where the source
    returns [nullptr] from inside the loop. *)
Fixpoint ParseExpression (fuel : nat) : M (option ExprAST) :=
  match fuel with
  | O => out_of_fuel
  | S fuel =>
      LHS <- ParsePrimary fuel ;;
      match LHS with
      | None => ret None
      | Some LHS => ParseBinOpRHS fuel 0 LHS
      end
  end

with ParsePrimary (fuel : nat) : M (option ExprAST) :=
  match fuel with
  | O => out_of_fuel
  | S fuel =>
      tok <- read CurTok ;;
      if tok =? tok_identifier then ParseIdentifierExpr fuel
      else if tok =? tok_number then ParseNumberExpr
      else if tok =? ord "(" then ParseParenExpr fuel
      else LogError "unknown token when expecting an expression"
  end

with ParseParenExpr (fuel : nat) : M (option ExprAST) :=
  match fuel with
  | O => out_of_fuel
  | S fuel =>
      getNextToken ;;;
      V <- ParseExpression fuel ;;
      match V with
      | None => ret None
      | Some V =>
          tok <- read CurTok ;;
          if negb (tok =? ord ")") then LogError "expected ')'"
          else getNextToken ;;; ret (Some V)
      end
  end

with ParseIdentifierExpr (fuel : nat) : M (option ExprAST) :=
  match fuel with
  | O => out_of_fuel
  | S fuel =>
      IdName <- read IdentifierStr ;;
      getNextToken ;;;
      tok <- read CurTok ;;
      if negb (tok =? ord "(") then ret (Some (VariableExprAST IdName))
      else
        getNextToken ;;;
        tok <- read CurTok ;;
        Args <- (if negb (tok =? ord ")") then ParseArguments fuel []
                 else ret (Some [])) ;;
        match Args with
        | None => ret None
        | Some Args =>
            getNextToken ;;;
            ret (Some (CallExprAST IdName Args))
        end
  end

with ParseArguments (fuel : nat) (Args : list ExprAST)
  : M (option (list ExprAST)) :=
  match fuel with
  | O => out_of_fuel
  | S fuel =>
      Arg <- ParseExpression fuel ;;
      match Arg with
      | None => ret None
      | Some Arg =>
          let Args := (Args ++ [Arg])%list in
          tok <- read CurTok ;;
          if tok =? ord ")" then ret (Some Args)
          else if negb (tok =? ord ",") then
            @LogError ExprAST "Expected ')' or ',' in argument list" ;;;
            ret None
          else getNextToken ;;; ParseArguments fuel Args
      end
  end

with ParseBinOpRHS (fuel : nat) (ExprPrec : Z) (LHS : ExprAST)
  : M (option ExprAST) :=
  match fuel with
  | O => out_of_fuel
  | S fuel =>
      TokPrec <- GetTokPrecedence ;;
      if TokPrec <? ExprPrec then ret (Some LHS)
      else
        BinOp <- read CurTok ;;
        getNextToken ;;;
        RHS <- ParsePrimary fuel ;;
        match RHS with
        | None => ret None
        | Some RHS =>
            NextPrec <- GetTokPrecedence ;;
            RHS <- (if TokPrec <? NextPrec
                    then ParseBinOpRHS fuel (TokPrec + 1) RHS
                    else ret (Some RHS)) ;;
            match RHS with
            | None => ret None
            | Some RHS =>
                ParseBinOpRHS fuel ExprPrec
                  (BinaryExprAST (char_of BinOp) LHS RHS)
            end
        end
  end.

(** [while (getNextToken() == tok_identifier)
      ArgNames.push_back(IdentifierStr);] *)
Fixpoint ParsePrototype_names (fuel : nat) (ArgNames : list string)
  : M (list string) :=
  match fuel with
  | O => out_of_fuel
  | S fuel =>
      tok <- getNextToken ;;
      if tok =? tok_identifier then
        id <- read IdentifierStr ;;
        ParsePrototype_names fuel (ArgNames ++ [id])%list
      else ret ArgNames
  end.

Definition ParsePrototype (fuel : nat) : M (option PrototypeAST) :=
  tok <- read CurTok ;;
  if negb (tok =? tok_identifier)
  then LogErrorP "Expected function name in prototype"
  else
    FnName <- read IdentifierStr ;;
    getNextToken ;;;
    tok <- read CurTok ;;
    if negb (tok =? ord "(") then LogErrorP "Expected '(' in prototype"
    else
      ArgNames <- ParsePrototype_names fuel [] ;;
      tok <- read CurTok ;;
      if negb (tok =? ord ")") then LogErrorP "Expected ')' in prototype"
      else
        getNextToken ;;;
        ret (Some (mkPrototypeAST FnName ArgNames)).

Definition ParseDefinition (fuel : nat) : M (option FunctionAST) :=
  getNextToken ;;;
  Proto <- ParsePrototype fuel ;;
  match Proto with
  | None => ret None
  | Some Proto =>
      E <- ParseExpression fuel ;;
      match E with
      | Some E => ret (Some (mkFunctionAST Proto E))
      | None => ret None
      end
  end.

Definition ParseExtern (fuel : nat) : M (option PrototypeAST) :=
  getNextToken ;;;
  ParsePrototype fuel.

Definition ParseTopLevelExpr (fuel : nat) : M (option FunctionAST) :=
  E <- ParseExpression fuel ;;
  match E with
  | Some E =>
      let Proto := mkPrototypeAST "" [] in
      ret (Some (mkFunctionAST Proto E))
  | None => ret None
  end.

(** The characters the lexer has still to look at: the unread input and the
    lookahead character, unless that is [EOF]. *)
Definition pending (st : State) : nat :=
  (String.length (stdin st) + rank (LastChar st))%nat.

(** What is left of the token stream: the current token, unless it is
    [tok_eof], and the characters from which the lexer makes the next ones. *)
Definition remaining (st : State) : nat :=
  (2 * pending st + (if (CurTok st =? tok_eof)%Z then 0 else 1))%nat.

(** Fuel that is enough for any of the parsing functions in state [st]:
    four calls for each token left and five more. *)
Definition enough (st : State) : nat := (4 * remaining st + 5)%nat.

(** [main] up to the call of a parsing function: the first token is read
    from standard input [s], then [parse] runs. *)
Definition run {A} (parse : nat -> M A) (s : string) : outcome A :=
  (getNextToken ;;; (fun st => parse (enough st) st)) (initial s).

End Parsing.

(** ** 4. Top-level parsing and the driver *)

Section Driver.
Context `{FP : Floating}.

(** [fprintf(stderr, ...)] of a line. *)
Definition fprintf_stderr (line : string) : M unit :=
  fun st => Done tt (set_stderr (stderr st ++ [line]) st).

Definition HandleDefinition (fuel : nat) : M unit :=
  r <- ParseDefinition fuel ;;
  match r with
  | Some _ => fprintf_stderr "Parsed a function definition."
  | None => getNextToken ;;; ret tt
  end.

Definition HandleExtern (fuel : nat) : M unit :=
  r <- ParseExtern fuel ;;
  match r with
  | Some _ => fprintf_stderr "Parsed an extern"
  | None => getNextToken ;;; ret tt
  end.

Definition HandleTopLevelExpression (fuel : nat) : M unit :=
  r <- ParseTopLevelExpr fuel ;;
  match r with
  | Some _ => fprintf_stderr "Parsed a top-level expr"
  | None => getNextToken ;;; ret tt
  end.

(** [MainLoop]: a turn of the loop counts as a call.  What is written to
    standard output is passed along and returned: [stdout] holds the
    prompts printed so far. *)
Fixpoint MainLoop (fuel : nat) (stdout : list string) : M (list string) :=
  match fuel with
  | O => out_of_fuel
  | S fuel =>
      let stdout := (stdout ++ ["ready> "])%list in
      tok <- read CurTok ;;
      if tok =? tok_eof then ret stdout
      else if tok =? ord ";" then getNextToken ;;; MainLoop fuel stdout
      else if tok =? tok_def then HandleDefinition fuel ;;; MainLoop fuel stdout
      else if tok =? tok_extern then HandleExtern fuel ;;; MainLoop fuel stdout
      else HandleTopLevelExpression fuel ;;; MainLoop fuel stdout
  end.

(** [main]; it returns what it has written to standard output. *)
Definition main (fuel : nat) : M (list string) :=
  let stdout := ["ready> "] in
  getNextToken ;;;
  MainLoop fuel stdout.

End Driver.

(** ** A conversion to run the program on

    An instance of [Floating] on which literals can be evaluated: the exact
    decimal value, as a fraction, of the longest prefix of the text of the
    form digits, optionally followed by a dot and digits, with at least one
    digit; no conversion when there is no digit.  Rounding to binary
    floating point and range errors are left out. *)
Module Decimal.

Fixpoint digits (s : string) (acc : N) (n : nat) : N * nat * string :=
  match s with
  | String a rest =>
      if isdigit (ord a)
      then digits rest (10 * acc + (N_of_ascii a - 48))%N (S n)
      else (acc, n, s)
  | EmptyString => (acc, n, s)
  end.

Definition convert (s : string) : option (N * N) :=
  let '(ip, n1, rest) := digits s 0%N O in
  match rest with
  | String "." rest' =>
      let '(fp, n2, _) := digits rest' 0%N O in
      if (n1 + n2 =? 0)%nat then None
      else Some ((ip * 10 ^ N.of_nat n2 + fp)%N, (10 ^ N.of_nat n2)%N)
  | _ => if (n1 =? 0)%nat then None else Some (ip, 1%N)
  end.

#[export] Instance floating : Floating :=
  {| double := N * N; double_zero := (0%N, 1%N); stod := convert |}.

(** The whole number [n] as a value of this instance. *)
Definition whole (n : N) : @double floating := (n, 1%N).

End Decimal.

(** * Vocabulary of the statements *)

(** [returns m st a]: the call [m] in state [st] returns [a]. *)
Definition returns `{FP : Floating} {A} (m : M A) (st : State) (a : A) : Prop :=
  exists st', m st = Done a st'.

(** A sequence of precedence lookups, each for the token [tok] current at
    that time; the values returned, and the state at the end. *)
Fixpoint lookups `{FP : Floating} (toks : list Z) (st : State)
  : list Z * State :=
  match toks with
  | [] => ([], st)
  | tok :: toks =>
      match GetTokPrecedence (set_CurTok tok st) with
      | Done p st' => let '(ps, st'') := lookups toks st' in (p :: ps, st'')
      | _ => ([], st)
      end
  end.

(** What a run returned, if it returned. *)
Definition value `{FP : Floating} {A} (o : outcome A) : option A :=
  match o with
  | Done a _ => Some a
  | _ => None
  end.

(** What was on standard error at the end of a run. *)
Definition errors `{FP : Floating} {A} (o : outcome A) : list string :=
  match o with
  | Done _ st => stderr st
  | _ => []
  end.


(** [m'] behaves as [m] wherever [m] does not run out of fuel. *)
Definition extends `{FP : Floating} {A} (m m' : M A) : Prop :=
  forall st, m st <> OutOfFuel -> m' st = m st.

(** What a call of [gettok] that returned [tok] tells its caller: the token,
    with [IdentifierStr] when it is an identifier or a keyword and [NumVal]
    when it is a number. *)
Definition observed `{FP : Floating} (tok : Z) (st : State)
  : Z * option string * option double :=
  (tok,
   if (tok =? tok_identifier) || (tok =? tok_def) || (tok =? tok_extern)
   then Some (IdentifierStr st) else None,
   if tok =? tok_number then Some (NumVal st) else None).

(** The tokens that at most [n] calls of [gettok] return from state [st] on,
    up to [tok_eof]; the sequence stops short of it when [std::stod] throws. *)
Fixpoint tokens `{FP : Floating} (n : nat) (st : State)
  : list (Z * option string * option double) :=
  match n with
  | O => []
  | S n =>
      match gettok st with
      | Some (tok, st') =>
          observed tok st' :: (if tok =? tok_eof then [] else tokens n st')
      | None => []
      end
  end.

(** The token sequence of the input [s]: every token but [tok_eof] takes a
    character, so [length s + 2] calls reach the end. *)
Definition lex `{FP : Floating} (s : string)
  : list (Z * option string * option double) :=
  tokens (String.length s + 2) (initial s).

(** Two states from which the lexer has the same characters to read. *)
Definition same_source `{FP : Floating} (st1 st2 : State) : Prop :=
  stdin st1 = stdin st2 /\ LastChar st1 = LastChar st2.

(** *** Streams of characters, as the lexer sees them *)

(** A state stands at the stream [X] when its lookahead is the first
    character of [X] and its unread input the rest; at the empty stream the
    lookahead is [EOF]. *)
Definition lookahead (X : string) : Z :=
  match X with
  | EmptyString => EOF
  | String b _ => ord b
  end.

Definition unread (X : string) : string :=
  match X with
  | EmptyString => EmptyString
  | String _ rest => rest
  end.

Definition at_stream `{FP : Floating} (X : string) (st : State) : State :=
  set_LastChar (lookahead X) (set_stdin (unread X) st).

Fixpoint all (P : Z -> bool) (s : string) : bool :=
  match s with
  | EmptyString => true
  | String a rest => P (ord a) && all P rest
  end.

Definition numeric (c : Z) : bool := isdigit c || (c =? ord ".").
Definition newline (c : Z) : bool := (c =? 10) || (c =? 13).

(** What separates tokens: a whitespace character, or a comment from '#' to
    the newline or carriage return that ends it. *)
Inductive piece : Type :=
| Blank (a : ascii)
| Comment (body : string) (nl : ascii).

Definition piece_text (p : piece) : string :=
  match p with
  | Blank a => String a ""
  | Comment body nl => String "#" (body ++ String nl "")
  end.

Definition piece_ok (p : piece) : bool :=
  match p with
  | Blank a => isspace (ord a)
  | Comment body nl => all (fun c => negb (newline c)) body && newline (ord nl)
  end.

Definition gap_text (g : list piece) : string :=
  fold_right (fun p s => piece_text p ++ s) "" g.

(** The text of a token: a letter followed by letters and digits, a run of
    digits and dots, or any other character that is not whitespace and does
    not start a comment. *)
Inductive lexeme : Type :=
| Word (a : ascii) (w : string)
| Numeral (a : ascii) (w : string)
| Punct (a : ascii).

Definition text (l : lexeme) : string :=
  match l with
  | Word a w => String a w
  | Numeral a w => String a w
  | Punct a => String a ""
  end.

Definition lexeme_ok (l : lexeme) : bool :=
  match l with
  | Word a w => isalpha (ord a) && all isalnum w
  | Numeral a w => numeric (ord a) && all numeric w
  | Punct a =>
      negb (isspace (ord a)) && negb (isalpha (ord a)) &&
      negb (numeric (ord a)) && negb (ord a =? ord "#")
  end.

(** The token ends before the stream [X]: the first character of [X], if
    any, is not one the token would take in. *)
Definition closes (l : lexeme) (X : string) : bool :=
  match l with
  | Word _ _ => negb (isalnum (lookahead X))
  | Numeral _ _ => negb (numeric (lookahead X))
  | Punct _ => true
  end.

(** The end of a stream: nothing, or a comment that the end of input cuts. *)
Definition tail_text (t : option string) : string :=
  match t with
  | None => ""
  | Some body => String "#" body
  end.

Definition tail_ok (t : option string) : bool :=
  match t with
  | None => true
  | Some body => all (fun c => negb (newline c)) body
  end.

(** A stream laid out as tokens, each after a gap of whitespace and
    comments, then a last gap and the end. *)
Fixpoint render (L : list (list piece * lexeme)) (e : list piece)
    (t : option string) : string :=
  match L with
  | [] => gap_text e ++ tail_text t
  | (g, l) :: L => gap_text g ++ text l ++ render L e t
  end.

Fixpoint layout_ok (L : list (list piece * lexeme)) (e : list piece)
    (t : option string) : bool :=
  match L with
  | [] => forallb piece_ok e && tail_ok t
  | (g, l) :: L =>
      forallb piece_ok g && lexeme_ok l && closes l (render L e t) &&
      layout_ok L e t
  end.

Definition word_token (id : string) : Z :=
  if String.eqb id "def" then tok_def
  else if String.eqb id "extern" then tok_extern
  else tok_identifier.

(** The tokens of a sequence of token texts. *)
Fixpoint expected `{FP : Floating} (ls : list lexeme)
  : list (Z * option string * option double) :=
  match ls with
  | [] => [(tok_eof, None, None)]
  | Word a w :: ls =>
      (word_token (String a w), Some (String a w), None) :: expected ls
  | Numeral a w :: ls =>
      match stod (String a w) with
      | Some v => (tok_number, None, Some v) :: expected ls
      | None => []
      end
  | Punct a :: ls => (ord a, None, None) :: expected ls
  end.

(** What lookups can do to the table: entries of the initialiser stay, and a
    key outside it may have been inserted with value [0]. *)
Definition table_inv (m : gmap Z Z) : Prop :=
  forall k,
    m !! k = BinopPrecedence_init !! k \/
    (BinopPrecedence_init !! k = None /\ m !! k = Some 0).

(** The value [GetTokPrecedence] computes from a table entry. *)
Definition precedence_of (entry : option Z) : Z :=
  match entry with
  | Some v => if v <=? 0 then -1 else v
  | None => -1
  end.

(** What a call of [gettok] leaves alone and how it advances: the parser's
    globals and standard error are untouched, the pending characters never
    grow, and they shrink whenever a token other than [tok_eof] is returned. *)
Definition advances `{FP : Floating} (st : State) (tok : Z) (st' : State) : Prop :=
  (pending st' <= pending st)%nat /\
  (tok <> tok_eof -> (pending st' < pending st)%nat) /\
  CurTok st' = CurTok st /\
  BinopPrecedence st' = BinopPrecedence st /\
  stderr st' = stderr st.

(** Two calls agree: both throw, or both return the same token with the same
    payload and leave the same characters to read. *)
Definition agree `{FP : Floating} (r1 r2 : option (Z * State)) : Prop :=
  match r1, r2 with
  | Some (t1, st1), Some (t2, st2) =>
      observed t1 st1 = observed t2 st2 /\
      same_source st1 st2 /\ -1 <= LastChar st1
  | None, None => True
  | _, _ => False
  end.

(** Fuel that is enough for a call in state [st]. *)
Definition within `{FP : Floating} (c fuel : nat) (st : State) : Prop :=
  (4 * remaining st + c <= fuel)%nat.

(** How a parsing function returns: it has not put tokens back, and has
    left the precedence table as lookups can; when it returns a node it has
    written nothing to standard error (and, for the [strict] functions, has
    consumed a token); when it returns [nullptr] it has written one line. *)
Definition post `{FP : Floating} {A} (strict : bool) (st : State)
    (r : option A) (st' : State) : Prop :=
  (remaining st' <= remaining st)%nat /\
  (table_inv (BinopPrecedence st) -> table_inv (BinopPrecedence st')) /\
  match r with
  | Some _ =>
      (strict = true -> (remaining st' < remaining st)%nat) /\
      stderr st' = stderr st
  | None => exists line, stderr st' = (stderr st ++ [line])%list
  end.

(** A call made with enough fuel does not run out of it, and if it returns,
    it returns as [post] says. *)
Definition correct `{FP : Floating} {A} (strict : bool) (c fuel : nat)
    (st : State) (o : outcome (option A)) : Prop :=
  match o with
  | Done r st' => post strict st r st'
  | Throw => True
  | OutOfFuel => ~ within c fuel st
  end.

(** *** Trees of binary operators *)

(** No '(' among the characters the lexer has to read, nor as current token:
    what is left of the input has no parenthesis and no call. *)
Definition clean (c : Z) (inp : string) : Prop :=
  c <> ord "(" /\ all (fun x => negb (x =? ord "(")) inp = true.

Definition plain `{FP : Floating} (st : State) : Prop :=
  clean (LastChar st) (stdin st) /\ CurTok st <> ord "(".

(** From clean input the lexer makes no '(' token and leaves clean input. *)
Definition stays_clean `{FP : Floating} (st : State) (r : option (Z * State)) : Prop :=
  match r with
  | Some (tok, st') => tok <> ord "(" /\ clean (LastChar st') (stdin st')
  | None => True
  end.

(** The precedence of an operator character, and of the current token. *)
Definition binds (op : ascii) : Z :=
  precedence_of (BinopPrecedence_init !! ord op).

Definition pending_precedence `{FP : Floating} (st : State) : Z :=
  if isascii (CurTok st)
  then precedence_of (BinopPrecedence_init !! CurTok st) else -1.

(** The operator at the root of [T], if it has one, has precedence at least
    [p]. *)
Definition root_above `{FP : Floating} (p : Z) (T : ExprAST) : Prop :=
  match T with
  | BinaryExprAST op _ _ => p <= binds op
  | _ => True
  end.

(** Every operator of the tree binds no tighter than the operator at the
    root of its left operand, and strictly looser than the one at the root
    of its right operand: higher precedence lies deeper, and operators of
    equal precedence are nested to the left. *)
Fixpoint shaped `{FP : Floating} (T : ExprAST) : Prop :=
  match T with
  | BinaryExprAST op L R =>
      shaped L /\ shaped R /\
      root_above (binds op) L /\ root_above (binds op + 1) R
  | _ => True
  end.

(** The tokens of an expression without parentheses and calls, in order. *)
Fixpoint yield `{FP : Floating} (T : ExprAST)
  : list (Z * option string * option double) :=
  match T with
  | NumberExprAST v => [(tok_number, None, Some v)]
  | VariableExprAST name => [(tok_identifier, Some name, None)]
  | BinaryExprAST op L R => (yield L ++ (ord op, None, None) :: yield R)%list
  | CallExprAST _ _ => []
  end.

(** [reads st l st']: state [st'] is reached from [st] by consuming the
    tokens [l], the first of them being the current token of [st], with
    lookups of precedence in between. *)
Inductive reads `{FP : Floating}
  : State -> list (Z * option string * option double) -> State -> Prop :=
| reads_nil st : reads st [] st
| reads_token st t st1 l st' :
    getNextToken st = Done t st1 -> reads st1 l st' ->
    reads st (observed (CurTok st) st :: l) st'
| reads_lookup st p st0 l st' :
    GetTokPrecedence st = Done p st0 -> reads st0 l st' ->
    reads st l st'.

(** *** Expressions as they are written *)

(** An expression with its parentheses: the tree the parser builds does not
    record them, the tokens it consumes do. *)
Inductive phrase `{FP : Floating} : Type :=
| Constant (v : double)
| Reference (name : string)
| Invocation (callee : string) (args : list phrase)
| Bracketed (inner : phrase)
| Operation (op : ascii) (L R : phrase).

(** The tree of a phrase: the parentheses are dropped. *)
Fixpoint tree `{FP : Floating} (S : phrase) : ExprAST :=
  match S with
  | Constant v => NumberExprAST v
  | Reference name => VariableExprAST name
  | Invocation callee args => CallExprAST callee (map tree args)
  | Bracketed inner => tree inner
  | Operation op L R => BinaryExprAST op (tree L) (tree R)
  end.

(** The lists [ls] one after the other, with [sep] between them. *)
Fixpoint separated {A} (sep : A) (ls : list (list A)) : list A :=
  match ls with
  | [] => []
  | l :: ls' =>
      match ls' with
      | [] => l
      | _ :: _ => (l ++ sep :: separated sep ls')%list
      end
  end.

(** The tokens of a phrase, in the order in which they are written. *)
Fixpoint spelling `{FP : Floating} (S : phrase)
  : list (Z * option string * option double) :=
  match S with
  | Constant v => [(tok_number, None, Some v)]
  | Reference name => [(tok_identifier, Some name, None)]
  | Invocation callee args =>
      ((tok_identifier, Some callee, None) :: (ord "(", None, None) ::
       separated (ord ",", None, None) (map spelling args) ++
       [(ord ")", None, None)])%list
  | Bracketed inner =>
      ((ord "(", None, None) :: spelling inner ++ [(ord ")", None, None)])%list
  | Operation op L R => (spelling L ++ (ord op, None, None) :: spelling R)%list
  end.

(** A phrase that is an operand as it stands: anything but an operation
    that is not in parentheses. *)
Definition operand `{FP : Floating} (S : phrase) : Prop :=
  match S with
  | Operation _ _ _ => False
  | _ => True
  end.

(** A phrase that is an operation has an operator of precedence at least
    [p]. *)
Definition headed `{FP : Floating} (p : Z) (S : phrase) : Prop :=
  match S with
  | Operation op _ _ => p <= binds op
  | _ => True
  end.

(** The operations of a phrase are grouped by precedence, and to the left
    among equals: every operator is one of the table, its left operand is
    an operand as it stands or an operation of at least its precedence, and
    its right operand is an operand as it stands or an operation of
    strictly greater precedence; likewise inside parentheses and inside the
    arguments of calls. *)
Inductive climbed `{FP : Floating} : phrase -> Prop :=
| climbed_constant v : climbed (Constant v)
| climbed_reference name : climbed (Reference name)
| climbed_invocation callee args :
    Forall climbed args -> climbed (Invocation callee args)
| climbed_bracketed inner : climbed inner -> climbed (Bracketed inner)
| climbed_operation op L R :
    0 < binds op -> climbed L -> climbed R ->
    headed (binds op) L -> headed (binds op + 1) R ->
    climbed (Operation op L R).

(** The parse from [st] to [st'] that returned [T] has read the phrase [S]:
    [T] is its tree, its tokens are those consumed, and it is grouped by
    precedence. *)
Definition parsed `{FP : Floating} (st : State) (T : ExprAST) (st' : State)
    (S : phrase) : Prop :=
  tree S = T /\ climbed S /\ reads st (spelling S) st'.

(** *** Tokens to come *)

(** The precedence [GetTokPrecedence] gives a token. *)
Definition token_precedence `{FP : Floating}
    (tok : Z * option string * option double) : Z :=
  if isascii (fst (fst tok))
  then precedence_of (BinopPrecedence_init !! fst (fst tok)) else -1.

(** The tokens that the next calls of [gettok] return from [st] on are those
    of [l], in that order. *)
Fixpoint upcoming `{FP : Floating}
    (l : list (Z * option string * option double)) (st : State) : Prop :=
  match l with
  | [] => True
  | tok :: l' =>
      match gettok st with
      | Some (t, st1) => observed t st1 = tok /\ upcoming l' st1
      | None => False
      end
  end.

(** The parser is at the tokens [l]: the first is its current token and the
    others are to come. *)
Definition at_tokens `{FP : Floating} (st : State)
    (l : list (Z * option string * option double)) : Prop :=
  -1 <= LastChar st /\
  match l with
  | [] => True
  | tok :: l' => observed (CurTok st) st = tok /\ upcoming l' st
  end.

(** The number of nodes of a phrase. *)
Fixpoint size `{FP : Floating} (e : phrase) : nat :=
  match e with
  | Constant _ => 1
  | Reference _ => 1
  | Invocation _ args => S (fold_right (fun a n => size a + n)%nat O args)
  | Bracketed inner => S (size inner)
  | Operation _ L R => S (size L + size R)
  end.

(** A phrase is its leftmost operand and the operators and right operands
    that follow it, from the innermost operation outwards. *)
Fixpoint leftmost `{FP : Floating} (e : phrase) : phrase :=
  match e with
  | Operation _ L _ => leftmost L
  | _ => e
  end.

Fixpoint trail `{FP : Floating} (e : phrase) : list (ascii * phrase) :=
  match e with
  | Operation op L R => (trail L ++ [(op, R)])%list
  | _ => []
  end.

Definition grow `{FP : Floating} (e : phrase) (items : list (ascii * phrase))
  : phrase :=
  fold_left (fun acc item => Operation (fst item) acc (snd item)) items e.

Fixpoint spell_items `{FP : Floating} (items : list (ascii * phrase))
  : list (Z * option string * option double) :=
  match items with
  | [] => []
  | item :: items' =>
      ((ord (fst item), None, None) ::
       spelling (snd item) ++ spell_items items')%list
  end.

Fixpoint items_size `{FP : Floating} (items : list (ascii * phrase)) : nat :=
  match items with
  | [] => O
  | item :: items' => S (size (snd item) + items_size items')
  end.

(** The operators of [items] are of the table, of precedence at least [lo]
    and no greater than those before them, and each right operand is
    grouped by precedence and is an operand as it stands or an operation of
    strictly greater precedence than its operator. *)
Fixpoint spine `{FP : Floating} (lo : Z) (items : list (ascii * phrase))
  : Prop :=
  match items with
  | [] => True
  | item :: items' =>
      0 < binds (fst item) /\ climbed (snd item) /\
      headed (binds (fst item) + 1) (snd item) /\
      lo <= binds (fst item) /\
      Forall (fun later => binds (fst later) <= binds (fst item)) items' /\
      spine lo items'
  end.

(** *** Arguments of a call *)

(** [arguments st l st']: from [st], where the current token starts the
    first argument, the expressions [l] are parsed one after the other, with
    a ',' consumed after each but the last; [st'] is the state after the
    last, whose current token is ')'. *)
Inductive arguments `{FP : Floating}
  : State -> list ExprAST -> State -> Prop :=
| arguments_last fuel st a st' :
    ParseExpression fuel st = Done (Some a) st' ->
    CurTok st' = ord ")" ->
    arguments st [a] st'
| arguments_more fuel st a st1 t st2 l st' :
    ParseExpression fuel st = Done (Some a) st1 ->
    CurTok st1 = ord "," ->
    getNextToken st1 = Done t st2 ->
    arguments st2 l st' ->
    arguments st (a :: l) st'.

(** What [ParseIdentifierExpr] makes of the identifier that is the current
    token of [st]: a reference to it, or, when the token after it is '(', a
    call of it, with no argument when ')' comes next and otherwise with the
    arguments parsed up to the ')'; [st'] is the state after the expression. *)
Definition identifier_expression `{FP : Floating}
    (st : State) (T : ExprAST) (st' : State) : Prop :=
  exists st1,
    getNextToken st = Done (CurTok st1) st1 /\
    (if CurTok st1 =? ord "("
     then (exists st2 Args st3,
             getNextToken st1 = Done (CurTok st2) st2 /\
             (if CurTok st2 =? ord ")" then (Args = [] /\ st3 = st2)
              else arguments st2 Args st3) /\
             CurTok st3 = ord ")" /\
             getNextToken st3 = Done (CurTok st') st' /\
             T = CallExprAST (IdentifierStr st) Args)
     else (T = VariableExprAST (IdentifierStr st) /\ st' = st1)).

(** *** The rest of the lexer *)

(** A lookahead is [EOF] or the code of a character. *)
Definition in_range (c : Z) : Prop := -1 <= c <= 255.

(** The text of an identifier: a letter, then letters and digits. *)
Definition identifier_text (s : string) : bool :=
  match s with
  | EmptyString => false
  | String a w => isalpha (ord a) && all isalnum w
  end.

(** The kinds of token: the five of [enum Token], or a character that is
    not whitespace, not a letter or a digit, not '.', and not '#'. *)
Definition token_kind (tok : Z) : Prop :=
  tok = tok_eof \/ tok = tok_def \/ tok = tok_extern \/
  tok = tok_identifier \/ tok = tok_number \/
  (0 <= tok <= 255 /\ isspace tok = false /\ isalnum tok = false /\
   tok <> ord "." /\ tok <> ord "#").

(** What a token is, and what [IdentifierStr] holds with it. *)
Definition well_lexed `{FP : Floating} (r : option (Z * State)) : Prop :=
  match r with
  | Some (tok, st') =>
      in_range (LastChar st') /\ token_kind tok /\
      (tok = tok_def -> IdentifierStr st' = "def") /\
      (tok = tok_extern -> IdentifierStr st' = "extern") /\
      (tok = tok_identifier ->
       identifier_text (IdentifierStr st') = true /\
       IdentifierStr st' <> "def" /\ IdentifierStr st' <> "extern") /\
      (tok = tok_eof -> LastChar st' = EOF)
  | None => True
  end.

(** *** The entry points and the driver *)

(** The state a call returns in; [st] when it does not return. *)
Definition end_state `{FP : Floating} {A} (o : outcome A) (st : State)
  : State :=
  match o with
  | Done _ st' => st'
  | _ => st
  end.

(** A call that returns has consumed a token, unless it started at the end
    of input. *)
Definition consumed `{FP : Floating} {A} (st : State) (o : outcome A) : Prop :=
  match o with
  | Done _ st' => CurTok st <> tok_eof -> (remaining st' < remaining st)%nat
  | _ => True
  end.

(** How a handler of the driver returns: it has written one line to
    standard error, has consumed a token unless it started at the end of
    input, and has left the precedence table as lookups can; with fuel
    enough for its state it does not run out of it. *)
Definition handled `{FP : Floating} (fuel : nat) (st : State)
    (o : outcome unit) : Prop :=
  match o with
  | Done _ st' =>
      (remaining st' <= remaining st)%nat /\
      (CurTok st <> tok_eof -> (remaining st' < remaining st)%nat) /\
      (table_inv (BinopPrecedence st) -> table_inv (BinopPrecedence st')) /\
      exists line, stderr st' = (stderr st ++ [line])%list
  | Throw => True
  | OutOfFuel => ~ within 5 fuel st
  end.

(** How [MainLoop] returns: at the end of input, having printed a prompt for
    each turn and written at most one line to standard error for each turn
    but the last. *)
Definition looped `{FP : Floating} (fuel : nat) (stdout : list string)
    (st : State) (o : outcome (list string)) : Prop :=
  match o with
  | Done stdout' st' =>
      CurTok st' = tok_eof /\
      (table_inv (BinopPrecedence st) -> table_inv (BinopPrecedence st')) /\
      exists n lines,
        stdout' = (stdout ++ repeat "ready> " (S n))%list /\
        stderr st' = (stderr st ++ lines)%list /\
        (length lines <= n)%nat
  | Throw => True
  | OutOfFuel => ~ within 6 fuel st
  end.

(** [m] keeps the property [I] of states. *)
Definition preserves `{FP : Floating} (I : State -> Prop) {A} (m : M A)
  : Prop :=
  forall st a st', I st -> m st = Done a st' -> I st'.

(** At the end of input the lookahead is [EOF] and nothing is unread. *)
Definition exhausted `{FP : Floating} (st : State) : Prop :=
  (CurTok st = tok_eof -> LastChar st = EOF) /\
  (LastChar st = EOF -> stdin st = "").

(** The tokens of a prototype: its name, '(', the names of its parameters,
    ')'. *)
Definition prototype_tokens `{FP : Floating} (P : PrototypeAST)
  : list (Z * option string * option double) :=
  ((tok_identifier, Some (Name P), None) ::
   (ord "(", None, None) ::
   map (fun x => (tok_identifier, Some x, None)) (Args P) ++
   [(ord ")", None, None)])%list.

(** With [EOF] as lookahead nothing is unread. *)
Definition drained (c : Z) (inp : string) : Prop := c = EOF -> inp = "".

(** Every token text of the layout is a semicolon. *)
Definition semicolons (L : list (list piece * lexeme)) : bool :=
  forallb (fun gl => match snd gl with
                     | Punct a => ord a =? ord ";"
                     | _ => false
                     end) L.

(** The state stands at the stream [X]. *)
Definition stands `{FP : Floating} (st : State) (X : string) : Prop :=
  LastChar st = lookahead X /\ stdin st = unread X.

(** The lines the program writes to standard error: the six errors of the
    parser, as [LogError] prints them, and the three confirmations of the
    driver. *)
Definition messages : list string :=
  ["LogError: unknown token when expecting an expression";
   "LogError: expected ')'";
   "LogError: Expected ')' or ',' in argument list";
   "LogError: Expected function name in prototype";
   "LogError: Expected '(' in prototype";
   "LogError: Expected ')' in prototype";
   "Parsed a function definition.";
   "Parsed an extern";
   "Parsed a top-level expr"].

(** *** Example runs, with decimal numbers *)

(** The state in which the first token of [s] is the current token. *)
Definition first_token (s : string) : @State Decimal.floating :=
  end_state (getNextToken (initial s)) (initial s).

(** A session of the driver: a definition, an empty statement, an extern
    and an expression that ends too early. *)
Definition session_input : string := "def f(x) x*2; extern g(a b) 1+".

Definition session : @outcome Decimal.floating (list string) :=
  main 200 (initial session_input).

Definition session_stdout : list string := default [] (value session).

Definition session_end : @State Decimal.floating :=
  end_state session (initial session_input).

(** [override tbl f] converts the texts listed in [tbl] as [tbl] says and
    the others as [f] does. *)
Fixpoint override {D} (tbl : list (string * D)) (f : string -> option D)
    (s : string) : option D :=
  match tbl with
  | [] => f s
  | (k, v) :: tbl => if String.eqb s k then Some v else override tbl f s
  end.

(** * Properties *)

(** ** The precedence table *)

Section Precedence.
Context `{FP : Floating}.

Lemma BinopPrecedence_init_lookup (k : Z) :
  BinopPrecedence_init !! k =
    if k =? ord "<" then Some 10
    else if (k =? ord "+") || (k =? ord "-") then Some 20
    else if (k =? ord "*") || (k =? ord "/") then Some 40
    else None.
Proof.
  unfold BinopPrecedence_init.
  repeat (rewrite lookup_insert; case_decide as Hk;
          [subst k; reflexivity
          | apply not_eq_sym, Z.eqb_neq in Hk; rewrite Hk; clear Hk; simpl]).
  apply lookup_empty.
Qed.

Lemma table_inv_init : table_inv BinopPrecedence_init.
Proof. intros k. now left. Qed.

Lemma table_inv_insert_zero (m : gmap Z Z) (k : Z) :
  table_inv m -> m !! k = None -> table_inv (<[k := 0]> m).
Proof.
  intros Hm Hk j. rewrite lookup_insert. case_decide as Hj.
  - subst j. right. split; [|reflexivity].
    destruct (Hm k) as [H | [_ H]]; congruence.
  - apply Hm.
Qed.

Lemma GetTokPrecedence_inv (st : State) :
  table_inv (BinopPrecedence st) ->
  exists st',
    GetTokPrecedence st =
      Done (if isascii (CurTok st)
            then precedence_of (BinopPrecedence_init !! CurTok st) else -1) st'
    /\ table_inv (BinopPrecedence st')
    /\ stdin st' = stdin st /\ LastChar st' = LastChar st
    /\ IdentifierStr st' = IdentifierStr st /\ NumVal st' = NumVal st
    /\ CurTok st' = CurTok st /\ stderr st' = stderr st.
Proof.
  intros Hinv. unfold GetTokPrecedence, bind, read, map_subscript, ret.
  destruct (isascii (CurTok st)); simpl.
  2: { exists st. repeat split; auto. }
  destruct (Hinv (CurTok st)) as [H | [H0 H]]; rewrite H.
  - destruct (BinopPrecedence_init !! CurTok st) as [v|] eqn:E; simpl.
    + exists st. split; [|repeat split; auto]. now destruct (v <=? 0).
    + eexists. split; [reflexivity|]. simpl. repeat split; auto.
      apply table_inv_insert_zero; [exact Hinv | congruence].
  - rewrite H0. simpl. exists st. repeat split; auto.
Qed.

Lemma lookups_inv (toks : list Z) (st : State) :
  table_inv (BinopPrecedence st) ->
  fst (lookups toks st) =
    map (fun tok => if isascii tok
                    then precedence_of (BinopPrecedence_init !! tok) else -1)
        toks
  /\ table_inv (BinopPrecedence (snd (lookups toks st))).
Proof.
  revert st. induction toks as [|tok toks IH]; intros st Hinv; simpl.
  - now split.
  - destruct (GetTokPrecedence_inv (set_CurTok tok st) Hinv)
      as (st' & -> & Hinv' & _).
    specialize (IH st' Hinv').
    destruct (lookups toks st') as [ps st'']. simpl in *.
    destruct IH as [-> IH]. now split.
Qed.

(** C3: whatever lookups came before, the precedence of the current token is
    10 for '<', 20 for '+' and '-', 40 for '*' and '/', and -1 for any
    other token, be it a character outside the table or a token that is
    not an ASCII character. *)
Theorem GetTokPrecedence_table (toks : list Z) (s : string) (tok : Z) :
  returns GetTokPrecedence
    (set_CurTok tok (snd (lookups toks (initial s))))
    (if tok =? ord "<" then 10
     else if (tok =? ord "+") || (tok =? ord "-") then 20
     else if (tok =? ord "*") || (tok =? ord "/") then 40
     else -1).
Proof.
  set (st := set_CurTok tok (snd (lookups toks (initial s)))).
  assert (Hinv : table_inv (BinopPrecedence st)).
  { apply (lookups_inv toks (initial s)), table_inv_init. }
  destruct (GetTokPrecedence_inv st Hinv) as (st' & Heq & _).
  replace (CurTok st) with tok in Heq by reflexivity.
  exists st'. rewrite Heq. f_equal.
  rewrite BinopPrecedence_init_lookup.
  destruct (Z.eqb_spec tok (ord "<")) as [-> | _]; [reflexivity|].
  destruct (Z.eqb_spec tok (ord "+")) as [-> | _]; [reflexivity|].
  destruct (Z.eqb_spec tok (ord "-")) as [-> | _]; [reflexivity|].
  destruct (Z.eqb_spec tok (ord "*")) as [-> | _]; [reflexivity|].
  destruct (Z.eqb_spec tok (ord "/")) as [-> | _]; [reflexivity|].
  simpl. now destruct (isascii tok).
Qed.

(** C10: the value a lookup returns for a token does not depend on the
    lookups made before it, although a lookup may insert a zero entry; and
    the five entries of the initialiser are still in the table after any
    sequence of lookups. *)
Theorem BinopPrecedence_observably_constant
    (toks1 toks2 : list Z) (s1 s2 : string) (tok : Z) :
  let st1 := snd (lookups toks1 (initial s1)) in
  let st2 := snd (lookups toks2 (initial s2)) in
  (exists p, returns GetTokPrecedence (set_CurTok tok st1) p /\
             returns GetTokPrecedence (set_CurTok tok st2) p) /\
  BinopPrecedence st1 !! ord "<" = Some 10 /\
  BinopPrecedence st1 !! ord "+" = Some 20 /\
  BinopPrecedence st1 !! ord "-" = Some 20 /\
  BinopPrecedence st1 !! ord "*" = Some 40 /\
  BinopPrecedence st1 !! ord "/" = Some 40.
Proof.
  intros st1 st2.
  assert (H1 : table_inv (BinopPrecedence st1)).
  { apply (lookups_inv toks1 (initial s1)), table_inv_init. }
  assert (H2 : table_inv (BinopPrecedence st2)).
  { apply (lookups_inv toks2 (initial s2)), table_inv_init. }
  split.
  - destruct (GetTokPrecedence_inv (set_CurTok tok st1) H1) as (a & Ha & _).
    destruct (GetTokPrecedence_inv (set_CurTok tok st2) H2) as (b & Hb & _).
    eexists. split; eexists; eassumption.
  - repeat split.
    all: match goal with |- _ !! ?k = _ =>
           destruct (H1 k) as [-> | [H _]]; [reflexivity | discriminate H] end.
Qed.

End Precedence.

(** ** The lexer *)


Section Lexer.
Context `{FP : Floating}.

Lemma ord_range (a : ascii) : 0 <= ord a < 256.
Proof.
  unfold ord. pose proof (N_ascii_bounded a). lia.
Qed.

Lemma ord_not_EOF (a : ascii) : (ord a =? EOF) = false.
Proof. apply Z.eqb_neq. pose proof (ord_range a). unfold EOF. lia. Qed.

Lemma char_of_ord (a : ascii) : char_of (ord a) = a.
Proof.
  unfold char_of. pose proof (ord_range a).
  rewrite Z.mod_small by lia. unfold ord.
  rewrite N2Z.id. apply ascii_N_embedding.
Qed.

Lemma ord_inj (a b : ascii) : ord a = ord b -> a = b.
Proof. intros H. rewrite <- (char_of_ord a), <- (char_of_ord b). now f_equal. Qed.

Lemma rank_ord (a : ascii) : rank (ord a) = 1%nat.
Proof. unfold rank. now rewrite ord_not_EOF. Qed.

Lemma skip_space_length (inp : string) (c : Z) :
  (String.length (snd (skip_space inp c)) + rank (fst (skip_space inp c))
   <= String.length inp + rank c)%nat.
Proof.
  revert c. induction inp as [|a inp IH]; intros c; simpl.
  - destruct (isspace c); simpl; [change (rank EOF) with 0%nat|]; lia.
  - destruct (isspace c) eqn:E; simpl; [|lia].
    specialize (IH (ord a)). rewrite rank_ord in IH.
    unfold rank at 2. destruct (c =? EOF) eqn:E'; [|lia].
    apply Z.eqb_eq in E'. subst c. discriminate E.
Qed.

Lemma skip_space_not_space (inp : string) (c : Z) :
  isspace (fst (skip_space inp c)) = false.
Proof.
  revert c. induction inp as [|a inp IH]; intros c; simpl.
  - destruct (isspace c) eqn:E; simpl; [reflexivity | exact E].
  - destruct (isspace c) eqn:E; simpl; [apply IH | exact E].
Qed.

Lemma read_identifier_length (inp id : string) :
  (String.length (snd (read_identifier inp id))
   + rank (snd (fst (read_identifier inp id))) <= String.length inp)%nat.
Proof.
  revert id. induction inp as [|a inp IH]; intros id; simpl;
    [change (rank EOF) with 0%nat; lia|].
  destruct (isalnum (ord a)); simpl.
  - specialize (IH (id ++ String (char_of (ord a)) "")%string). lia.
  - rewrite rank_ord. lia.
Qed.

Lemma read_number_length (inp : string) (c : Z) (NumStr : string) :
  (String.length (snd (read_number inp c NumStr))
   + rank (snd (fst (read_number inp c NumStr))) <= String.length inp)%nat.
Proof.
  revert c NumStr. induction inp as [|a inp IH]; intros c NumStr; simpl;
    [change (rank EOF) with 0%nat; lia|].
  destruct (isdigit (ord a) || (ord a =? ord ".")); simpl.
  - specialize (IH (ord a) (NumStr ++ String (char_of c) "")%string). lia.
  - rewrite rank_ord. lia.
Qed.

Lemma skip_comment_length (inp : string) :
  (String.length (snd (skip_comment inp)) + rank (fst (skip_comment inp))
   <= String.length inp)%nat.
Proof.
  induction inp as [|a inp IH]; simpl; [change (rank EOF) with 0%nat; lia|].
  destruct ((ord a =? 10) || (ord a =? 13)); simpl.
  - rewrite rank_ord. lia.
  - lia.
Qed.

Lemma gettok_body_advances (self : State -> option (Z * State)) (st : State) :
  (forall st1 tok st', self st1 = Some (tok, st') -> advances st1 tok st') ->
  forall tok st', gettok_body self st = Some (tok, st') -> advances st tok st'.
Proof.
  intros Hself tok st'. unfold gettok_body.
  pose proof (skip_space_length (stdin st) (LastChar st)) as Hsp.
  destruct (skip_space (stdin st) (LastChar st)) as [c inp]. simpl in Hsp.
  destruct (isalpha c) eqn:Ealpha.
  { pose proof (read_identifier_length inp (String (char_of c) "")) as Hid.
    destruct (read_identifier inp (String (char_of c) "")) as [[id c'] inp'].
    simpl in Hid.
    assert (rank c = 1%nat) as Hc.
    { unfold rank. destruct (Z.eqb_spec c EOF) as [-> |]; [discriminate|easy]. }
    intros H.
    assert (exists t, Some (t, set_LastChar c' (set_stdin inp'
              (set_IdentifierStr id (set_LastChar c (set_stdin inp st)))))
            = Some (tok, st') /\ t <> tok_eof) as (t & Ht & Hne).
    { destruct (String.eqb id "def"); [|destruct (String.eqb id "extern")];
        eexists; (split; [exact H | discriminate]). }
    inversion Ht; subst. unfold advances, pending. simpl. repeat split; lia. }
  destruct (isdigit c || (c =? ord ".")) eqn:Edig.
  { pose proof (read_number_length inp c "") as Hnum.
    destruct (read_number inp c "") as [[NumStr c'] inp']. simpl in Hnum.
    assert (rank c = 1%nat) as Hc.
    { unfold rank. destruct (Z.eqb_spec c EOF) as [-> |]; [discriminate|easy]. }
    destruct (stod NumStr); [|discriminate].
    intros H. inversion H; subst. unfold advances, pending. simpl.
    repeat split; lia. }
  destruct (c =? ord "#") eqn:Ehash.
  { apply Z.eqb_eq in Ehash. subst c.
    pose proof (skip_comment_length inp) as Hcom.
    destruct (skip_comment inp) as [c' inp']. simpl in Hcom.
    change (rank (ord "#")) with 1%nat in Hsp.
    destruct (c' =? EOF) eqn:Eeof; simpl.
    - intros H. inversion H; subst. unfold advances, pending. simpl.
      repeat split; lia.
    - intros H. apply Hself in H. unfold advances, pending in *. simpl in *.
      destruct H as (H1 & H2 & H3 & H4 & H5). repeat split; auto; lia. }
  destruct (c =? EOF) eqn:Eeof.
  { intros H. inversion H; subst. unfold advances, pending. simpl.
    apply Z.eqb_eq in Eeof. subst c. change (rank EOF) with 0%nat in Hsp.
    repeat split; auto; try lia. }
  unfold getchar. simpl.
  assert (rank c = 1%nat) as Hc by (unfold rank; now rewrite Eeof).
  destruct inp as [|a inp]; simpl; intros H; inversion H; subst;
    unfold advances, pending; simpl in *; try rewrite rank_ord;
    try change (rank EOF) with 0%nat; repeat split; lia.
Qed.

Lemma gettok_rec_advances (n : nat) (st : State) (tok : Z) (st' : State) :
  gettok_rec n st = Some (tok, st') -> advances st tok st'.
Proof.
  revert st tok st'. induction n as [|n IH]; intros st tok st'; simpl.
  - apply gettok_body_advances. discriminate.
  - apply gettok_body_advances. exact IH.
Qed.

Lemma gettok_advances (st : State) (tok : Z) (st' : State) :
  gettok st = Some (tok, st') -> advances st tok st'.
Proof. apply gettok_rec_advances. Qed.

(** The recursion after a comment is on a shorter unread input. *)
Lemma gettok_body_ext (f g : State -> option (Z * State)) (st : State) :
  (forall st', (String.length (stdin st') < String.length (stdin st))%nat ->
               f st' = g st') ->
  gettok_body f st = gettok_body g st.
Proof.
  intros Hfg. unfold gettok_body.
  pose proof (skip_space_length (stdin st) (LastChar st)) as Hsp.
  destruct (skip_space (stdin st) (LastChar st)) as [c inp]. simpl in Hsp.
  destruct (isalpha c); [reflexivity|].
  destruct (isdigit c || (c =? ord ".")); [reflexivity|].
  destruct (c =? ord "#") eqn:Ehash; [|reflexivity].
  apply Z.eqb_eq in Ehash. subst c.
  change (rank (ord "#")) with 1%nat in Hsp.
  pose proof (skip_comment_length inp) as Hcom.
  destruct (skip_comment inp) as [c' inp']. simpl in Hcom.
  destruct (c' =? EOF) eqn:Eeof; simpl; [reflexivity|].
  apply Hfg. simpl. unfold rank in *. rewrite Eeof in Hcom.
  destruct (LastChar st =? EOF); lia.
Qed.

Lemma gettok_rec_enough (n m : nat) (st : State) :
  (String.length (stdin st) <= n)%nat ->
  (String.length (stdin st) <= m)%nat ->
  gettok_rec n st = gettok_rec m st.
Proof.
  revert m st. induction n as [|n IH]; intros m st Hn Hm.
  - destruct m as [|m]; [reflexivity|]. simpl.
    apply gettok_body_ext. intros st' Hlt. lia.
  - destruct m as [|m]; simpl.
    + apply gettok_body_ext. intros st' Hlt. lia.
    + apply gettok_body_ext. intros st' Hlt. apply IH; lia.
Qed.

(** [gettok] satisfies the equation of the source: its body, with the call
    after a comment being [gettok] itself. *)
Lemma gettok_unfold (st : State) : gettok st = gettok_body gettok st.
Proof.
  unfold gettok at 1. destruct (String.length (stdin st)) as [|n] eqn:E; simpl.
  - apply gettok_body_ext. intros st' Hlt. lia.
  - apply gettok_body_ext. intros st' Hlt. apply gettok_rec_enough; lia.
Qed.

(** *** The lexer reads only its lookahead and the unread input *)

Lemma skip_space_lower (inp : string) (c : Z) :
  -1 <= c -> -1 <= fst (skip_space inp c).
Proof.
  revert c. induction inp as [|a inp IH]; intros c Hc; simpl.
  - destruct (isspace c); simpl; [unfold EOF|]; lia.
  - destruct (isspace c); simpl; [|lia].
    apply IH. pose proof (ord_range a). lia.
Qed.

Lemma read_identifier_lower (inp id : string) :
  -1 <= snd (fst (read_identifier inp id)).
Proof.
  revert id. induction inp as [|a inp IH]; intros id; simpl.
  - unfold EOF. lia.
  - destruct (isalnum (ord a)); simpl; [apply IH|].
    pose proof (ord_range a). lia.
Qed.

Lemma read_number_lower (inp : string) (c : Z) (NumStr : string) :
  -1 <= snd (fst (read_number inp c NumStr)).
Proof.
  revert c NumStr. induction inp as [|a inp IH]; intros c NumStr; simpl.
  - unfold EOF. lia.
  - destruct (isdigit (ord a) || (ord a =? ord ".")); simpl; [apply IH|].
    pose proof (ord_range a). lia.
Qed.

Lemma skip_comment_lower (inp : string) : -1 <= fst (skip_comment inp).
Proof.
  induction inp as [|a inp IH]; simpl.
  - unfold EOF. lia.
  - destruct ((ord a =? 10) || (ord a =? 13)); simpl; [|apply IH].
    pose proof (ord_range a). lia.
Qed.

Lemma gettok_body_frame (self1 self2 : State -> option (Z * State))
    (st1 st2 : State) :
  (forall a b, same_source a b -> -1 <= LastChar a ->
               agree (self1 a) (self2 b)) ->
  same_source st1 st2 -> -1 <= LastChar st1 ->
  agree (gettok_body self1 st1) (gettok_body self2 st2).
Proof.
  intros Hself [Hin Hc] Hlow. unfold gettok_body. rewrite <- Hin, <- Hc.
  pose proof (skip_space_lower (stdin st1) (LastChar st1) Hlow) as Hsp.
  destruct (skip_space (stdin st1) (LastChar st1)) as [c inp]. simpl in Hsp.
  destruct (isalpha c).
  { pose proof (read_identifier_lower inp (String (char_of c) "")) as Hid.
    destruct (read_identifier inp (String (char_of c) "")) as [[id c'] inp'].
    simpl in Hid.
    destruct (String.eqb id "def"); [|destruct (String.eqb id "extern")];
      simpl; repeat split; assumption. }
  destruct (isdigit c || (c =? ord ".")).
  { pose proof (read_number_lower inp c "") as Hnum.
    destruct (read_number inp c "") as [[NumStr c'] inp']. simpl in Hnum.
    destruct (stod NumStr); simpl; repeat split; assumption. }
  destruct (c =? ord "#").
  { pose proof (skip_comment_lower inp) as Hcom.
    destruct (skip_comment inp) as [c' inp']. simpl in Hcom.
    destruct (c' =? EOF); simpl.
    - repeat split; assumption.
    - apply Hself; [split; reflexivity | exact Hcom]. }
  destruct (c =? EOF).
  { simpl. repeat split; assumption. }
  unfold getchar. simpl.
  assert (observed c = fun _ => (c, None, None)) as Hobs.
  { unfold observed, tok_identifier, tok_def, tok_extern, tok_number.
    destruct (Z.eqb_spec c (-4)); [lia|]. destruct (Z.eqb_spec c (-2)); [lia|].
    destruct (Z.eqb_spec c (-3)); [lia|]. destruct (Z.eqb_spec c (-5)); [lia|].
    reflexivity. }
  destruct inp as [|a inp]; simpl; rewrite Hobs; repeat split.
  - unfold EOF. lia.
  - pose proof (ord_range a). lia.
Qed.

Lemma gettok_rec_frame (n : nat) (st1 st2 : State) :
  same_source st1 st2 -> -1 <= LastChar st1 ->
  agree (gettok_rec n st1) (gettok_rec n st2).
Proof.
  revert st1 st2. induction n as [|n IH]; intros st1 st2 Hs Hlow; simpl.
  - apply gettok_body_frame; auto. intros; exact I.
  - apply gettok_body_frame; auto.
Qed.

Lemma gettok_frame (st1 st2 : State) :
  same_source st1 st2 -> -1 <= LastChar st1 ->
  agree (gettok st1) (gettok st2).
Proof.
  intros Hs Hlow. unfold gettok. destruct Hs as [Hin Hc]. rewrite <- Hin.
  apply gettok_rec_frame; [split|]; assumption.
Qed.

(** C8: the lexer is a function of the characters it has to read.  From two
    states with the same unread input and the same lookahead (a character
    or [EOF]), whatever the other globals hold, it produces the same tokens
    with the same payloads. *)
Theorem lexer_deterministic (n : nat) (st1 st2 : State) :
  stdin st1 = stdin st2 -> LastChar st1 = LastChar st2 ->
  -1 <= LastChar st1 ->
  tokens n st1 = tokens n st2.
Proof.
  revert st1 st2. induction n as [|n IH]; intros st1 st2 Hin Hc Hlow; simpl.
  { reflexivity. }
  pose proof (gettok_frame st1 st2 (conj Hin Hc) Hlow) as H. unfold agree in H.
  destruct (gettok st1) as [[t1 st1']|], (gettok st2) as [[t2 st2']|];
    try contradiction; [|reflexivity].
  destruct H as (Hobs & [Hin' Hc'] & Hlow').
  rewrite Hobs. f_equal.
  assert (t1 = t2) as <- by (unfold observed in Hobs; congruence).
  destruct (t1 =? tok_eof); [reflexivity|]. now apply IH.
Qed.

(** *** Whitespace and comments *)

Lemma append_nil_r (s : string) : (s ++ "")%string = s.
Proof. induction s as [|a s IH]; simpl; [reflexivity | now rewrite IH]. Qed.

Lemma append_assoc (s1 s2 s3 : string) :
  ((s1 ++ s2) ++ s3)%string = (s1 ++ s2 ++ s3)%string.
Proof. induction s1 as [|a s1 IH]; simpl; [reflexivity | now rewrite IH]. Qed.

Lemma at_stream_here (st : State) (X : string) :
  LastChar st = lookahead X -> stdin st = unread X -> at_stream X st = st.
Proof. destruct st. simpl. intros -> ->. reflexivity. Qed.

(** The body of [gettok] starts by skipping whitespace: two states from
    which this leads to the same place give the same result. *)
Lemma gettok_skip (st : State) (c : Z) (inp : string) :
  skip_space (stdin st) (LastChar st) = skip_space inp c ->
  gettok st = gettok (set_LastChar c (set_stdin inp st)).
Proof.
  intros H. rewrite !gettok_unfold. unfold gettok_body.
  change (stdin (set_LastChar c (set_stdin inp st))) with inp.
  change (LastChar (set_LastChar c (set_stdin inp st))) with c.
  rewrite H. reflexivity.
Qed.

Lemma gettok_blank (st : State) :
  isspace (LastChar st) = true -> gettok st = gettok (at_stream (stdin st) st).
Proof.
  intros H. apply gettok_skip.
  destruct (stdin st) as [|b r] eqn:E; simpl; rewrite H; reflexivity.
Qed.

Lemma skip_comment_app (body : string) (nl : ascii) (X : string) :
  all (fun c => negb (newline c)) body = true -> newline (ord nl) = true ->
  skip_comment (body ++ String nl X) = (ord nl, X).
Proof.
  intros Hbody Hnl. induction body as [|a body IH]; simpl.
  - unfold newline in Hnl. now rewrite Hnl.
  - simpl in Hbody. apply andb_prop in Hbody. destruct Hbody as [Ha Hbody].
    unfold newline in Ha. apply negb_true_iff in Ha. rewrite Ha. now apply IH.
Qed.

Lemma skip_comment_tail (body : string) :
  all (fun c => negb (newline c)) body = true ->
  skip_comment body = (EOF, "").
Proof.
  intros Hbody. induction body as [|a body IH]; simpl; [reflexivity|].
  simpl in Hbody. apply andb_prop in Hbody. destruct Hbody as [Ha Hbody].
  unfold newline in Ha. apply negb_true_iff in Ha. rewrite Ha. now apply IH.
Qed.

Lemma skip_space_stop (inp : string) (c : Z) :
  isspace c = false -> skip_space inp c = (c, inp).
Proof. intros H. destruct inp; simpl; now rewrite H. Qed.

Lemma gettok_comment (st : State) (body : string) (nl : ascii) (X : string) :
  LastChar st = ord "#" -> stdin st = (body ++ String nl X)%string ->
  all (fun c => negb (newline c)) body = true -> newline (ord nl) = true ->
  gettok st = gettok (at_stream (String nl X) st).
Proof.
  intros Hc Hin Hbody Hnl. rewrite (gettok_unfold st). unfold gettok_body.
  rewrite Hc, Hin, skip_space_stop by reflexivity.
  change (isalpha (ord "#")) with false.
  change (isdigit (ord "#") || (ord "#" =? ord ".")) with false.
  change (ord "#" =? ord "#") with true. cbv iota.
  rewrite skip_comment_app by assumption.
  rewrite ord_not_EOF. reflexivity.
Qed.

Lemma newline_isspace (c : Z) : newline c = true -> isspace c = true.
Proof. unfold newline, isspace. lia. Qed.

(** A gap is skipped: lexing before it is lexing after it. *)
Lemma gettok_gap (g : list piece) (X : string) (st : State) :
  forallb piece_ok g = true ->
  LastChar st = lookahead (gap_text g ++ X) ->
  stdin st = unread (gap_text g ++ X) ->
  gettok st = gettok (at_stream X st).
Proof.
  revert st. induction g as [|p g IH]; intros st Hok Hc Hin.
  - simpl in *. now rewrite at_stream_here.
  - simpl in Hok. apply andb_prop in Hok. destruct Hok as [Hp Hg].
    destruct p as [a | body nl]; simpl in Hc, Hin, Hp.
    + rewrite gettok_blank by now rewrite Hc.
      rewrite Hin. rewrite IH; auto.
    + apply andb_prop in Hp. destruct Hp as [Hbody Hnl].
      rewrite !append_assoc in Hin. simpl in Hin.
      rewrite (gettok_comment st body nl (gap_text g ++ X)); auto.
      rewrite gettok_blank by now apply newline_isspace.
      change (stdin (at_stream (String nl (gap_text g ++ X)) st))
        with (gap_text g ++ X)%string.
      rewrite IH; auto.
Qed.

(** *** Tokens *)

Lemma read_identifier_app (w X id : string) :
  all isalnum w = true -> isalnum (lookahead X) = false ->
  read_identifier (w ++ X) id = ((id ++ w)%string, lookahead X, unread X).
Proof.
  intros Hw HX. revert id. induction w as [|a w IH]; intros id; simpl.
  - rewrite append_nil_r. destruct X as [|b X]; simpl in *; [reflexivity|].
    now rewrite HX.
  - simpl in Hw. apply andb_prop in Hw. destruct Hw as [Ha Hw].
    rewrite Ha, char_of_ord, IH, append_assoc by assumption. reflexivity.
Qed.

Lemma read_number_app (w X : string) (a : ascii) (NumStr : string) :
  all numeric w = true -> numeric (lookahead X) = false ->
  read_number (w ++ X) (ord a) NumStr =
    ((NumStr ++ String a w)%string, lookahead X, unread X).
Proof.
  intros Hw HX. revert a NumStr.
  induction w as [|b w IH]; intros a NumStr; simpl.
  - destruct X as [|b X]; simpl in *; rewrite char_of_ord; [reflexivity|].
    unfold numeric in HX. now rewrite HX.
  - simpl in Hw. apply andb_prop in Hw. destruct Hw as [Hb Hw].
    unfold numeric in Hb. rewrite Hb, char_of_ord, IH, append_assoc
      by assumption. reflexivity.
Qed.

Lemma isalpha_not_space (c : Z) : isalpha c = true -> isspace c = false.
Proof. unfold isalpha, isspace. lia. Qed.

Lemma numeric_not_space (c : Z) : numeric c = true -> isspace c = false.
Proof. unfold numeric, isdigit, isspace. change (ord ".") with 46. lia. Qed.

Lemma numeric_not_alpha (c : Z) : numeric c = true -> isalpha c = false.
Proof. unfold numeric, isdigit, isalpha. change (ord ".") with 46. lia. Qed.

(** At a letter [gettok] takes in the whole run of letters and digits and
    stops at the character after it, which becomes the lookahead. *)
Lemma gettok_word (st : State) (a : ascii) (w X : string) :
  LastChar st = ord a -> stdin st = (w ++ X)%string ->
  isalpha (ord a) = true -> all isalnum w = true ->
  isalnum (lookahead X) = false ->
  gettok st =
    Some (word_token (String a w),
          at_stream X (set_IdentifierStr (String a w) st)).
Proof.
  intros Hc Hin Ha Hw HX. rewrite gettok_unfold. unfold gettok_body.
  rewrite Hc, Hin, skip_space_stop by now apply isalpha_not_space.
  rewrite Ha, read_identifier_app, char_of_ord by assumption.
  cbv beta iota zeta. change (String a "" ++ w)%string with (String a w).
  unfold word_token.
  destruct (String.eqb (String a w) "def"); [reflexivity|].
  destruct (String.eqb (String a w) "extern"); reflexivity.
Qed.

Lemma gettok_numeral (st : State) (a : ascii) (w X : string) :
  LastChar st = ord a -> stdin st = (w ++ X)%string ->
  numeric (ord a) = true -> all numeric w = true ->
  numeric (lookahead X) = false ->
  gettok st =
    match stod (String a w) with
    | Some v => Some (tok_number, set_NumVal v (at_stream X st))
    | None => None
    end.
Proof.
  intros Hc Hin Ha Hw HX. rewrite gettok_unfold. unfold gettok_body.
  rewrite Hc, Hin, skip_space_stop by now apply numeric_not_space.
  rewrite numeric_not_alpha by assumption.
  unfold numeric in Ha. rewrite Ha.
  rewrite read_number_app by assumption. reflexivity.
Qed.

Lemma gettok_punct (st : State) (a : ascii) (X : string) :
  LastChar st = ord a -> stdin st = X ->
  lexeme_ok (Punct a) = true ->
  gettok st = Some (ord a, at_stream X st).
Proof.
  intros Hc Hin Hok. simpl in Hok.
  apply andb_prop in Hok. destruct Hok as [Hok H4].
  apply andb_prop in Hok. destruct Hok as [Hok H3].
  apply andb_prop in Hok. destruct Hok as [H1 H2].
  apply negb_true_iff in H1, H2, H3, H4.
  rewrite gettok_unfold. unfold gettok_body.
  rewrite Hc, Hin, skip_space_stop by assumption.
  unfold numeric in H3. rewrite H2, H3, H4, ord_not_EOF.
  unfold getchar. destruct X as [|b X]; reflexivity.
Qed.

Lemma gettok_end (st : State) (t : option string) :
  LastChar st = lookahead (tail_text t) -> stdin st = unread (tail_text t) ->
  tail_ok t = true ->
  gettok st = Some (tok_eof, at_stream "" st).
Proof.
  intros Hc Hin Hok. rewrite gettok_unfold. unfold gettok_body.
  rewrite Hc, Hin. destruct t as [body|]; simpl in *.
  - rewrite skip_space_stop by reflexivity.
    change (isalpha (ord "#")) with false.
    change (isdigit (ord "#") || (ord "#" =? ord ".")) with false.
    change (ord "#" =? ord "#") with true. cbv iota.
    rewrite skip_comment_tail by assumption. reflexivity.
  - reflexivity.
Qed.

(** The tokens of a laid-out stream are those of its token texts. *)
Lemma tokens_render (L : list (list piece * lexeme)) (e : list piece)
    (t : option string) (n : nat) (st : State) :
  layout_ok L e t = true ->
  LastChar st = lookahead (render L e t) ->
  stdin st = unread (render L e t) ->
  (length L < n)%nat ->
  tokens n st = expected (map snd L).
Proof.
  revert n st. induction L as [|[g l] L IH]; intros n st Hok Hc Hin Hn;
    (destruct n as [|n]; [simpl in Hn; lia|]); simpl in Hok, Hc, Hin |- *.
  - apply andb_prop in Hok. destruct Hok as [He Ht].
    rewrite (gettok_gap e (tail_text t) st), (gettok_end _ t) by auto.
    reflexivity.
  - apply andb_prop in Hok. destruct Hok as [Hok HL].
    apply andb_prop in Hok. destruct Hok as [Hok Hcl].
    apply andb_prop in Hok. destruct Hok as [Hg Hl].
    rewrite (gettok_gap g (text l ++ render L e t) st) by auto.
    simpl in Hn.
    destruct l as [a w | a w | a]; simpl in Hl, Hcl |- *.
    + apply andb_prop in Hl. destruct Hl as [Ha Hw].
      apply negb_true_iff in Hcl.
      rewrite (gettok_word _ a w (render L e t)) by auto.
      assert ((word_token (String a w) =? tok_eof) = false) as ->.
      { unfold word_token. destruct (String.eqb _ "def"); [reflexivity|].
        destruct (String.eqb _ "extern"); reflexivity. }
      rewrite IH by (auto; lia). f_equal. unfold observed, word_token.
      destruct (String.eqb _ "def"); [reflexivity|].
      destruct (String.eqb _ "extern"); reflexivity.
    + apply andb_prop in Hl. destruct Hl as [Ha Hw].
      apply negb_true_iff in Hcl.
      rewrite (gettok_numeral _ a w (render L e t)) by auto.
      destruct (stod (String a w)) as [v|]; [|reflexivity].
      change (tok_number =? tok_eof) with false. cbv iota.
      rewrite IH by (auto; lia). reflexivity.
    + rewrite (gettok_punct _ a (render L e t)) by auto.
      rewrite (ord_not_EOF a : (ord a =? tok_eof) = false).
      rewrite IH by (auto; lia). f_equal. unfold observed.
      pose proof (ord_range a).
      unfold tok_identifier, tok_def, tok_extern, tok_number.
      destruct (Z.eqb_spec (ord a) (-4)); [lia|].
      destruct (Z.eqb_spec (ord a) (-2)); [lia|].
      destruct (Z.eqb_spec (ord a) (-3)); [lia|].
      destruct (Z.eqb_spec (ord a) (-5)); [lia|]. reflexivity.
Qed.

Lemma length_append (s1 s2 : string) :
  String.length (s1 ++ s2) = (String.length s1 + String.length s2)%nat.
Proof. induction s1 as [|a s1 IH]; simpl; [reflexivity | now rewrite IH]. Qed.

Lemma render_length (L : list (list piece * lexeme)) (e : list piece)
    (t : option string) :
  (length L <= String.length (render L e t))%nat.
Proof.
  induction L as [|[g l] L IH]; simpl; [lia|].
  rewrite !length_append. destruct l; simpl; lia.
Qed.

(** [main] starts with a space as lookahead: the input is lexed as if it
    came after one more blank. *)
Lemma lex_render (L : list (list piece * lexeme)) (e : list piece)
    (t : option string) :
  layout_ok L e t = true -> lex (render L e t) = expected (map snd L).
Proof.
  intros Hok. unfold lex. pose proof (render_length L e t) as Hlen.
  destruct L as [|[g l] L].
  - apply (tokens_render [] (Blank " " :: e) t); simpl in *; auto; lia.
  - apply (tokens_render ((Blank " " :: g, l) :: L) e t); simpl in *; auto.
    lia.
Qed.

(** C2: at a letter, after any whitespace and comments, the lexer takes the
    maximal run of letters and digits; it returns [tok_def] when the run is
    "def", [tok_extern] when it is "extern" and [tok_identifier] otherwise,
    with the run in [IdentifierStr]; the character that ended the run is
    the lookahead of the next call and the input after it is unread. *)
Theorem identifier_lexing (st : State) (g : list piece) (a : ascii)
    (w X : string) :
  forallb piece_ok g = true ->
  LastChar st = lookahead (gap_text g ++ String a w ++ X) ->
  stdin st = unread (gap_text g ++ String a w ++ X) ->
  isalpha (ord a) = true -> all isalnum w = true ->
  isalnum (lookahead X) = false ->
  exists st',
    gettok st =
      Some (if String.eqb (String a w) "def" then tok_def
            else if String.eqb (String a w) "extern" then tok_extern
            else tok_identifier, st') /\
    IdentifierStr st' = String a w /\
    LastChar st' = lookahead X /\
    stdin st' = unread X.
Proof.
  intros Hg Hc Hin Ha Hw HX.
  rewrite (gettok_gap g (String a w ++ X) st) by assumption.
  rewrite (gettok_word _ a w X) by auto.
  eexists. split; [reflexivity|]. repeat split.
Qed.


End Lexer.

(** ** The parser *)

Section Parser.
Context `{FP : Floating}.

Lemma getNextToken_spec (st : State) :
  match getNextToken st with
  | Done t st' =>
      CurTok st' = t /\
      (remaining st' <= remaining st)%nat /\
      (CurTok st <> tok_eof -> (remaining st' < remaining st)%nat) /\
      stderr st' = stderr st /\
      BinopPrecedence st' = BinopPrecedence st
  | Throw => True
  | OutOfFuel => False
  end.
Proof.
  unfold getNextToken. destruct (gettok st) as [[t st']|] eqn:E; [|exact I].
  apply gettok_advances in E. destruct E as (H1 & H2 & H3 & H4 & H5).
  unfold remaining, pending in *. simpl.
  repeat split; auto.
  - destruct (Z.eqb_spec t tok_eof); destruct (CurTok st =? tok_eof); lia.
  - intros Hne. apply Z.eqb_neq in Hne. rewrite Hne.
    destruct (Z.eqb_spec t tok_eof); lia.
Qed.

Lemma GetTokPrecedence_spec (st : State) :
  exists p st',
    GetTokPrecedence st = Done p st' /\
    (p = -1 \/ (0 < p /\ CurTok st <> tok_eof)) /\
    remaining st' = remaining st /\
    CurTok st' = CurTok st /\
    stderr st' = stderr st /\
    (table_inv (BinopPrecedence st) -> table_inv (BinopPrecedence st')).
Proof.
  unfold GetTokPrecedence, bind, read, map_subscript, ret.
  destruct (isascii (CurTok st)) eqn:Ea; simpl.
  2: { exists (-1), st. repeat split; auto. }
  assert (CurTok st <> tok_eof) as Hne.
  { unfold isascii, tok_eof in *. lia. }
  destruct (BinopPrecedence st !! CurTok st) as [v|] eqn:E; simpl.
  - destruct (Z.leb_spec v 0).
    + exists (-1), st. repeat split; auto.
    + exists v, st. repeat split; auto.
  - eexists _, _. split; [reflexivity|]. repeat split; auto.
    simpl. intros Hinv. now apply table_inv_insert_zero.
Qed.

Lemma remaining_set_stderr (l : list string) (st : State) :
  remaining (set_stderr l st) = remaining st.
Proof. reflexivity. Qed.

Lemma extends_refl {A} (m : M A) : extends m m.
Proof. intros st _. reflexivity. Qed.

Lemma extends_trans {A} (m1 m2 m3 : M A) :
  extends m1 m2 -> extends m2 m3 -> extends m1 m3.
Proof.
  intros H12 H23 st H. rewrite <- (H12 st H). apply H23.
  now rewrite (H12 st H).
Qed.

Lemma extends_out_of_fuel {A} (m : M A) : extends out_of_fuel m.
Proof. intros st H. now contradiction H. Qed.

Lemma extends_bind {A B} (m m' : M A) (k k' : A -> M B) :
  extends m m' -> (forall a, extends (k a) (k' a)) ->
  extends (bind m k) (bind m' k').
Proof.
  intros Hm Hk st H. unfold bind in *.
  destruct (m st) as [a st1| |] eqn:E.
  - rewrite (Hm st) by (rewrite E; discriminate). rewrite E. now apply Hk.
  - rewrite (Hm st) by (rewrite E; discriminate). now rewrite E.
  - now contradiction H.
Qed.

End Parser.

Ltac extend :=
  repeat first
    [ assumption
    | apply extends_refl
    | apply extends_out_of_fuel
    | apply extends_bind; [| intros ?]
    | match goal with
      | |- extends (match ?x with _ => _ end) _ => destruct x
      | H : forall _, extends _ _ |- _ => apply H
      | H : forall _ _, extends _ _ |- _ => apply H
      end ].

Ltac call H :=
  match type of H with
  | correct _ _ _ _ ?o =>
      destruct o as [[?|] ?| |]; unfold correct, post in H;
      [ destruct H as (? & ? & ? & ?)
      | destruct H as (? & ? & ? & ?)
      | clear H
      | unfold within in H ]
  end.

Ltac token st :=
  let H := fresh "Htok" in
  pose proof (getNextToken_spec st) as H;
  destruct (getNextToken st) as [? ?| |];
  [destruct H as (? & ? & ? & ? & ?) | try exact I | contradiction H].

Ltac precedence st :=
  let p := fresh "p" in
  let st' := fresh "st" in
  let H := fresh "Hprec" in
  destruct (GetTokPrecedence_spec st) as (p & st' & H & ? & ? & ? & ? & ?);
  rewrite H; clear H.

Ltac finish :=
  unfold correct, post, within, LogError, LogErrorP, bind, ret, read;
  simpl;
  repeat match goal with
         | H : true = true -> _ |- _ => specialize (H eq_refl)
         | H : ?a <> ?b -> _, H' : ?a <> ?b |- _ => specialize (H H')
         | H : ?a <> tok_eof -> _, H' : ?a = _ |- _ =>
             specialize (H ltac:(rewrite H'; discriminate))
         | H : stderr _ = _ |- _ => rewrite H in *; clear H
         | H : BinopPrecedence _ = _ |- _ => rewrite H in *; clear H
         end;
  try exact I;
  rewrite ?remaining_set_stderr;
  repeat split; intros;
  try lia; try tauto; try discriminate;
  try (eexists; reflexivity).

Section Correct.
Context `{FP : Floating}.

Lemma parser_correct (fuel : nat) :
  (forall st, correct true 5 fuel st (ParseExpression fuel st)) /\
  (forall st, correct true 4 fuel st (ParsePrimary fuel st)) /\
  (forall st, CurTok st = ord "(" ->
     correct true 3 fuel st (ParseParenExpr fuel st)) /\
  (forall st, CurTok st = tok_identifier ->
     correct true 3 fuel st (ParseIdentifierExpr fuel st)) /\
  (forall st Args, correct true 6 fuel st (ParseArguments fuel Args st)) /\
  (forall st ExprPrec LHS, 0 <= ExprPrec ->
     correct false 4 fuel st (ParseBinOpRHS fuel ExprPrec LHS st)).
Proof.
  induction fuel as [|fuel (IHE & IHP & IHPa & IHI & IHA & IHR)].
  { repeat split; intros; simpl; unfold within; lia. }
  repeat split.
  - (* ParseExpression *)
    intros st. simpl. unfold bind at 1.
    pose proof (IHP st) as HP. call HP; try solve [finish].
    pose proof (IHR st0 0 e ltac:(lia)) as HR.
    call HR; finish.
  - (* ParsePrimary *)
    intros st. simpl. unfold bind at 1, read.
    destruct (Z.eqb_spec (CurTok st) tok_identifier) as [E1|E1].
    { pose proof (IHI st E1) as HI. call HI; finish. }
    destruct (Z.eqb_spec (CurTok st) tok_number) as [E2|E2].
    { unfold ParseNumberExpr, bind, read. token st. finish. }
    destruct (Z.eqb_spec (CurTok st) (ord "(")) as [E3|E3].
    { pose proof (IHPa st E3) as HPa. call HPa; finish. }
    finish.
  - (* ParseParenExpr *)
    intros st E. simpl. unfold bind at 1. token st.
    unfold bind at 1.
    pose proof (IHE st0) as HE. call HE; try solve [finish].
    unfold bind at 1, read.
    destruct (Z.eqb_spec (CurTok st1) (ord ")")) as [E1|E1]; simpl.
    + unfold bind. token st1. finish.
    + finish.
  - (* ParseIdentifierExpr *)
    intros st E. simpl. unfold bind, read. token st.
    destruct (Z.eqb_spec (CurTok st0) (ord "(")) as [E1|E1]; simpl.
    2: { finish. }
    token st0.
    destruct (Z.eqb_spec (CurTok st1) (ord ")")) as [E2|E2]; simpl.
    { token st1. finish. }
    pose proof (IHA st1 []) as HA. call HA; try solve [finish].
    token st2. finish.
  - (* ParseArguments *)
    intros st Args. simpl. unfold bind, read.
    pose proof (IHE st) as HE. call HE; try solve [finish].
    destruct (Z.eqb_spec (CurTok st0) (ord ")")) as [E1|E1]; simpl.
    { finish. }
    destruct (Z.eqb_spec (CurTok st0) (ord ",")) as [E2|E2]; simpl.
    2: { finish. }
    token st0.
    pose proof (IHA st1 (Args ++ [e])%list) as HA. call HA; finish.
  - (* ParseBinOpRHS *)
    intros st ExprPrec LHS Hprec. simpl. unfold bind, read.
    precedence st.
    destruct (Z.ltb_spec p ExprPrec) as [E1|E1].
    { finish. }
    assert (CurTok st0 <> tok_eof) as Hne by (intuition congruence || lia).
    token st0.
    pose proof (IHP st1) as HP. call HP; try solve [finish].
    precedence st2.
    destruct (Z.ltb_spec p p0) as [E2|E2].
    + pose proof (IHR st3 (p + 1) e ltac:(lia)) as HR.
      call HR; try solve [finish].
      pose proof (IHR st4 ExprPrec (BinaryExprAST (char_of (CurTok st0)) LHS e0)
                    Hprec) as HR'.
      call HR'; finish.
    + unfold ret at 1.
      pose proof (IHR st3 ExprPrec (BinaryExprAST (char_of (CurTok st0)) LHS e)
                    Hprec) as HR'.
      call HR'; finish.
Qed.

(** *** More fuel changes nothing *)

(** The equations of the parsing functions. *)
Lemma ParseExpression_S (fuel : nat) :
  ParseExpression (S fuel) =
    (LHS <- ParsePrimary fuel ;;
     match LHS with
     | None => ret None
     | Some LHS => ParseBinOpRHS fuel 0 LHS
     end).
Proof. reflexivity. Qed.

Lemma ParsePrimary_S (fuel : nat) :
  ParsePrimary (S fuel) =
    (tok <- read CurTok ;;
     if tok =? tok_identifier then ParseIdentifierExpr fuel
     else if tok =? tok_number then ParseNumberExpr
     else if tok =? ord "(" then ParseParenExpr fuel
     else LogError "unknown token when expecting an expression").
Proof. reflexivity. Qed.

Lemma ParseParenExpr_S (fuel : nat) :
  ParseParenExpr (S fuel) =
    (getNextToken ;;;
     V <- ParseExpression fuel ;;
     match V with
     | None => ret None
     | Some V =>
         tok <- read CurTok ;;
         if negb (tok =? ord ")") then LogError "expected ')'"
         else getNextToken ;;; ret (Some V)
     end).
Proof. reflexivity. Qed.

Lemma ParseIdentifierExpr_S (fuel : nat) :
  ParseIdentifierExpr (S fuel) =
    (IdName <- read IdentifierStr ;;
     getNextToken ;;;
     tok <- read CurTok ;;
     if negb (tok =? ord "(") then ret (Some (VariableExprAST IdName))
     else
       getNextToken ;;;
       tok <- read CurTok ;;
       Args <- (if negb (tok =? ord ")") then ParseArguments fuel []
                else ret (Some [])) ;;
       match Args with
       | None => ret None
       | Some Args =>
           getNextToken ;;;
           ret (Some (CallExprAST IdName Args))
       end).
Proof. reflexivity. Qed.

Lemma ParseArguments_S (fuel : nat) (Args : list ExprAST) :
  ParseArguments (S fuel) Args =
    (Arg <- ParseExpression fuel ;;
     match Arg with
     | None => ret None
     | Some Arg =>
         tok <- read CurTok ;;
         if tok =? ord ")" then ret (Some (Args ++ [Arg])%list)
         else if negb (tok =? ord ",") then
           @LogError _ ExprAST "Expected ')' or ',' in argument list" ;;;
           ret None
         else getNextToken ;;; ParseArguments fuel (Args ++ [Arg])%list
     end).
Proof. reflexivity. Qed.

Lemma ParseBinOpRHS_S (fuel : nat) (ExprPrec : Z) (LHS : ExprAST) :
  ParseBinOpRHS (S fuel) ExprPrec LHS =
    (TokPrec <- GetTokPrecedence ;;
     if TokPrec <? ExprPrec then ret (Some LHS)
     else
       BinOp <- read CurTok ;;
       getNextToken ;;;
       RHS <- ParsePrimary fuel ;;
       match RHS with
       | None => ret None
       | Some RHS =>
           NextPrec <- GetTokPrecedence ;;
           RHS <- (if TokPrec <? NextPrec
                   then ParseBinOpRHS fuel (TokPrec + 1) RHS
                   else ret (Some RHS)) ;;
           match RHS with
           | None => ret None
           | Some RHS =>
               ParseBinOpRHS fuel ExprPrec
                 (BinaryExprAST (char_of BinOp) LHS RHS)
           end
       end).
Proof. reflexivity. Qed.

Lemma parser_fuel_S (fuel : nat) :
  extends (ParseExpression fuel) (ParseExpression (S fuel)) /\
  extends (ParsePrimary fuel) (ParsePrimary (S fuel)) /\
  extends (ParseParenExpr fuel) (ParseParenExpr (S fuel)) /\
  extends (ParseIdentifierExpr fuel) (ParseIdentifierExpr (S fuel)) /\
  (forall Args,
     extends (ParseArguments fuel Args) (ParseArguments (S fuel) Args)) /\
  (forall ExprPrec LHS,
     extends (ParseBinOpRHS fuel ExprPrec LHS)
             (ParseBinOpRHS (S fuel) ExprPrec LHS)).
Proof.
  induction fuel as [|fuel (IHE & IHP & IHPa & IHI & IHA & IHR)].
  { repeat split; intros; apply extends_out_of_fuel. }
  repeat split; intros.
  - rewrite !ParseExpression_S. extend.
  - rewrite !ParsePrimary_S. extend.
  - rewrite !ParseParenExpr_S. extend.
  - rewrite !ParseIdentifierExpr_S. extend.
  - rewrite !ParseArguments_S. extend.
  - rewrite !ParseBinOpRHS_S. extend.
Qed.

Lemma parser_fuel_le (fuel fuel' : nat) :
  (fuel <= fuel')%nat ->
  extends (ParseExpression fuel) (ParseExpression fuel') /\
  (forall ExprPrec LHS,
     extends (ParseBinOpRHS fuel ExprPrec LHS)
             (ParseBinOpRHS fuel' ExprPrec LHS)).
Proof.
  induction 1 as [|fuel' _ [IHE IHR]].
  - split; intros; apply extends_refl.
  - destruct (parser_fuel_S fuel') as (HE & _ & _ & _ & _ & HR).
    split; intros; eapply extends_trans; eauto.
Qed.

(** *** Termination *)

(** C9: expression parsing terminates.  In every state, with the fuel
    [enough st] or more, [ParseExpression] returns or is ended by an
    exception of the conversion; it never reaches the recursion bound, and
    what it does is the same whatever the fuel above [enough st].  When it
    returns a node it has consumed at least one token, and it never puts
    tokens back. *)
Theorem ParseExpression_terminates (st : State) (k : nat) :
  match ParseExpression (enough st + k) st with
  | Done (Some _) st' => (remaining st' < remaining st)%nat
  | Done None st' => (remaining st' <= remaining st)%nat
  | Throw => True
  | OutOfFuel => False
  end /\
  ParseExpression (enough st + k) st = ParseExpression (enough st) st.
Proof.
  assert (forall j,
            match ParseExpression (enough st + j) st with
            | Done (Some _) st' => (remaining st' < remaining st)%nat
            | Done None st' => (remaining st' <= remaining st)%nat
            | Throw => True
            | OutOfFuel => False
            end) as Hhalt.
  { intros j. destruct (parser_correct (enough st + j)) as (HE & _).
    specialize (HE st). unfold correct, post, within, enough in *.
    destruct (ParseExpression _ st) as [[e|] st'| |]; try tauto; lia. }
  split; [apply Hhalt|].
  destruct (parser_fuel_le (enough st) (enough st + k) ltac:(lia)) as [HE _].
  apply HE. specialize (Hhalt 0%nat). rewrite Nat.add_0_r in Hhalt.
  destruct (ParseExpression (enough st) st); [discriminate.. | contradiction].
Qed.

(** X16: a turn of the loop of [ParseBinOpRHS] consumes the operator: a
    call with a minimal precedence that is not negative, when it returns,
    either has consumed a token, or has made no turn: it returns its [LHS]
    and as much of the token stream is left as before. *)
Lemma ParseBinOpRHS_iteration
    (fuel : nat) (ExprPrec : Z) (LHS : ExprAST) (st : State)
    (r : option ExprAST) (st' : State) :
  0 <= ExprPrec ->
  ParseBinOpRHS fuel ExprPrec LHS st = Done r st' ->
  (remaining st' < remaining st)%nat \/
  (remaining st' = remaining st /\ r = Some LHS).
Proof.
  intros Hprec. destruct fuel as [|fuel]; [discriminate|].
  destruct (parser_correct fuel) as (_ & IHP & _ & _ & _ & IHR).
  rewrite ParseBinOpRHS_S. unfold bind, read.
  precedence st.
  destruct (Z.ltb_spec p ExprPrec) as [E1|E1].
  { unfold ret. intros [= <- <-]. right. now split. }
  assert (CurTok st0 <> tok_eof) as Hne by (intuition congruence || lia).
  token st0; [|discriminate].
  pose proof (IHP st1) as HP. call HP; try discriminate.
  2: { unfold ret. intros [= <- <-]. left. finish. }
  precedence st2.
  destruct (Z.ltb_spec p p0) as [E2|E2].
  - pose proof (IHR st3 (p + 1) e ltac:(lia)) as HR.
    call HR; try discriminate.
    2: { unfold ret. intros [= <- <-]. left. finish. }
    pose proof (IHR st4 ExprPrec (BinaryExprAST (char_of (CurTok st0)) LHS e0)
                  Hprec) as HR'.
    call HR'; try discriminate; intros [= <- <-]; left; finish.
  - unfold ret at 1.
    pose proof (IHR st3 ExprPrec (BinaryExprAST (char_of (CurTok st0)) LHS e)
                  Hprec) as HR'.
    call HR'; try discriminate; intros [= <- <-]; left; finish.
Qed.

(** *** Failures *)




End Correct.

(** ** Calls *)

Section Calls.
Context `{FP : Floating}.

Lemma getNextToken_CurTok (st : State) (t : Z) (st' : State) :
  getNextToken st = Done t st' -> CurTok st' = t.
Proof.
  unfold getNextToken. destruct (gettok st) as [[tok st1]|]; [|discriminate].
  now intros [= <- <-].
Qed.

(** The loop of [ParseIdentifierExpr] appends the arguments in the order in
    which it parses them. *)
Lemma ParseArguments_order (fuel : nat) :
  forall (Args : list ExprAST) (st : State) (l : list ExprAST) (st' : State),
    ParseArguments fuel Args st = Done (Some l) st' ->
    exists new, l = (Args ++ new)%list /\ arguments st new st'.
Proof.
  induction fuel as [|fuel IH]; intros Args st l st'; [discriminate|].
  rewrite ParseArguments_S. unfold bind, read.
  destruct (ParseExpression fuel st) as [[a|] st1| |] eqn:EE; try discriminate.
  destruct (Z.eqb_spec (CurTok st1) (ord ")")) as [E1|E1].
  { unfold ret. intros [= <- <-]. exists [a]. split; [reflexivity|].
    eapply arguments_last; eauto. }
  destruct (Z.eqb_spec (CurTok st1) (ord ",")) as [E2|E2]; simpl.
  2: { unfold LogError, ret. discriminate. }
  destruct (getNextToken st1) as [t st2| |] eqn:Etok; try discriminate.
  intros H. apply IH in H. destruct H as (new & -> & Hargs).
  exists (a :: new). split; [now rewrite <- app_assoc|].
  eapply arguments_more; eauto.
Qed.

Lemma ParseIdentifierExpr_call (fuel : nat) (st : State) (T : ExprAST)
    (st' : State) :
  ParseIdentifierExpr fuel st = Done (Some T) st' ->
  identifier_expression st T st'.
Proof.
  unfold identifier_expression. destruct fuel as [|fuel]; [discriminate|].
  rewrite ParseIdentifierExpr_S. unfold bind, read.
  destruct (getNextToken st) as [t st1| |] eqn:Etok; try discriminate.
  pose proof (getNextToken_CurTok _ _ _ Etok) as <-.
  intros H. exists st1. split; [reflexivity|].
  destruct (Z.eqb_spec (CurTok st1) (ord "(")) as [E1|E1]; simpl in H.
  2: { unfold ret in H. injection H as <- <-. now split. }
  destruct (getNextToken st1) as [t2 st2| |] eqn:Etok2; try discriminate.
  pose proof (getNextToken_CurTok _ _ _ Etok2) as <-.
  destruct (Z.eqb_spec (CurTok st2) (ord ")")) as [E2|E2]; simpl in H.
  - unfold ret at 1 in H.
    destruct (getNextToken st2) as [t3 st3| |] eqn:Etok3; try discriminate.
    pose proof (getNextToken_CurTok _ _ _ Etok3) as <-.
    unfold ret in H. injection H as <- <-.
    exists st2, [], st2. rewrite (proj2 (Z.eqb_eq _ _) E2). auto.
  - destruct (ParseArguments fuel [] st2) as [[Args|] st3| |] eqn:EA;
      try discriminate.
    destruct (getNextToken st3) as [t3 st4| |] eqn:Etok3; try discriminate.
    pose proof (getNextToken_CurTok _ _ _ Etok3) as <-.
    unfold ret in H. injection H as <- <-.
    apply ParseArguments_order in EA. destruct EA as (new & -> & Hargs).
    exists st2, new, st3. rewrite (proj2 (Z.eqb_neq _ _) E2).
    repeat split; auto.
    clear -Hargs. induction Hargs; auto.
Qed.

(** After an argument, a token that is neither ')' nor ',' ends the parse of
    the arguments with the error of the argument list and no node. *)
Lemma ParseArguments_separator (fuel : nat) (Args : list ExprAST)
    (st : State) (a : ExprAST) (st1 : State) :
  ParseExpression fuel st = Done (Some a) st1 ->
  CurTok st1 <> ord ")" -> CurTok st1 <> ord "," ->
  ParseArguments (S fuel) Args st =
    Done None
      (set_stderr
         (stderr st1 ++ ["LogError: Expected ')' or ',' in argument list"])
         st1).
Proof.
  intros HE H1 H2. rewrite ParseArguments_S. unfold bind, read. rewrite HE.
  apply Z.eqb_neq in H1, H2. rewrite H1, H2. reflexivity.
Qed.

End Calls.

(** ** Precedence climbing, on input without parentheses *)

Section Climbing.
Context `{FP : Floating}.

Lemma clean_EOF (inp : string) :
  all (fun x => negb (x =? ord "(")) inp = true -> clean EOF inp.
Proof. intros H. split; [discriminate | exact H]. Qed.

Lemma clean_cons (a : ascii) (inp : string) :
  all (fun x => negb (x =? ord "(")) (String a inp) = true ->
  clean (ord a) inp.
Proof.
  simpl. intros H. apply andb_prop in H. destruct H as [Ha H].
  apply negb_true_iff, Z.eqb_neq in Ha. now split.
Qed.

Lemma skip_space_clean (inp : string) (c : Z) :
  clean c inp -> clean (fst (skip_space inp c)) (snd (skip_space inp c)).
Proof.
  revert c. induction inp as [|a inp IH]; intros c Hc; simpl.
  - destruct (isspace c); [now apply clean_EOF | exact Hc].
  - destruct (isspace c); [|exact Hc]. apply IH, clean_cons, Hc.
Qed.

Lemma read_identifier_clean (inp id : string) :
  all (fun x => negb (x =? ord "(")) inp = true ->
  clean (snd (fst (read_identifier inp id))) (snd (read_identifier inp id)).
Proof.
  revert id. induction inp as [|a inp IH]; intros id H; simpl.
  - now apply clean_EOF.
  - apply clean_cons in H. destruct (isalnum (ord a)); [apply IH, H | exact H].
Qed.

Lemma read_number_clean (inp : string) (c : Z) (NumStr : string) :
  all (fun x => negb (x =? ord "(")) inp = true ->
  clean (snd (fst (read_number inp c NumStr)))
        (snd (read_number inp c NumStr)).
Proof.
  revert c NumStr. induction inp as [|a inp IH]; intros c NumStr H; simpl.
  - now apply clean_EOF.
  - apply clean_cons in H.
    destruct (isdigit (ord a) || (ord a =? ord ".")); [apply IH, H | exact H].
Qed.

Lemma skip_comment_clean (inp : string) :
  all (fun x => negb (x =? ord "(")) inp = true ->
  clean (fst (skip_comment inp)) (snd (skip_comment inp)).
Proof.
  induction inp as [|a inp IH]; intros H; simpl.
  - now apply clean_EOF.
  - apply clean_cons in H.
    destruct ((ord a =? 10) || (ord a =? 13)); [exact H | apply IH, H].
Qed.

Lemma gettok_body_clean (self : State -> option (Z * State)) (st : State) :
  (forall a, clean (LastChar a) (stdin a) -> stays_clean a (self a)) ->
  clean (LastChar st) (stdin st) -> stays_clean st (gettok_body self st).
Proof.
  intros Hself Hst. unfold gettok_body.
  pose proof (skip_space_clean (stdin st) (LastChar st) Hst) as Hsp.
  destruct (skip_space (stdin st) (LastChar st)) as [c inp]. simpl in Hsp.
  destruct Hsp as [Hc Hinp].
  destruct (isalpha c).
  { pose proof (read_identifier_clean inp (String (char_of c) "") Hinp) as H.
    destruct (read_identifier inp (String (char_of c) "")) as [[id c'] inp'].
    destruct (String.eqb id "def"); [|destruct (String.eqb id "extern")];
      (split; [discriminate | exact H]). }
  destruct (isdigit c || (c =? ord ".")).
  { pose proof (read_number_clean inp c "" Hinp) as H.
    destruct (read_number inp c "") as [[NumStr c'] inp'].
    destruct (stod NumStr); [|exact I]. split; [discriminate | exact H]. }
  destruct (c =? ord "#").
  { pose proof (skip_comment_clean inp Hinp) as H.
    destruct (skip_comment inp) as [c' inp']. simpl in H.
    destruct (c' =? EOF); simpl.
    - split; [discriminate | exact H].
    - pose proof (Hself (set_LastChar c' (set_stdin inp'
                          (set_LastChar c (set_stdin inp st)))) H) as Hs.
      unfold stays_clean in *. destruct (self _) as [[t b]|]; auto. }
  destruct (c =? EOF).
  { split; [discriminate | now split]. }
  unfold getchar. simpl. destruct inp as [|a inp]; simpl.
  - split; [exact Hc | now apply clean_EOF].
  - split; [exact Hc | now apply clean_cons].
Qed.

Lemma gettok_clean (st : State) :
  clean (LastChar st) (stdin st) -> stays_clean st (gettok st).
Proof.
  unfold gettok. generalize (String.length (stdin st)). intros n. revert st.
  induction n as [|n IH]; intros st Hst; simpl.
  - apply gettok_body_clean; [|exact Hst]. intros; exact I.
  - apply gettok_body_clean; [|exact Hst].
    intros a Ha. specialize (IH a Ha). unfold stays_clean in *.
    destruct (gettok_rec n a) as [[t b]|]; auto.
Qed.

Lemma getNextToken_plain (st : State) (t : Z) (st' : State) :
  plain st -> getNextToken st = Done t st' ->
  plain st' /\ CurTok st' = t /\
  BinopPrecedence st' = BinopPrecedence st.
Proof.
  intros [Hst _]. unfold getNextToken.
  pose proof (gettok_clean st Hst) as H.
  destruct (gettok st) as [[tok st1]|] eqn:E; [|discriminate].
  apply gettok_advances in E. destruct E as (_ & _ & _ & Htab & _).
  intros [= <- <-]. destruct H as [Ht Hc].
  split; [split; [exact Hc | exact Ht] | split; [reflexivity | exact Htab]].
Qed.

Lemma ord_char_of (c : Z) : isascii c = true -> ord (char_of c) = c.
Proof.
  intros H. unfold isascii in H. unfold ord, char_of.
  rewrite Z.mod_small by lia.
  rewrite N_ascii_embedding by lia. lia.
Qed.

Lemma observed_character (c : Z) (st : State) :
  isascii c = true -> observed c st = (c, None, None).
Proof.
  intros H. unfold isascii in H. unfold observed.
  unfold tok_identifier, tok_def, tok_extern, tok_number.
  destruct (Z.eqb_spec c (-4)); [lia|]. destruct (Z.eqb_spec c (-2)); [lia|].
  destruct (Z.eqb_spec c (-3)); [lia|]. destruct (Z.eqb_spec c (-5)); [lia|].
  reflexivity.
Qed.

Lemma lookup_plain (st : State) :
  plain st -> table_inv (BinopPrecedence st) ->
  exists st0,
    GetTokPrecedence st = Done (pending_precedence st) st0 /\
    plain st0 /\ table_inv (BinopPrecedence st0) /\
    pending_precedence st0 = pending_precedence st /\
    CurTok st0 = CurTok st.
Proof.
  intros [[Hc Hin] Htok] Htab.
  destruct (GetTokPrecedence_inv st Htab)
    as (st0 & Heq & Htab0 & E1 & E2 & _ & _ & E5 & _).
  exists st0. split; [exact Heq|].
  unfold plain, clean, pending_precedence. rewrite E1, E2, E5. auto.
Qed.

Lemma reads_app (a b c : State)
    (l1 l2 : list (Z * option string * option double)) :
  reads a l1 b -> reads b l2 c -> reads a (l1 ++ l2) c.
Proof.
  intros H1 H2. induction H1 as [st | st t st1 l st' Htok _ IH
                                    | st p st0 l st' Hlook _ IH]; simpl.
  - exact H2.
  - eapply reads_token; eauto.
  - eapply reads_lookup; eauto.
Qed.

(** Without parentheses a primary expression is one token: a number or a
    variable. *)
Lemma ParsePrimary_plain (fuel : nat) (st : State) (T : ExprAST) (st' : State) :
  plain st -> ParsePrimary fuel st = Done (Some T) st' ->
  plain st' /\ BinopPrecedence st' = BinopPrecedence st /\
  reads st (yield T) st' /\ shaped T /\ (forall p, root_above p T).
Proof.
  intros Hst. destruct fuel as [|fuel]; [discriminate|].
  rewrite ParsePrimary_S. unfold bind, read.
  destruct (Z.eqb_spec (CurTok st) tok_identifier) as [E1|E1].
  { destruct fuel as [|fuel]; [discriminate|].
    rewrite ParseIdentifierExpr_S. unfold bind, read.
    destruct (getNextToken st) as [t st1| |] eqn:Etok; try discriminate.
    destruct (getNextToken_plain st t st1 Hst Etok) as (Hst1 & _ & Htab).
    destruct (Z.eqb_spec (CurTok st1) (ord "(")) as [E|_]; simpl.
    { now destruct Hst1. }
    unfold ret. intros [= <- <-].
    split; [exact Hst1|]. split; [exact Htab|].
    split; [|split; [exact I | intros p; exact I]]. simpl.
    replace (tok_identifier, Some (IdentifierStr st), None)
      with (observed (CurTok st) st) by now rewrite E1.
    eapply reads_token; [exact Etok | apply reads_nil]. }
  destruct (Z.eqb_spec (CurTok st) tok_number) as [E2|E2].
  { unfold ParseNumberExpr, bind, read.
    destruct (getNextToken st) as [t st1| |] eqn:Etok; try discriminate.
    destruct (getNextToken_plain st t st1 Hst Etok) as (Hst1 & _ & Htab).
    unfold ret. intros [= <- <-].
    split; [exact Hst1|]. split; [exact Htab|].
    split; [|split; [exact I | intros p; exact I]]. simpl.
    replace (tok_number, None, Some (NumVal st))
      with (observed (CurTok st) st) by now rewrite E2.
    eapply reads_token; [exact Etok | apply reads_nil]. }
  destruct (Z.eqb_spec (CurTok st) (ord "(")) as [E3|E3].
  { now destruct Hst. }
  discriminate.
Qed.

(** The loop of [ParseBinOpRHS]: the tree it returns extends [LHS] by the
    tokens it consumed, is shaped by precedence, and the token it stops at
    is no operator of precedence [ExprPrec] or more. *)
Lemma ParseBinOpRHS_climbs (fuel : nat) :
  forall (ExprPrec : Z) (LHS : ExprAST) (st : State) (T : ExprAST)
         (st' : State),
    0 <= ExprPrec ->
    plain st -> table_inv (BinopPrecedence st) ->
    shaped LHS -> root_above (pending_precedence st) LHS ->
    ParseBinOpRHS fuel ExprPrec LHS st = Done (Some T) st' ->
    plain st' /\ table_inv (BinopPrecedence st') /\
    shaped T /\ (root_above ExprPrec LHS -> root_above ExprPrec T) /\
    pending_precedence st' < ExprPrec /\
    exists l, reads st l st' /\ yield T = (yield LHS ++ l)%list.
Proof.
  induction fuel as [|fuel IH];
    intros ExprPrec LHS st T st' Hprec Hst Htab HLHS Hroot; [discriminate|].
  rewrite ParseBinOpRHS_S. unfold bind, read.
  destruct (lookup_plain st Hst Htab) as (st0 & Hlook & Hst0 & Htab0 & Hp0 & Hc0).
  rewrite Hlook. set (p := pending_precedence st) in *.
  destruct (Z.ltb_spec p ExprPrec) as [E1|E1].
  { unfold ret. intros [= <- <-]. repeat split; auto; try apply Hst0.
    - lia.
    - exists []. split; [|now rewrite app_nil_r].
      eapply reads_lookup; [exact Hlook | apply reads_nil]. }
  assert (isascii (CurTok st) = true) as Hascii.
  { subst p. unfold pending_precedence in E1.
    destruct (isascii (CurTok st)); [reflexivity | lia]. }
  assert (binds (char_of (CurTok st)) = p) as Hbinds.
  { subst p. unfold binds, pending_precedence.
    now rewrite ord_char_of, Hascii. }
  destruct (getNextToken st0) as [t st1| |] eqn:Etok; try discriminate.
  destruct (getNextToken_plain st0 t st1 Hst0 Etok) as (Hst1 & _ & Htab1).
  destruct (ParsePrimary fuel st1) as [[RHS|] st2| |] eqn:EP; try discriminate.
  destruct (ParsePrimary_plain fuel st1 RHS st2 Hst1 EP)
    as (Hst2 & Htab2 & Hreads & HRHS & Hatom).
  assert (table_inv (BinopPrecedence st2)) as Htab2'.
  { now rewrite Htab2, Htab1. }
  destruct (lookup_plain st2 Hst2 Htab2')
    as (st3 & Hlook2 & Hst3 & Htab3 & Hp3 & Hc3).
  rewrite Hlook2. set (p2 := pending_precedence st2) in *.
  assert (reads st
            ((CurTok st, None, None) :: yield RHS) st3) as Hprefix.
  { eapply reads_lookup; [exact Hlook|].
    rewrite <- (observed_character (CurTok st) st0 Hascii), <- Hc0.
    eapply reads_token; [exact Etok|].
    rewrite <- (app_nil_r (yield RHS)).
    eapply reads_app; [exact Hreads|].
    eapply reads_lookup; [exact Hlook2 | apply reads_nil]. }
  rewrite Hc0.
  destruct (Z.ltb_spec p p2) as [E2|E2].
  - destruct (ParseBinOpRHS fuel (p + 1) RHS st3) as [[R|] st4| |] eqn:ER;
      try discriminate.
    destruct (IH (p + 1) RHS st3 R st4 ltac:(lia) Hst3 Htab3 HRHS (Hatom _) ER)
      as (Hst4 & Htab4 & HR & HRroot & Hp4 & l1 & Hreads1 & Hyield1).
    intros Hloop.
    destruct (IH ExprPrec (BinaryExprAST (char_of (CurTok st)) LHS R) st4 T st'
                Hprec Hst4 Htab4) as (H1 & H2 & H3 & H4 & H5 & l2 & H6 & H7);
      auto.
    { simpl. rewrite Hbinds. auto. }
    { simpl. rewrite Hbinds. lia. }
    repeat split; auto; try apply H1.
    + intros _. apply H4. simpl. rewrite Hbinds. lia.
    + exists (((CurTok st, None, None) :: yield RHS) ++ l1 ++ l2)%list.
      split.
      * eapply reads_app; [exact Hprefix|]. eapply reads_app; eauto.
      * rewrite H7. simpl. rewrite Hyield1, ord_char_of by assumption.
        rewrite <- !app_assoc. simpl. now rewrite <- !app_assoc.
  - unfold ret at 1. intros Hloop.
    destruct (IH ExprPrec (BinaryExprAST (char_of (CurTok st)) LHS RHS) st3 T st'
                Hprec Hst3 Htab3) as (H1 & H2 & H3 & H4 & H5 & l2 & H6 & H7);
      auto.
    { simpl. rewrite Hbinds. auto. }
    { simpl. rewrite Hbinds. lia. }
    repeat split; auto; try apply H1.
    + intros _. apply H4. simpl. rewrite Hbinds. lia.
    + exists (((CurTok st, None, None) :: yield RHS) ++ l2)%list.
      split.
      * eapply reads_app; eauto.
      * rewrite H7. simpl. rewrite ord_char_of by assumption.
        rewrite <- !app_assoc. reflexivity.
Qed.

(** An expression without parentheses: the tree has the tokens consumed as
    its leaves and operators, in order, and is shaped by precedence. *)
Lemma ParseExpression_climbs (fuel : nat) (st : State) (T : ExprAST)
    (st' : State) :
  plain st -> table_inv (BinopPrecedence st) ->
  ParseExpression fuel st = Done (Some T) st' ->
  shaped T /\ reads st (yield T) st' /\ pending_precedence st' < 0.
Proof.
  intros Hst Htab. destruct fuel as [|fuel]; [discriminate|].
  rewrite ParseExpression_S. unfold bind.
  destruct (ParsePrimary fuel st) as [[LHS|] st1| |] eqn:EP; try discriminate.
  destruct (ParsePrimary_plain fuel st LHS st1 Hst EP)
    as (Hst1 & Htab1 & Hreads & HLHS & Hatom).
  intros H.
  destruct (ParseBinOpRHS_climbs fuel 0 LHS st1 T st' ltac:(lia) Hst1
              ltac:(now rewrite Htab1) HLHS (Hatom _) H)
    as (_ & _ & HT & _ & Hp & l & Hl & Hyield).
  split; [exact HT|]. split; [|exact Hp].
  rewrite Hyield. eapply reads_app; eauto.
Qed.

(** [main] starts in a state whose precedence table is the initialiser, and
    on input without '(' the first token leaves a state without it. *)
Lemma first_token_plain (s : string) (t : Z) (st : State) :
  all (fun x => negb (x =? ord "(")) s = true ->
  getNextToken (initial s) = Done t st ->
  plain st /\ table_inv (BinopPrecedence st).
Proof.
  intros Hs Htok.
  assert (plain (initial s)) as Hinit.
  { repeat split; [discriminate | exact Hs | discriminate]. }
  destruct (getNextToken_plain (initial s) t st Hinit Htok) as (H & _ & Htab).
  split; [exact H|]. rewrite Htab. apply table_inv_init.
Qed.

End Climbing.

(** ** Precedence climbing, with parentheses and calls *)

Section Phrases.
Context `{FP : Floating}.

Lemma precedence_of_positive (e : option Z) :
  0 <= precedence_of e -> 0 < precedence_of e.
Proof.
  unfold precedence_of. destruct e as [v|]; [|lia].
  destruct (Z.leb_spec v 0); lia.
Qed.

Lemma operand_headed (p : Z) (S : phrase) : operand S -> headed p S.
Proof. destruct S; simpl; tauto. Qed.

Lemma getNextToken_reads (st : State) (t : Z) (st1 : State) :
  table_inv (BinopPrecedence st) -> getNextToken st = Done t st1 ->
  table_inv (BinopPrecedence st1) /\ CurTok st1 = t /\
  reads st [observed (CurTok st) st] st1.
Proof.
  intros Htab E. pose proof (getNextToken_spec st) as H. rewrite E in H.
  destruct H as (Hc & _ & _ & _ & Hb).
  split; [now rewrite Hb|]. split; [exact Hc|].
  eapply reads_token; [exact E | apply reads_nil].
Qed.

Lemma lookup_reads (st : State) :
  table_inv (BinopPrecedence st) ->
  exists st0,
    GetTokPrecedence st = Done (pending_precedence st) st0 /\
    table_inv (BinopPrecedence st0) /\
    pending_precedence st0 = pending_precedence st /\
    CurTok st0 = CurTok st /\
    observed (CurTok st0) st0 = observed (CurTok st) st.
Proof.
  intros Htab.
  destruct (GetTokPrecedence_inv st Htab)
    as (st0 & Heq & Htab0 & _ & _ & E3 & E4 & E5 & _).
  exists st0. split; [exact Heq|]. split; [exact Htab0|].
  unfold pending_precedence, observed. rewrite E3, E4, E5. auto.
Qed.

(** Each parsing function, when it returns a node, has read a phrase of
    which the node is the tree. *)
Lemma parser_climbs (fuel : nat) :
  (forall st T st',
     table_inv (BinopPrecedence st) ->
     ParseExpression fuel st = Done (Some T) st' ->
     table_inv (BinopPrecedence st') /\ exists S, parsed st T st' S) /\
  (forall st T st',
     table_inv (BinopPrecedence st) ->
     ParsePrimary fuel st = Done (Some T) st' ->
     table_inv (BinopPrecedence st') /\
     exists S, parsed st T st' S /\ operand S) /\
  (forall st T st',
     table_inv (BinopPrecedence st) -> CurTok st = ord "(" ->
     ParseParenExpr fuel st = Done (Some T) st' ->
     table_inv (BinopPrecedence st') /\
     exists S, parsed st T st' S /\ operand S) /\
  (forall st T st',
     table_inv (BinopPrecedence st) -> CurTok st = tok_identifier ->
     ParseIdentifierExpr fuel st = Done (Some T) st' ->
     table_inv (BinopPrecedence st') /\
     exists S, parsed st T st' S /\ operand S) /\
  (forall Args st l st',
     table_inv (BinopPrecedence st) ->
     ParseArguments fuel Args st = Done (Some l) st' ->
     table_inv (BinopPrecedence st') /\ CurTok st' = ord ")" /\
     exists Ss,
       Ss <> [] /\ l = (Args ++ map tree Ss)%list /\ Forall climbed Ss /\
       reads st (separated (ord ",", None, None) (map spelling Ss)) st') /\
  (forall ExprPrec SL st T st',
     0 <= ExprPrec -> table_inv (BinopPrecedence st) ->
     climbed SL -> headed (pending_precedence st) SL ->
     ParseBinOpRHS fuel ExprPrec (tree SL) st = Done (Some T) st' ->
     table_inv (BinopPrecedence st') /\
     pending_precedence st' < ExprPrec /\
     exists S l,
       tree S = T /\ climbed S /\
       (headed ExprPrec SL -> headed ExprPrec S) /\
       reads st l st' /\ spelling S = (spelling SL ++ l)%list).
Proof.
  induction fuel as [|fuel (IHE & IHP & IHPa & IHI & IHA & IHR)].
  { repeat split; intros; discriminate. }
  split; [|split; [|split; [|split; [|split]]]].
  - intros st T st' Htab. rewrite ParseExpression_S. unfold bind.
    destruct (ParsePrimary fuel st) as [[LHS|] st1| |] eqn:EP; try discriminate.
    destruct (IHP st LHS st1 Htab EP) as (Htab1 & S0 & (HT0 & HS0 & Hr0) & Hop).
    subst LHS. intros H.
    destruct (IHR 0 S0 st1 T st' ltac:(lia) Htab1 HS0
                (operand_headed _ _ Hop) H)
      as (Htab' & _ & S & l & HT & HS & _ & Hl & Hsp).
    split; [exact Htab'|]. exists S. split; [exact HT|]. split; [exact HS|].
    rewrite Hsp. eapply reads_app; eauto.
  - intros st T st' Htab. rewrite ParsePrimary_S. unfold bind, read.
    destruct (Z.eqb_spec (CurTok st) tok_identifier) as [E1|E1].
    { intros H. exact (IHI st T st' Htab E1 H). }
    destruct (Z.eqb_spec (CurTok st) tok_number) as [E2|E2].
    { unfold ParseNumberExpr, bind, read.
      destruct (getNextToken st) as [t st1| |] eqn:Etok; try discriminate.
      destruct (getNextToken_reads st t st1 Htab Etok) as (Htab1 & _ & Hr).
      unfold ret. intros [= <- <-]. split; [exact Htab1|].
      exists (Constant (NumVal st)). split; [|exact I].
      split; [reflexivity|]. split; [constructor|].
      rewrite E2 in Hr. exact Hr. }
    destruct (Z.eqb_spec (CurTok st) (ord "(")) as [E3|E3].
    { intros H. exact (IHPa st T st' Htab E3 H). }
    discriminate.
  - intros st T st' Htab Hc. rewrite ParseParenExpr_S. unfold bind, read.
    destruct (getNextToken st) as [t st1| |] eqn:Etok; try discriminate.
    destruct (getNextToken_reads st t st1 Htab Etok) as (Htab1 & _ & Hr).
    rewrite Hc, observed_character in Hr by reflexivity.
    destruct (ParseExpression fuel st1) as [[V|] st2| |] eqn:EE;
      try discriminate.
    destruct (IHE st1 V st2 Htab1 EE) as (Htab2 & S1 & HT1 & HS1 & Hr1).
    destruct (Z.eqb_spec (CurTok st2) (ord ")")) as [E|E]; simpl;
      [|discriminate].
    destruct (getNextToken st2) as [t' st3| |] eqn:Etok2; try discriminate.
    destruct (getNextToken_reads st2 t' st3 Htab2 Etok2) as (Htab3 & _ & Hr2).
    rewrite E, observed_character in Hr2 by reflexivity.
    unfold ret. intros [= <- <-]. split; [exact Htab3|].
    exists (Bracketed S1). split; [|exact I].
    split; [exact HT1|]. split; [now constructor|].
    exact (reads_app _ _ _ [_] _ Hr (reads_app _ _ _ _ _ Hr1 Hr2)).
  - intros st T st' Htab Hc. rewrite ParseIdentifierExpr_S.
    unfold bind, read.
    destruct (getNextToken st) as [t st1| |] eqn:Etok; try discriminate.
    destruct (getNextToken_reads st t st1 Htab Etok) as (Htab1 & _ & Hr).
    rewrite Hc in Hr.
    destruct (Z.eqb_spec (CurTok st1) (ord "(")) as [E|E]; simpl.
    2: { unfold ret. intros [= <- <-]. split; [exact Htab1|].
         exists (Reference (IdentifierStr st)). split; [|exact I].
         split; [reflexivity|]. split; [constructor | exact Hr]. }
    destruct (getNextToken st1) as [t2 st2| |] eqn:Etok1; try discriminate.
    destruct (getNextToken_reads st1 t2 st2 Htab1 Etok1) as (Htab2 & _ & Hr1).
    rewrite E, observed_character in Hr1 by reflexivity.
    assert (forall l st3,
              (if negb (CurTok st2 =? ord ")") then ParseArguments fuel []
               else ret (Some [])) st2 = Done (Some l) st3 ->
              table_inv (BinopPrecedence st3) /\ CurTok st3 = ord ")" /\
              exists Ss,
                l = map tree Ss /\ Forall climbed Ss /\
                reads st2 (separated (ord ",", None, None) (map spelling Ss))
                  st3) as HA.
    { intros l st3.
      destruct (Z.eqb_spec (CurTok st2) (ord ")")) as [E2|E2]; simpl.
      - unfold ret. intros [= <- <-]. split; [exact Htab2|].
        split; [exact E2|]. exists []. split; [reflexivity|].
        split; [constructor | apply reads_nil].
      - intros H.
        destruct (IHA [] st2 l st3 Htab2 H)
          as (H1 & H2 & Ss & _ & H3 & H4 & H5).
        split; [exact H1|]. split; [exact H2|]. exists Ss. now split. }
    destruct ((if negb (CurTok st2 =? ord ")") then ParseArguments fuel []
               else ret (Some [])) st2) as [[l|] st3| |] eqn:EA;
      try discriminate.
    destruct (HA l st3 eq_refl) as (Htab3 & Hc3 & Ss & HL & HSs & Hrs).
    destruct (getNextToken st3) as [t4 st4| |] eqn:Etok3; try discriminate.
    destruct (getNextToken_reads st3 t4 st4 Htab3 Etok3) as (Htab4 & _ & Hr3).
    rewrite Hc3, observed_character in Hr3 by reflexivity.
    unfold ret. intros [= <- <-]. split; [exact Htab4|].
    exists (Invocation (IdentifierStr st) Ss). split; [|exact I].
    split; [simpl; now rewrite HL|]. split; [now constructor|].
    exact (reads_app _ _ _ [_] _ Hr
             (reads_app _ _ _ [_] _ Hr1 (reads_app _ _ _ _ _ Hrs Hr3))).
  - intros Args st l st' Htab. rewrite ParseArguments_S. unfold bind, read.
    destruct (ParseExpression fuel st) as [[Arg|] st1| |] eqn:EE;
      try discriminate.
    destruct (IHE st Arg st1 Htab EE) as (Htab1 & S1 & HT1 & HS1 & Hr1).
    destruct (Z.eqb_spec (CurTok st1) (ord ")")) as [E|E].
    { unfold ret. intros [= <- <-]. split; [exact Htab1|].
      split; [exact E|]. exists [S1]. split; [discriminate|].
      split; [simpl; now rewrite HT1|]. split; [now constructor | exact Hr1]. }
    destruct (Z.eqb_spec (CurTok st1) (ord ",")) as [E2|E2]; simpl;
      [|discriminate].
    destruct (getNextToken st1) as [t2 st2| |] eqn:Etok; try discriminate.
    destruct (getNextToken_reads st1 t2 st2 Htab1 Etok) as (Htab2 & _ & Hr2).
    rewrite E2, observed_character in Hr2 by reflexivity.
    intros H.
    destruct (IHA (Args ++ [Arg])%list st2 l st' Htab2 H)
      as (Htab' & Hc & Ss & Hne & HL & HSs & Hrs).
    split; [exact Htab'|]. split; [exact Hc|]. exists (S1 :: Ss).
    split; [discriminate|].
    split; [simpl; rewrite HL, HT1, <- app_assoc; reflexivity|].
    split; [now constructor|].
    destruct Ss as [|S2 Ss]; [contradiction|].
    exact (reads_app _ _ _ _ _ Hr1 (reads_app _ _ _ [_] _ Hr2 Hrs)).
  - intros ExprPrec SL st T st' Hprec Htab HSL Hhead.
    rewrite ParseBinOpRHS_S. unfold bind, read.
    destruct (lookup_reads st Htab) as (st0 & Hlook & Htab0 & Hp0 & Hc0 & Ho0).
    rewrite Hlook. set (p := pending_precedence st) in *.
    destruct (Z.ltb_spec p ExprPrec) as [E1|E1].
    { unfold ret. intros [= <- <-]. split; [exact Htab0|].
      split; [lia|]. exists SL, []. split; [reflexivity|].
      split; [exact HSL|]. split; [tauto|].
      split; [|now rewrite app_nil_r].
      eapply reads_lookup; [exact Hlook | apply reads_nil]. }
    assert (isascii (CurTok st) = true) as Hascii.
    { subst p. unfold pending_precedence in E1.
      destruct (isascii (CurTok st)); [reflexivity | lia]. }
    assert (binds (char_of (CurTok st)) = p) as Hbinds.
    { subst p. unfold binds, pending_precedence.
      now rewrite ord_char_of, Hascii. }
    assert (0 < p) as Hpos.
    { subst p. unfold pending_precedence in *. rewrite Hascii in *.
      apply precedence_of_positive. lia. }
    destruct (getNextToken st0) as [t st1| |] eqn:Etok; try discriminate.
    destruct (getNextToken_reads st0 t st1 Htab0 Etok) as (Htab1 & _ & Hr).
    rewrite Ho0, observed_character in Hr by exact Hascii.
    destruct (ParsePrimary fuel st1) as [[RHS|] st2| |] eqn:EP;
      try discriminate.
    destruct (IHP st1 RHS st2 Htab1 EP)
      as (Htab2 & SR & (HTR & HSR & Hreads) & Hop).
    subst RHS.
    destruct (lookup_reads st2 Htab2)
      as (st3 & Hlook2 & Htab3 & Hp3 & Hc3 & _).
    rewrite Hlook2. set (p2 := pending_precedence st2) in *.
    assert (reads st ((CurTok st, None, None) :: spelling SR) st3) as Hprefix.
    { eapply reads_lookup; [exact Hlook|].
      apply (reads_app _ _ _ [_] _ Hr).
      rewrite <- (app_nil_r (spelling SR)).
      eapply reads_app; [exact Hreads|].
      eapply reads_lookup; [exact Hlook2 | apply reads_nil]. }
    rewrite Hc0.
    destruct (Z.ltb_spec p p2) as [E2|E2].
    + destruct (ParseBinOpRHS fuel (p + 1) (tree SR) st3)
        as [[R|] st4| |] eqn:ER; try discriminate.
      destruct (IHR (p + 1) SR st3 R st4 ltac:(lia) Htab3 HSR
                  (operand_headed _ _ Hop) ER)
        as (Htab4 & Hp4 & SR' & l1 & HTR' & HSR' & Hhead' & Hreads1 & Hsp1).
      subst R. intros Hloop.
      destruct (IHR ExprPrec (Operation (char_of (CurTok st)) SL SR') st4 T st'
                  Hprec Htab4)
        as (H1 & H2 & S & l2 & H3 & H4 & H5 & H6 & H7); auto.
      { constructor; rewrite ?Hbinds; auto.
        apply Hhead', operand_headed, Hop. }
      { simpl. rewrite Hbinds. lia. }
      split; [exact H1|]. split; [exact H2|].
      exists S, (((CurTok st, None, None) :: spelling SR) ++ l1 ++ l2)%list.
      split; [exact H3|]. split; [exact H4|].
      split; [intros _; apply H5; simpl; rewrite Hbinds; lia|].
      split.
      * eapply reads_app; [exact Hprefix|]. eapply reads_app; eauto.
      * rewrite H7. simpl. rewrite Hsp1, ord_char_of by assumption.
        rewrite <- !app_assoc. simpl. now rewrite <- !app_assoc.
    + unfold ret at 1. intros Hloop.
      destruct (IHR ExprPrec (Operation (char_of (CurTok st)) SL SR) st3 T st'
                  Hprec Htab3)
        as (H1 & H2 & S & l2 & H3 & H4 & H5 & H6 & H7); auto.
      { constructor; rewrite ?Hbinds; auto.
        apply operand_headed, Hop. }
      { simpl. rewrite Hbinds. lia. }
      split; [exact H1|]. split; [exact H2|].
      exists S, (((CurTok st, None, None) :: spelling SR) ++ l2)%list.
      split; [exact H3|]. split; [exact H4|].
      split; [intros _; apply H5; simpl; rewrite Hbinds; lia|].
      split.
      * eapply reads_app; eauto.
      * rewrite H7. simpl. rewrite ord_char_of by assumption.
        rewrite <- !app_assoc. reflexivity.
Qed.

(** In every state, an expression that is parsed is a phrase grouped by
    precedence whose tokens are those consumed. *)
Lemma ParseExpression_phrase (fuel : nat) (st : State) (T : ExprAST)
    (st' : State) :
  table_inv (BinopPrecedence st) ->
  ParseExpression fuel st = Done (Some T) st' ->
  exists S, tree S = T /\ climbed S /\ reads st (spelling S) st'.
Proof.
  intros Htab H.
  destruct (parser_climbs fuel) as (HE & _).
  destruct (HE st T st' Htab H) as (_ & S & HS). exists S. exact HS.
Qed.

End Phrases.

(** ** Runs on given inputs *)

Section Runs.

(** A conversion that is known on some texts can be computed on them. *)
Lemma override_eq {D} (tbl : list (string * D)) (f : string -> option D) :
  Forall (fun kv => f (fst kv) = Some (snd kv)) tbl -> f = override tbl f.
Proof.
  intros H. apply functional_extensionality. intros s.
  induction H as [|[k v] tbl Hkv _ IH]; simpl; [reflexivity|].
  destruct (String.eqb_spec s k) as [-> |]; [exact Hkv | exact IH].
Qed.

End Runs.

(** After [destruct FP as [D z f]]: compute with the conversion [f] on the
    texts of [tbl], for which hypotheses give its value. *)
Ltac known f tbl :=
  rewrite (override_eq tbl f) by (repeat constructor; assumption).


(** C7: when the expression at the current token parses, the top-level
    expression is the function whose prototype has the empty name and no
    parameters and whose body is that expression; so for the input "1+1". *)
Theorem ParseTopLevelExpr_anonymous `{FP : Floating} (v : double) :
  stod "1" = Some v ->
  (forall fuel st E st',
     ParseExpression fuel st = Done (Some E) st' ->
     ParseTopLevelExpr fuel st =
       Done (Some {| Proto := {| Name := ""; Args := [] |}; Body := E |}) st')
  /\
  value (run ParseTopLevelExpr "1+1") =
    Some (Some {| Proto := {| Name := ""; Args := [] |};
                  Body := BinaryExprAST "+" (NumberExprAST v)
                            (NumberExprAST v) |}).
Proof.
  intros Hv. split.
  - intros fuel st E st' H. unfold ParseTopLevelExpr, bind. now rewrite H.
  - clear -Hv. destruct FP as [D z f]. simpl in *.
    known f [("1", v)]. vm_compute. reflexivity.
Qed.

(** A lookup of a character that is not in the table does insert it. *)
Example lookup_inserts :
  BinopPrecedence
    (snd (lookups [ord "a"] (initial (FP := Decimal.floating) "")))
    !! ord "a" = Some 0.
Proof. vm_compute. reflexivity. Qed.

Lemma operator_cases (op : ascii) (p : Z) :
  BinopPrecedence_init !! ord op = Some p ->
  (op, p) = ("<"%char, 10) \/ (op, p) = ("+"%char, 20) \/
  (op, p) = ("-"%char, 20) \/ (op, p) = ("*"%char, 40) \/
  (op, p) = ("/"%char, 40).
Proof.
  rewrite BinopPrecedence_init_lookup.
  destruct (Z.eqb_spec (ord op) (ord "<")) as [E|_].
  { apply (ord_inj op "<") in E. intros [= <-]. subst. tauto. }
  destruct (Z.eqb_spec (ord op) (ord "+")) as [E|_].
  { apply (ord_inj op "+") in E. intros [= <-]. subst. tauto. }
  destruct (Z.eqb_spec (ord op) (ord "-")) as [E|_].
  { apply (ord_inj op "-") in E. intros [= <-]. subst. tauto. }
  destruct (Z.eqb_spec (ord op) (ord "*")) as [E|_].
  { apply (ord_inj op "*") in E. intros [= <-]. subst. tauto. }
  destruct (Z.eqb_spec (ord op) (ord "/")) as [E|_].
  { apply (ord_inj op "/") in E. intros [= <-]. subst. tauto. }
  discriminate.
Qed.

(** ** Every expression is parsed *)

Section Complete.
Context `{FP : Floating}.

Lemma upcoming_frame (l : list (Z * option string * option double)) :
  forall st1 st2,
    same_source st1 st2 -> -1 <= LastChar st1 ->
    upcoming l st1 -> upcoming l st2.
Proof.
  induction l as [|tok l IH]; intros st1 st2 Hs Hlow Hup; simpl in *; auto.
  pose proof (gettok_frame st1 st2 Hs Hlow) as Hag. unfold agree in Hag.
  destruct (gettok st1) as [[t1 s1]|]; [|contradiction].
  destruct (gettok st2) as [[t2 s2]|]; [|contradiction].
  destruct Hag as (Ho & Hs' & Hl). destruct Hup as [E U].
  split; [congruence|]. eapply IH; eauto.
Qed.

Lemma upcoming_tokens (n : nat) :
  forall st, upcoming (tokens n st) st.
Proof.
  induction n as [|n IH]; intros st; simpl; [exact I|].
  destruct (gettok st) as [[t st1]|] eqn:E; simpl; [|exact I].
  rewrite E. split; [reflexivity|].
  destruct (t =? tok_eof); [exact I | apply IH].
Qed.

Lemma at_tokens_next (st : State) (tok tok' : Z * option string * option double)
    (l : list (Z * option string * option double)) :
  at_tokens st (tok :: tok' :: l) -> table_inv (BinopPrecedence st) ->
  exists st1,
    getNextToken st = Done (fst (fst tok')) st1 /\
    at_tokens st1 (tok' :: l) /\ table_inv (BinopPrecedence st1).
Proof.
  intros (Hlow & _ & Hup) Htab. simpl in Hup. unfold getNextToken.
  pose proof (gettok_frame st st (conj eq_refl eq_refl) Hlow) as Hag.
  unfold agree in Hag.
  destruct (gettok st) as [[t s1]|] eqn:E; [|contradiction].
  destruct Hag as (_ & _ & Hlow1). destruct Hup as [Ho Hup].
  apply gettok_advances in E. destruct E as (_ & _ & _ & Hb & _).
  exists (set_CurTok t s1). subst tok'. split; [reflexivity|].
  split; [|simpl; now rewrite Hb].
  split; [exact Hlow1|]. split; [reflexivity|].
  apply (upcoming_frame l s1); [now split | exact Hlow1 | exact Hup].
Qed.

Lemma at_tokens_lookup (st : State)
    (l : list (Z * option string * option double)) :
  at_tokens st l -> table_inv (BinopPrecedence st) ->
  exists st0,
    GetTokPrecedence st = Done (pending_precedence st) st0 /\
    at_tokens st0 l /\ table_inv (BinopPrecedence st0) /\
    CurTok st0 = CurTok st.
Proof.
  intros (Hlow & Hl) Htab.
  destruct (GetTokPrecedence_inv st Htab)
    as (st0 & Heq & Htab0 & E1 & E2 & E3 & E4 & E5 & _).
  exists st0. split; [exact Heq|]. split; [|now split].
  split; [now rewrite E2|].
  destruct l as [|tok l]; [exact I|]. destruct Hl as [Ho Hup]. split.
  - unfold observed in *. now rewrite E3, E4, E5.
  - apply (upcoming_frame l st); [now split | exact Hlow | exact Hup].
Qed.

Lemma at_tokens_step (st : State) (tok0 tok : Z * option string * option double)
    (X rest : list (Z * option string * option double)) :
  at_tokens st (tok0 :: X ++ tok :: rest) -> table_inv (BinopPrecedence st) ->
  exists t st1,
    getNextToken st = Done t st1 /\
    at_tokens st1 (X ++ tok :: rest) /\ table_inv (BinopPrecedence st1).
Proof.
  intros Hat Htab.
  destruct (X ++ tok :: rest)%list as [|tok' l] eqn:E;
    [destruct X; discriminate|].
  destruct (at_tokens_next st tok0 tok' l Hat Htab) as (st1 & H).
  eauto.
Qed.

Lemma at_tokens_number (st : State) (v : double)
    (l : list (Z * option string * option double)) :
  at_tokens st ((tok_number, None, Some v) :: l) ->
  CurTok st = tok_number /\ NumVal st = v.
Proof.
  intros (_ & Ho & _). unfold observed in Ho. injection Ho as Hc _ Hv.
  rewrite Hc in Hv. simpl in Hv. split; congruence.
Qed.

Lemma at_tokens_identifier (st : State) (name : string)
    (l : list (Z * option string * option double)) :
  at_tokens st ((tok_identifier, Some name, None) :: l) ->
  CurTok st = tok_identifier /\ IdentifierStr st = name.
Proof.
  intros (_ & Ho & _). unfold observed in Ho. injection Ho as Hc Hid _.
  rewrite Hc in Hid. simpl in Hid. split; congruence.
Qed.

Lemma at_tokens_current (st : State) (tok : Z * option string * option double)
    (l : list (Z * option string * option double)) :
  at_tokens st (tok :: l) ->
  CurTok st = fst (fst tok) /\ pending_precedence st = token_precedence tok.
Proof.
  intros (_ & Ho & _). subst tok. now split.
Qed.

(** *** More fuel *)

Lemma parser_more (fuel fuel' : nat) :
  (fuel <= fuel')%nat ->
  (forall st r st',
     ParseExpression fuel st = Done r st' ->
     ParseExpression fuel' st = Done r st') /\
  (forall st r st',
     ParsePrimary fuel st = Done r st' ->
     ParsePrimary fuel' st = Done r st') /\
  (forall Args st r st',
     ParseArguments fuel Args st = Done r st' ->
     ParseArguments fuel' Args st = Done r st') /\
  (forall ExprPrec LHS st r st',
     ParseBinOpRHS fuel ExprPrec LHS st = Done r st' ->
     ParseBinOpRHS fuel' ExprPrec LHS st = Done r st').
Proof.
  induction 1 as [|fuel' _ (IHE & IHP & IHA & IHR)].
  - repeat split; auto.
  - destruct (parser_fuel_S fuel') as (HE & HP & _ & _ & HA & HR).
    repeat split; intros.
    + rewrite HE; [now apply IHE | erewrite IHE by eassumption; discriminate].
    + rewrite HP; [now apply IHP | erewrite IHP by eassumption; discriminate].
    + rewrite HA; [now apply IHA | erewrite IHA by eassumption; discriminate].
    + rewrite HR; [now apply IHR | erewrite IHR by eassumption; discriminate].
Qed.

(** *** A phrase as operand and trail *)

Lemma size_positive (e : phrase) : (0 < size e)%nat.
Proof. destruct e; simpl; lia. Qed.

Lemma operand_leftmost (e : phrase) : operand (leftmost e).
Proof. induction e; simpl; auto. Qed.

Lemma grow_app (e : phrase) (l1 l2 : list (ascii * phrase)) :
  grow e (l1 ++ l2) = grow (grow e l1) l2.
Proof. unfold grow. apply fold_left_app. Qed.

Lemma grow_trail (e : phrase) : grow (leftmost e) (trail e) = e.
Proof.
  induction e as [| | | |op L IHL R _]; simpl; try reflexivity.
  rewrite grow_app, IHL. reflexivity.
Qed.

Lemma spell_items_app (l1 l2 : list (ascii * phrase)) :
  spell_items (l1 ++ l2) = (spell_items l1 ++ spell_items l2)%list.
Proof.
  induction l1 as [|item l1 IH]; simpl; [reflexivity|].
  now rewrite IH, <- app_assoc.
Qed.

Lemma spelling_trail (e : phrase) :
  spelling e = (spelling (leftmost e) ++ spell_items (trail e))%list.
Proof.
  induction e as [| | | |op L IHL R _]; simpl; rewrite ?app_nil_r; auto.
  rewrite spell_items_app, IHL at 1. simpl.
  now rewrite app_nil_r, <- app_assoc.
Qed.

Lemma items_size_app (l1 l2 : list (ascii * phrase)) :
  items_size (l1 ++ l2) = (items_size l1 + items_size l2)%nat.
Proof. induction l1 as [|item l1 IH]; simpl; [reflexivity | lia]. Qed.

Lemma size_trail (e : phrase) :
  size e = (size (leftmost e) + items_size (trail e))%nat.
Proof.
  induction e as [| | | |op L IHL R _]; simpl; try lia.
  rewrite items_size_app. simpl. lia.
Qed.

Lemma spine_snoc (lo lo' : Z) (items : list (ascii * phrase)) (op : ascii)
    (R : phrase) :
  spine lo' items -> lo <= binds op <= lo' ->
  0 < binds op -> climbed R -> headed (binds op + 1) R ->
  spine lo (items ++ [(op, R)]).
Proof.
  intros Hsp Hlo Hpos HR Hhead.
  induction items as [|item items IH]; simpl in *.
  - repeat split; auto; lia.
  - destruct Hsp as (H1 & H2 & H3 & H4 & H5 & H6).
    repeat split; auto; try lia.
    apply Forall_app. split; [exact H5|]. constructor; [simpl; lia|constructor].
Qed.

Lemma climbed_trail (e : phrase) :
  climbed e -> forall lo, headed lo e ->
  climbed (leftmost e) /\ spine lo (trail e).
Proof.
  induction 1 as [v|name|callee args Hargs|inner Hinner _
                 |op L R Hpos HL IHL HR _ HheadL HheadR];
    intros lo Hhead; simpl.
  - split; [constructor | exact I].
  - split; [constructor | exact I].
  - split; [now constructor | exact I].
  - split; [now constructor | exact I].
  - destruct (IHL (binds op) HheadL) as [H1 H2].
    split; [exact H1|]. simpl in Hhead.
    apply (spine_snoc lo (binds op)); auto. lia.
Qed.

Lemma climbed_headed (e : phrase) : climbed e -> headed 0 e.
Proof. destruct 1; simpl; auto; lia. Qed.

Lemma spelling_head (e : phrase) :
  exists t l,
    spelling e = t :: l /\
    (fst (fst t) = tok_number \/ fst (fst t) = tok_identifier \/
     fst (fst t) = ord "(").
Proof.
  induction e as [| | | |op L IHL R _]; simpl; eauto 6.
  destruct IHL as (t & l & E & H). rewrite E. simpl. eauto.
Qed.

Lemma binds_cases (op : ascii) :
  0 < binds op ->
  op = "<"%char \/ op = "+"%char \/ op = "-"%char \/ op = "*"%char \/
  op = "/"%char.
Proof.
  unfold binds, precedence_of. intros H.
  destruct (BinopPrecedence_init !! ord op) as [p|] eqn:E; [|lia].
  apply operator_cases in E.
  destruct E as [E|[E|[E|[E|E]]]]; injection E as -> _; tauto.
Qed.

Lemma operator_token (op : ascii) :
  0 < binds op ->
  token_precedence (ord op, None, None) = binds op /\
  ord op <> ord "(" /\ isascii (ord op) = true.
Proof.
  intros H. apply binds_cases in H.
  destruct H as [->|[->|[->|[->| ->]]]];
    (split; [reflexivity | split; [discriminate | reflexivity]]).
Qed.

(** The token after a trail is its first operator, or the token that
    follows when the trail is empty. *)
Lemma spell_items_head (lo b : Z) (items : list (ascii * phrase))
    (tok : Z * option string * option double)
    (rest : list (Z * option string * option double)) :
  spine lo items ->
  Forall (fun later => binds (fst later) <= b) items ->
  token_precedence tok <= b -> fst (fst tok) <> ord "(" ->
  exists tokF restF,
    (spell_items items ++ tok :: rest)%list = tokF :: restF /\
    token_precedence tokF <= b /\ fst (fst tokF) <> ord "(" /\
    (items <> [] -> lo <= token_precedence tokF).
Proof.
  intros Hsp Hle Htok Hopen. destruct items as [|item items]; simpl.
  - exists tok, rest. repeat split; auto. contradiction.
  - destruct Hsp as (Hpos & _ & _ & Hlo & _).
    destruct (operator_token _ Hpos) as (Hp & Hne & _).
    inversion Hle as [|? ? Hb _]; subst.
    eexists _, _. split; [reflexivity|]. rewrite Hp. simpl.
    repeat split; auto.
Qed.

Lemma separated_head (Ss : list phrase) :
  Ss <> [] ->
  exists t l,
    separated (ord ",", None, None) (map spelling Ss) = t :: l /\
    (fst (fst t) = tok_number \/ fst (fst t) = tok_identifier \/
     fst (fst t) = ord "(").
Proof.
  destruct Ss as [|e [|e2 Ss]]; [contradiction| |]; intros _;
    destruct (spelling_head e) as (t & l & E & H); simpl; rewrite E; simpl;
    eauto.
Qed.

(** *** The parser succeeds on every phrase *)

(** From a state at the tokens of a phrase that is grouped by precedence,
    followed by a token that ends it, each parsing function returns the
    tree of the phrase, given fuel, and stops at the token that follows. *)
Lemma parser_complete (n : nat) :
  (forall e tok rest st,
     (size e <= n)%nat -> operand e -> climbed e ->
     table_inv (BinopPrecedence st) ->
     at_tokens st (spelling e ++ tok :: rest) ->
     fst (fst tok) <> ord "(" ->
     exists fuel st',
       ParsePrimary fuel st = Done (Some (tree e)) st' /\
       at_tokens st' (tok :: rest) /\ table_inv (BinopPrecedence st')) /\
  (forall items e ExprPrec tok rest st,
     (items_size items <= n)%nat -> 0 <= ExprPrec -> spine ExprPrec items ->
     table_inv (BinopPrecedence st) ->
     at_tokens st (spell_items items ++ tok :: rest) ->
     token_precedence tok < ExprPrec -> fst (fst tok) <> ord "(" ->
     exists fuel st',
       ParseBinOpRHS fuel ExprPrec (tree e) st =
         Done (Some (tree (grow e items))) st' /\
       at_tokens st' (tok :: rest) /\ table_inv (BinopPrecedence st')) /\
  (forall e tok rest st,
     (size e <= n)%nat -> climbed e ->
     table_inv (BinopPrecedence st) ->
     at_tokens st (spelling e ++ tok :: rest) ->
     token_precedence tok < 0 -> fst (fst tok) <> ord "(" ->
     exists fuel st',
       ParseExpression fuel st = Done (Some (tree e)) st' /\
       at_tokens st' (tok :: rest) /\ table_inv (BinopPrecedence st')) /\
  (forall Ss Args rest st,
     Ss <> [] -> (fold_right (fun a k => size a + k)%nat O Ss <= n)%nat ->
     Forall climbed Ss ->
     table_inv (BinopPrecedence st) ->
     at_tokens st (separated (ord ",", None, None) (map spelling Ss) ++
                   (ord ")", None, None) :: rest) ->
     exists fuel st',
       ParseArguments fuel Args st =
         Done (Some (Args ++ map tree Ss)%list) st' /\
       at_tokens st' ((ord ")", None, None) :: rest) /\
       table_inv (BinopPrecedence st')).
Proof.
  induction n as [n IH] using lt_wf_ind.
  assert (forall e tok rest st,
            (size e <= n)%nat -> operand e -> climbed e ->
            table_inv (BinopPrecedence st) ->
            at_tokens st (spelling e ++ tok :: rest) ->
            fst (fst tok) <> ord "(" ->
            exists fuel st',
              ParsePrimary fuel st = Done (Some (tree e)) st' /\
              at_tokens st' (tok :: rest) /\
              table_inv (BinopPrecedence st')) as HP.
  { intros e tok rest st Hsize Hop Hcl Htab Hat Hopen.
    assert (n - 1 < n)%nat as Hn by (pose proof (size_positive e); lia).
    destruct (IH (n - 1)%nat Hn) as (_ & _ & IHE & IHA).
    destruct e as [v|name|callee args|inner|op L R]; simpl in Hsize, Hat.
    - destruct (at_tokens_number _ _ _ Hat) as [Hc Hv].
      destruct (at_tokens_next _ _ _ _ Hat Htab) as (st1 & Etok & Hat1 & Htab1).
      exists 1%nat, st1. rewrite ParsePrimary_S. unfold bind, read. rewrite Hc.
      change (tok_number =? tok_identifier) with false.
      change (tok_number =? tok_number) with true. cbv iota.
      unfold ParseNumberExpr, bind, read. rewrite Etok. unfold ret.
      rewrite Hv. auto.
    - destruct (at_tokens_identifier _ _ _ Hat) as [Hc Hid].
      destruct (at_tokens_next _ _ _ _ Hat Htab) as (st1 & Etok & Hat1 & Htab1).
      destruct (at_tokens_current _ _ _ Hat1) as [Hc1 _].
      exists 2%nat, st1. rewrite ParsePrimary_S. unfold bind, read. rewrite Hc.
      change (tok_identifier =? tok_identifier) with true. cbv iota.
      rewrite ParseIdentifierExpr_S. unfold bind, read. rewrite Etok, Hc1.
      destruct (Z.eqb_spec (fst (fst tok)) (ord "(")); [contradiction|].
      simpl. unfold ret. rewrite Hid. auto.
    - inversion Hcl as [| |? ? Hargs| |]; subst.
      rewrite <- app_assoc in Hat. simpl in Hat.
      destruct (at_tokens_identifier _ _ _ Hat) as [Hc Hid].
      destruct (at_tokens_next _ _ _ _ Hat Htab) as (st1 & Etok & Hat1 & Htab1).
      destruct (at_tokens_current _ _ _ Hat1) as [Hc1 _]. simpl in Hc1.
      destruct (at_tokens_step _ _ _ _ _ Hat1 Htab1)
        as (t2 & st2 & Etok1 & Hat2 & Htab2).
      destruct args as [|a args].
      + simpl in Hat2.
        destruct (at_tokens_current _ _ _ Hat2) as [Hc2 _]. simpl in Hc2.
        destruct (at_tokens_next _ _ _ _ Hat2 Htab2)
          as (st3 & Etok2 & Hat3 & Htab3).
        exists 2%nat, st3. rewrite ParsePrimary_S. unfold bind, read.
        rewrite Hc. change (tok_identifier =? tok_identifier) with true.
        cbv iota. rewrite ParseIdentifierExpr_S. unfold bind, read.
        rewrite Etok, Hc1. change (ord "(" =? ord "(") with true. simpl.
        rewrite Etok1, Hc2. change (ord ")" =? ord ")") with true. simpl.
        unfold ret. rewrite Etok2, Hid. auto.
      + destruct (separated_head (a :: args) ltac:(discriminate))
          as (t & l & Esep & Ht).
        assert (CurTok st2 <> ord ")") as Hc2.
        { rewrite Esep in Hat2.
          destruct (at_tokens_current _ _ _ Hat2) as [Hc2 _]. rewrite Hc2.
          destruct Ht as [-> |[-> | ->]]; discriminate. }
        destruct (IHA (a :: args) [] (tok :: rest) st2 ltac:(discriminate)
                    ltac:(simpl in *; lia) Hargs Htab2 Hat2)
          as (fA & st3 & EA & Hat3 & Htab3).
        destruct (at_tokens_next _ _ _ _ Hat3 Htab3)
          as (st4 & Etok3 & Hat4 & Htab4).
        exists (S (S fA)), st4. rewrite ParsePrimary_S. unfold bind, read.
        rewrite Hc. change (tok_identifier =? tok_identifier) with true.
        cbv iota. rewrite ParseIdentifierExpr_S. unfold bind, read.
        rewrite Etok, Hc1. change (ord "(" =? ord "(") with true. simpl.
        rewrite Etok1.
        destruct (Z.eqb_spec (CurTok st2) (ord ")")); [contradiction|].
        simpl. rewrite EA, Etok3. unfold ret. rewrite Hid. auto.
    - inversion Hcl as [| | |? Hinner|]; subst.
      rewrite <- app_assoc in Hat. simpl in Hat.
      destruct (at_tokens_current _ _ _ Hat) as [Hc _]. simpl in Hc.
      destruct (at_tokens_step _ _ _ _ _ Hat Htab)
        as (t1 & st1 & Etok & Hat1 & Htab1).
      destruct (IHE inner (ord ")", None, None) (tok :: rest) st1
                  ltac:(lia) Hinner Htab1 Hat1 ltac:(reflexivity)
                  ltac:(discriminate))
        as (fE & st2 & EE & Hat2 & Htab2).
      destruct (at_tokens_current _ _ _ Hat2) as [Hc2 _]. simpl in Hc2.
      destruct (at_tokens_next _ _ _ _ Hat2 Htab2)
        as (st3 & Etok2 & Hat3 & Htab3).
      exists (S (S fE)), st3. rewrite ParsePrimary_S. unfold bind, read.
      rewrite Hc. change (ord "(" =? tok_identifier) with false.
      change (ord "(" =? tok_number) with false.
      change (ord "(" =? ord "(") with true. cbv iota.
      rewrite ParseParenExpr_S. unfold bind, read. rewrite Etok, EE, Hc2.
      change (ord ")" =? ord ")") with true. simpl. rewrite Etok2.
      unfold ret. auto.
    - contradiction. }
  assert (forall items e ExprPrec tok rest st,
            (items_size items <= n)%nat -> 0 <= ExprPrec ->
            spine ExprPrec items ->
            table_inv (BinopPrecedence st) ->
            at_tokens st (spell_items items ++ tok :: rest) ->
            token_precedence tok < ExprPrec -> fst (fst tok) <> ord "(" ->
            exists fuel st',
              ParseBinOpRHS fuel ExprPrec (tree e) st =
                Done (Some (tree (grow e items))) st' /\
              at_tokens st' (tok :: rest) /\
              table_inv (BinopPrecedence st')) as HR.
  { intros items e ExprPrec tok rest st Hsize Hprec Hsp Htab Hat Hstop Hopen.
    destruct (at_tokens_lookup st _ Hat Htab)
      as (st0 & Hlook & Hat0 & Htab0 & Hc0).
    destruct (at_tokens_current st
                (hd tok (spell_items items ++ tok :: rest))
                (tl (spell_items items ++ tok :: rest))) as [Hc Hp].
    { destruct items; exact Hat. }
    destruct items as [|[op R] items']; simpl in Hsize, Hsp, Hat0, Hc, Hp.
    - exists 1%nat, st0. rewrite ParseBinOpRHS_S. unfold bind.
      rewrite Hlook, Hp.
      destruct (Z.ltb_spec (token_precedence tok) ExprPrec); [|lia].
      unfold ret. auto.
    - destruct Hsp as (Hpos & HclR & HheadR & Hlo & Hle & Hsp').
      destruct (operator_token op Hpos) as (Hptok & Hnopen & Hascii).
      rewrite Hptok in Hp.
      assert (n - 1 < n)%nat as Hn by lia.
      destruct (IH (n - 1)%nat Hn) as (IHP & IHR & _ & _).
      rewrite <- app_assoc in Hat0.
      destruct (spell_items_head ExprPrec (binds op) items' tok rest Hsp' Hle
                  ltac:(lia) Hopen) as (tokY & restY & EY & HpY & HoY & _).
      rewrite EY in Hat0.
      destruct (at_tokens_step _ _ _ _ _ Hat0 Htab0)
        as (t1 & st1 & Etok & Hat1 & Htab1).
      rewrite (spelling_trail R), <- app_assoc in Hat1.
      destruct (climbed_trail R HclR _ HheadR) as [HclR0 HspR].
      pose proof (size_trail R) as HszR.
      pose proof (grow_trail R) as HgR.
      assert (forall stX,
                table_inv (BinopPrecedence stX) ->
                at_tokens stX (tokY :: restY) ->
                exists fuel st',
                  ParseBinOpRHS fuel ExprPrec
                    (BinaryExprAST op (tree e) (tree R)) stX =
                    Done (Some (tree (grow e ((op, R) :: items')))) st' /\
                  at_tokens st' (tok :: rest) /\
                  table_inv (BinopPrecedence st')) as Hcont.
      { intros stX HtabX HatX. rewrite <- EY in HatX.
        apply (IHR items' (Operation op e R) ExprPrec tok rest stX); auto.
        lia. }
      destruct (trail R) as [|[op' R'] tr'] eqn:Etr.
      + simpl in Hat1, HgR.
        destruct (IHP (leftmost R) tokY restY st1 ltac:(lia)
                    (operand_leftmost R) HclR0 Htab1 Hat1 HoY)
          as (fP & st2 & EP & Hat2 & Htab2).
        destruct (at_tokens_lookup st2 _ Hat2 Htab2)
          as (st3 & Hlook2 & Hat3 & Htab3 & _).
        destruct (at_tokens_current _ _ _ Hat2) as [_ Hp2].
        destruct (Hcont st3 Htab3 Hat3) as (fC & st' & EC & Hat' & Htab').
        exists (S (Nat.max fP fC)), st'.
        destruct (parser_more fP (Nat.max fP fC) ltac:(lia))
          as (_ & MP & _ & _).
        destruct (parser_more fC (Nat.max fP fC) ltac:(lia))
          as (_ & _ & _ & MR).
        rewrite ParseBinOpRHS_S. unfold bind, read. rewrite Hlook, Hp.
        destruct (Z.ltb_spec (binds op) ExprPrec); [lia|].
        rewrite Etok, (MP _ _ _ EP), Hlook2, Hp2.
        destruct (Z.ltb_spec (binds op) (token_precedence tokY)); [lia|].
        unfold ret at 1. rewrite Hc0, Hc, char_of_ord, HgR.
        rewrite (MR _ _ _ _ _ EC). auto.
      + simpl in Hat1. rewrite <- app_assoc in Hat1.
        destruct HspR as (Hpos' & HspR).
        destruct (operator_token op' Hpos') as (Hptok' & Hnopen' & _).
        destruct (IHP (leftmost R) (ord op', None, None) _ st1 ltac:(lia)
                    (operand_leftmost R) HclR0 Htab1 Hat1 Hnopen')
          as (fP & st2 & EP & Hat2 & Htab2).
        destruct (at_tokens_lookup st2 _ Hat2 Htab2)
          as (st3 & Hlook2 & Hat3 & Htab3 & _).
        destruct (at_tokens_current _ _ _ Hat2) as [_ Hp2].
        rewrite Hptok' in Hp2.
        destruct (IHR ((op', R') :: tr') (leftmost R) (binds op + 1) tokY
                    restY st3 ltac:(simpl in *; lia) ltac:(lia)
                    ltac:(split; [exact Hpos' | exact HspR]) Htab3)
          as (fR & st4 & ER & Hat4 & Htab4); auto; try lia.
        { simpl. rewrite <- app_assoc. exact Hat3. }
        rewrite HgR in ER.
        destruct (Hcont st4 Htab4 Hat4) as (fC & st' & EC & Hat' & Htab').
        set (F := Nat.max fP (Nat.max fR fC)).
        exists (S F), st'.
        destruct (parser_more fP F ltac:(lia)) as (_ & MP & _ & _).
        destruct (parser_more fR F ltac:(lia)) as (_ & _ & _ & MR).
        destruct (parser_more fC F ltac:(lia)) as (_ & _ & _ & MC).
        rewrite ParseBinOpRHS_S. unfold bind, read. rewrite Hlook, Hp.
        destruct (Z.ltb_spec (binds op) ExprPrec); [lia|].
        rewrite Etok, (MP _ _ _ EP), Hlook2, Hp2.
        destruct HspR as (_ & _ & Hlo' & _). simpl in Hlo'.
        destruct (Z.ltb_spec (binds op) (binds op')); [|lia].
        rewrite (MR _ _ _ _ _ ER). rewrite Hc0, Hc, char_of_ord.
        rewrite (MC _ _ _ _ _ EC). auto. }
  assert (forall e tok rest st,
            (size e <= n)%nat -> climbed e ->
            table_inv (BinopPrecedence st) ->
            at_tokens st (spelling e ++ tok :: rest) ->
            token_precedence tok < 0 -> fst (fst tok) <> ord "(" ->
            exists fuel st',
              ParseExpression fuel st = Done (Some (tree e)) st' /\
              at_tokens st' (tok :: rest) /\
              table_inv (BinopPrecedence st')) as HE.
  { intros e tok rest st Hsize Hcl Htab Hat Hstop Hopen.
    rewrite (spelling_trail e), <- app_assoc in Hat.
    destruct (climbed_trail e Hcl 0 (climbed_headed e Hcl)) as [Hcl0 Hsp].
    pose proof (size_trail e) as Hsz.
    assert (exists tokF restF,
              (spell_items (trail e) ++ tok :: rest)%list = tokF :: restF /\
              fst (fst tokF) <> ord "(") as (tokF & restF & EF & HoF).
    { destruct (trail e) as [|[op R] tr]; simpl in *; [eauto|].
      destruct Hsp as (Hpos & _).
      destruct (operator_token op Hpos) as (_ & Hne & _).
      eexists _, _. split; [reflexivity | exact Hne]. }
    rewrite EF in Hat.
    destruct (HP (leftmost e) tokF restF st ltac:(lia) (operand_leftmost e)
                Hcl0 Htab Hat HoF) as (fP & st1 & EP & Hat1 & Htab1).
    rewrite <- EF in Hat1.
    destruct (HR (trail e) (leftmost e) 0 tok rest st1 ltac:(lia) ltac:(lia)
                Hsp Htab1 Hat1 Hstop Hopen) as (fR & st' & ER & Hat' & Htab').
    rewrite grow_trail in ER.
    exists (S (Nat.max fP fR)), st'. rewrite ParseExpression_S. unfold bind.
    destruct (parser_more fP (Nat.max fP fR) ltac:(lia)) as (_ & MP & _ & _).
    destruct (parser_more fR (Nat.max fP fR) ltac:(lia)) as (_ & _ & _ & MR).
    rewrite (MP _ _ _ EP), (MR _ _ _ _ _ ER). auto. }
  split; [exact HP|]. split; [exact HR|]. split; [exact HE|].
  intros Ss Args rest st Hne Hsize HSs Htab Hat.
  destruct Ss as [|e Ss']; [contradiction|].
  inversion HSs as [|? ? He HSs']; subst. simpl in Hsize.
  destruct Ss' as [|e2 Ss''].
  - simpl in Hat.
    destruct (HE e (ord ")", None, None) rest st ltac:(lia) He Htab Hat
                ltac:(reflexivity) ltac:(discriminate))
      as (fE & st1 & EE & Hat1 & Htab1).
    destruct (at_tokens_current _ _ _ Hat1) as [Hc1 _]. simpl in Hc1.
    exists (S fE), st1. rewrite ParseArguments_S. unfold bind, read.
    rewrite EE, Hc1. change (ord ")" =? ord ")") with true. cbv iota.
    unfold ret. auto.
  - change (separated (ord ",", None, None) (map spelling (e :: e2 :: Ss'')))
      with (spelling e ++ (ord ",", None, None) ::
            separated (ord ",", None, None) (map spelling (e2 :: Ss'')))%list
      in Hat.
    rewrite <- app_assoc in Hat.
    destruct (HE e (ord ",", None, None)
                (separated (ord ",", None, None) (map spelling (e2 :: Ss'')) ++
                 (ord ")", None, None) :: rest)%list st ltac:(lia) He Htab Hat
                ltac:(reflexivity) ltac:(discriminate))
      as (fE & st1 & EE & Hat1 & Htab1).
    destruct (at_tokens_current _ _ _ Hat1) as [Hc1 _]. simpl in Hc1.
    destruct (at_tokens_step _ _ _ _ _ Hat1 Htab1)
      as (t2 & st2 & Etok & Hat2 & Htab2).
    assert (n - 1 < n)%nat as Hn by (pose proof (size_positive e); lia).
    destruct (IH (n - 1)%nat Hn) as (_ & _ & _ & IHA).
    destruct (IHA (e2 :: Ss'') (Args ++ [tree e])%list rest st2
                ltac:(discriminate)
                ltac:(pose proof (size_positive e); simpl in *; lia)
                HSs' Htab2 Hat2)
      as (fA & st' & EA & Hat' & Htab').
    exists (S (Nat.max fE fA)), st'.
    destruct (parser_more fE (Nat.max fE fA) ltac:(lia)) as (ME & _).
    destruct (parser_more fA (Nat.max fE fA) ltac:(lia)) as (_ & _ & MA & _).
    rewrite ParseArguments_S. unfold bind, read.
    rewrite (ME _ _ _ EE), Hc1.
    change (ord "," =? ord ")") with false.
    change (ord "," =? ord ",") with true. simpl.
    rewrite Etok, (MA _ _ _ _ EA). rewrite <- app_assoc. auto.
Qed.

(** An input whose tokens are those of a phrase grouped by precedence is
    parsed to the tree of the phrase. *)
Lemma ParseExpression_complete (s : string) (e : phrase) :
  climbed e ->
  lex s = (spelling e ++ [(tok_eof, None, None)])%list ->
  value (run ParseExpression s) = Some (Some (tree e)).
Proof.
  intros Hcl Hlex. unfold lex in Hlex.
  replace (String.length s + 2)%nat with (S (String.length s + 1)) in Hlex
    by lia.
  simpl in Hlex.
  destruct (spelling_head e) as (t0 & l0 & Esp & Ht0).
  pose proof (gettok_frame (initial s) (initial s) (conj eq_refl eq_refl)
                ltac:(change (-1 <= 32); lia)) as Hag.
  unfold agree in Hag.
  destruct (gettok (initial s)) as [[t s1]|] eqn:E;
    [|rewrite Esp in Hlex; discriminate].
  destruct Hag as (_ & _ & Hlow).
  rewrite Esp in Hlex. simpl in Hlex. injection Hlex as Ho Hrest.
  assert (t = fst (fst t0)) as Ht by (now subst t0).
  assert ((t =? tok_eof) = false) as Hne.
  { rewrite Ht. destruct Ht0 as [-> |[-> | ->]]; reflexivity. }
  rewrite Hne in Hrest.
  pose proof (upcoming_tokens (String.length s + 1) s1) as Hup.
  rewrite Hrest in Hup.
  pose proof (gettok_advances _ _ _ E) as (_ & _ & _ & Hb & _).
  set (st := set_CurTok t s1).
  assert (at_tokens st (spelling e ++ [(tok_eof, None, None)])) as Hat.
  { rewrite Esp. split; [exact Hlow|]. split; [exact Ho|].
    apply (upcoming_frame _ s1); [now split | exact Hlow | exact Hup]. }
  assert (table_inv (BinopPrecedence st)) as Htab.
  { simpl. rewrite Hb. apply table_inv_init. }
  destruct (parser_complete (size e)) as (_ & _ & HE & _).
  destruct (HE e (tok_eof, None, None) [] st ltac:(lia) Hcl Htab Hat
              ltac:(reflexivity) ltac:(discriminate))
    as (fuel & st' & EE & _).
  unfold run, bind, getNextToken. rewrite E. fold st.
  set (F := Nat.max fuel (enough st)).
  destruct (parser_fuel_le fuel F ltac:(lia)) as [H1 _].
  destruct (parser_fuel_le (enough st) F ltac:(lia)) as [H2 _].
  specialize (H1 st). rewrite EE in H1. specialize (H1 ltac:(discriminate)).
  specialize (H2 st).
  destruct (parser_correct (enough st)) as (HC & _). specialize (HC st).
  unfold correct, within, enough in HC, H2.
  destruct (ParseExpression (4 * remaining st + 5) st) as [r st2| |] eqn:ER.
  - rewrite H2 in H1 by discriminate. injection H1 as -> _.
    unfold enough. now rewrite ER.
  - rewrite H2 in H1 by discriminate. discriminate.
  - exfalso. apply HC. lia.
Qed.

End Complete.

(** C1: binary operators are resolved by precedence, and operators of equal
    precedence group to the left: "1+2*3" is parsed as 1+(2*3), "1-2-3" as
    (1-2)-3, "1<2+3" as 1<(2+3); an operand in parentheses or a call is an
    operand like any other, so "1-(2)-3" is (1-2)-3, "1*(2)+3" is (1*2)+3
    and "1-f(2)-3" is (1-f(2))-3, while "1-(2-3)" and "(1+2)*3" are grouped
    by their parentheses, and the argument of "f(1+2*3)" is 1+(2*3);
    for any two operators of the table, "1 op1 2 op2 3" is parsed as
    1 op1 (2 op2 3) when op2 has strictly greater precedence than op1, and
    as (1 op1 2) op2 3 otherwise.  In general, for every input and in every
    state whose precedence table is as lookups can leave it, the tree of a
    parsed expression is the tree of a phrase whose tokens, parentheses and
    the parentheses and commas of calls included, are exactly the tokens
    consumed, in their order, and in which every operator is one of the
    table, every right operand that is an operation outside parentheses has
    an operator of strictly greater precedence, and every such left operand
    one of greater or equal precedence, also inside parentheses and
    arguments; on input without parentheses the tree itself has the tokens
    consumed as its leaves and operators and is grouped in that way.
    Conversely, every input whose tokens are those of a phrase grouped in
    that way, whatever its operands, is parsed, and to the tree of that
    phrase. *)
Theorem precedence_climbing `{FP : Floating} (v1 v2 v3 : double) :
  stod "1" = Some v1 -> stod "2" = Some v2 -> stod "3" = Some v3 ->
  let n1 := NumberExprAST v1 in
  let n2 := NumberExprAST v2 in
  let n3 := NumberExprAST v3 in
  value (run ParseExpression "1+2*3") =
    Some (Some (BinaryExprAST "+" n1 (BinaryExprAST "*" n2 n3))) /\
  value (run ParseExpression "1-2-3") =
    Some (Some (BinaryExprAST "-" (BinaryExprAST "-" n1 n2) n3)) /\
  value (run ParseExpression "1<2+3") =
    Some (Some (BinaryExprAST "<" n1 (BinaryExprAST "+" n2 n3))) /\
  value (run ParseExpression "1-(2)-3") =
    Some (Some (BinaryExprAST "-" (BinaryExprAST "-" n1 n2) n3)) /\
  value (run ParseExpression "1*(2)+3") =
    Some (Some (BinaryExprAST "+" (BinaryExprAST "*" n1 n2) n3)) /\
  value (run ParseExpression "1-f(2)-3") =
    Some (Some (BinaryExprAST "-"
                  (BinaryExprAST "-" n1 (CallExprAST "f" [n2])) n3)) /\
  value (run ParseExpression "1-(2-3)") =
    Some (Some (BinaryExprAST "-" n1 (BinaryExprAST "-" n2 n3))) /\
  value (run ParseExpression "(1+2)*3") =
    Some (Some (BinaryExprAST "*" (BinaryExprAST "+" n1 n2) n3)) /\
  value (run ParseExpression "f(1+2*3)") =
    Some (Some (CallExprAST "f"
                  [BinaryExprAST "+" n1 (BinaryExprAST "*" n2 n3)])) /\
  (forall (op1 op2 : ascii) (p1 p2 : Z),
     BinopPrecedence_init !! ord op1 = Some p1 ->
     BinopPrecedence_init !! ord op2 = Some p2 ->
     value (run ParseExpression
              (String "1" (String op1 (String "2" (String op2 "3"))))) =
       Some (Some (if p1 <? p2
                   then BinaryExprAST op1 n1 (BinaryExprAST op2 n2 n3)
                   else BinaryExprAST op2 (BinaryExprAST op1 n1 n2) n3))) /\
  (forall (s : string) (t : Z) (st : State) (fuel : nat) (T : ExprAST)
          (st' : State),
     getNextToken (initial s) = Done t st ->
     ParseExpression fuel st = Done (Some T) st' ->
     (exists S, tree S = T /\ climbed S /\ reads st (spelling S) st') /\
     (all (fun c => negb (c =? ord "(")) s = true ->
      shaped T /\ reads st (yield T) st')) /\
  (forall (st : State) (fuel : nat) (T : ExprAST) (st' : State),
     table_inv (BinopPrecedence st) ->
     ParseExpression fuel st = Done (Some T) st' ->
     exists S, tree S = T /\ climbed S /\ reads st (spelling S) st') /\
  (forall (s : string) (S : phrase),
     climbed S ->
     lex s = (spelling S ++ [(tok_eof, None, None)])%list ->
     value (run ParseExpression s) = Some (Some (tree S))).
Proof.
  intros H1 H2 H3 n1 n2 n3.
  assert (forall (s : string) (t : Z) (st : State) (fuel : nat) (T : ExprAST)
                 (st' : State),
            getNextToken (initial s) = Done t st ->
            ParseExpression fuel st = Done (Some T) st' ->
            (exists S, tree S = T /\ climbed S /\ reads st (spelling S) st') /\
            (all (fun c => negb (c =? ord "(")) s = true ->
             shaped T /\ reads st (yield T) st')) as General.
  { intros s t st fuel T st' Htok HT. split.
    - destruct (getNextToken_reads (initial s) t st table_inv_init Htok)
        as (Htab & _).
      exact (ParseExpression_phrase fuel st T st' Htab HT).
    - intros Hs.
      destruct (first_token_plain s t st Hs Htok) as [Hst Htab].
      destruct (ParseExpression_climbs fuel st T st' Hst Htab HT)
        as (H & H' & _).
      now split. }
  split; [|split; [|split; [|split; [|split; [|split; [|split; [|split;
    [|split; [|split;
      [|split; [exact General
               |split; [intros st fuel; exact (ParseExpression_phrase fuel st)
                       | exact ParseExpression_complete]]]]]]]]]]]];
    clear General;
    subst n1 n2 n3; revert v1 v2 v3 H1 H2 H3;
    destruct FP as [D z f]; simpl; intros v1 v2 v3 H1 H2 H3;
    known f [("1", v1); ("2", v2); ("3", v3)].
  1-9: vm_compute; reflexivity.
  intros op1 op2 p1 p2 Hop1 Hop2.
  apply operator_cases in Hop1, Hop2.
  destruct Hop1 as [E1|[E1|[E1|[E1|E1]]]]; injection E1 as -> ->;
    destruct Hop2 as [E2|[E2|[E2|[E2|E2]]]]; injection E2 as -> ->;
    vm_compute; reflexivity.
Qed.

Lemma precedence_climbing_witness :
  value (run (FP := Decimal.floating) ParseExpression "1+2*3") =
    Some (Some (BinaryExprAST "+" (NumberExprAST (Decimal.whole 1))
                  (BinaryExprAST "*" (NumberExprAST (Decimal.whole 2))
                     (NumberExprAST (Decimal.whole 3))))) /\
  value (run (FP := Decimal.floating) ParseExpression "(1-f(2,x))*3-y") =
    Some (Some (tree
      (Operation "-"
         (Operation "*"
            (Bracketed
               (Operation "-" (Constant (Decimal.whole 1))
                  (Invocation "f"
                     [Constant (Decimal.whole 2); Reference "x"])))
            (Constant (Decimal.whole 3)))
         (Reference "y")))).
Proof.
  destruct (precedence_climbing (FP := Decimal.floating)
              (Decimal.whole 1) (Decimal.whole 2) (Decimal.whole 3)
              eq_refl eq_refl eq_refl)
    as (H1 & _ & _ & _ & _ & _ & _ & _ & _ & _ & _ & _ & Hall).
  split; [exact H1|]. apply Hall; [|vm_compute; reflexivity].
  repeat first [exact I | reflexivity | vm_compute; discriminate
               | constructor].
Defined.

(** C4: an identifier followed by '(' is parsed as a call of that
    identifier with the arguments in the order in which they are written:
    "foo(1,2,3)" gives a call of foo with three arguments in that order,
    "foo()" a call with none, and on "foo(1,2" at the end of input, where
    the argument is followed by neither ')' nor ',', the parse returns
    [nullptr] after reporting the error of the argument list.  In general,
    whenever [ParseIdentifierExpr] returns a node, it is as
    [identifier_expression] says: a call of the identifier with the
    arguments in the order of parsing when '(' follows it; and after any
    argument a token that is neither ')' nor ',' makes the loop return
    [nullptr] with that error. *)
Theorem call_parsing `{FP : Floating} (v1 v2 v3 : double) :
  stod "1" = Some v1 -> stod "2" = Some v2 -> stod "3" = Some v3 ->
  value (run ParseExpression "foo(1,2,3)") =
    Some (Some (CallExprAST "foo"
                  [NumberExprAST v1; NumberExprAST v2; NumberExprAST v3])) /\
  value (run ParseExpression "foo()") = Some (Some (CallExprAST "foo" [])) /\
  value (run ParseExpression "foo(1,2") = Some None /\
  errors (run ParseExpression "foo(1,2") =
    ["LogError: Expected ')' or ',' in argument list"] /\
  value (run ParseExpression "f(x,g(y),z)") =
    Some (Some (CallExprAST "f"
                  [VariableExprAST "x";
                   CallExprAST "g" [VariableExprAST "y"];
                   VariableExprAST "z"])) /\
  (forall fuel st T st',
     ParseIdentifierExpr fuel st = Done (Some T) st' ->
     identifier_expression st T st') /\
  (forall fuel Args st a st1,
     ParseExpression fuel st = Done (Some a) st1 ->
     CurTok st1 <> ord ")" -> CurTok st1 <> ord "," ->
     ParseArguments (S fuel) Args st =
       Done None
         (set_stderr
            (stderr st1 ++ ["LogError: Expected ')' or ',' in argument list"])
            st1)).
Proof.
  intros H1 H2 H3.
  split; [|split; [|split; [|split; [|split;
    [|split; [exact ParseIdentifierExpr_call
             | exact ParseArguments_separator]]]]]];
    revert v1 v2 v3 H1 H2 H3;
    destruct FP as [D z f]; simpl; intros v1 v2 v3 H1 H2 H3;
    known f [("1", v1); ("2", v2); ("3", v3)];
    vm_compute; reflexivity.
Qed.

Lemma call_parsing_witness :
  value (run (FP := Decimal.floating) ParseExpression "foo(1,2,3)") =
    Some (Some (CallExprAST "foo"
                  [NumberExprAST (Decimal.whole 1); NumberExprAST (Decimal.whole 2);
                   NumberExprAST (Decimal.whole 3)])).
Proof.
  exact (proj1 (call_parsing (FP := Decimal.floating)
                  (Decimal.whole 1) (Decimal.whole 2) (Decimal.whole 3) eq_refl eq_refl eq_refl)).
Defined.


Lemma ParseTopLevelExpr_anonymous_witness :
  value (run (FP := Decimal.floating) ParseTopLevelExpr "1+1") =
    Some (Some {| Proto := {| Name := ""; Args := [] |};
                  Body := BinaryExprAST "+" (NumberExprAST (Decimal.whole 1))
                            (NumberExprAST (Decimal.whole 1)) |}).
Proof.
  exact (proj2 (ParseTopLevelExpr_anonymous (FP := Decimal.floating)
                  (Decimal.whole 1) eq_refl)).
Defined.

Lemma identifier_lexing_witness :
  exists st',
    gettok (initial (FP := Decimal.floating) "foo+1") =
      Some (tok_identifier, st') /\
    IdentifierStr st' = "foo" /\
    LastChar st' = ord "+" /\
    stdin st' = "1".
Proof.
  exact (identifier_lexing (initial (FP := Decimal.floating) "foo+1")
           [Blank " "] "f" "oo" "+1"
           eq_refl eq_refl eq_refl eq_refl eq_refl eq_refl).
Defined.



Lemma lexer_deterministic_witness :
  tokens 5 (initial (FP := Decimal.floating) "a+1") =
  tokens 5 (set_IdentifierStr "zzz"
              (set_CurTok 7 (initial (FP := Decimal.floating) "a+1"))).
Proof.
  apply (lexer_deterministic (FP := Decimal.floating) 5
           (initial "a+1")
           (set_IdentifierStr "zzz" (set_CurTok 7 (initial "a+1"))));
    [reflexivity | reflexivity | change (-1 <= 32); lia].
Defined.

(** * The rest of the program *)

(** ** The lexer: numbers, characters, the end of input *)

Section LexerRest.
Context `{FP : Floating}.

Lemma in_range_ord (a : ascii) : in_range (ord a).
Proof. pose proof (ord_range a). unfold in_range. lia. Qed.

Lemma in_range_EOF : in_range EOF.
Proof. unfold in_range, EOF. lia. Qed.

Lemma skip_space_range (inp : string) (c : Z) :
  in_range c -> in_range (fst (skip_space inp c)).
Proof.
  revert c. induction inp as [|a inp IH]; intros c Hc; simpl.
  - destruct (isspace c); [apply in_range_EOF | exact Hc].
  - destruct (isspace c); [apply IH, in_range_ord | exact Hc].
Qed.

Lemma read_identifier_range (inp id : string) :
  in_range (snd (fst (read_identifier inp id))).
Proof.
  revert id. induction inp as [|a inp IH]; intros id; simpl.
  - apply in_range_EOF.
  - destruct (isalnum (ord a)); [apply IH | apply in_range_ord].
Qed.

Lemma read_number_range (inp : string) (c : Z) (NumStr : string) :
  in_range (snd (fst (read_number inp c NumStr))).
Proof.
  revert c NumStr. induction inp as [|a inp IH]; intros c NumStr; simpl.
  - apply in_range_EOF.
  - destruct (isdigit (ord a) || (ord a =? ord "."));
      [apply IH | apply in_range_ord].
Qed.

Lemma skip_comment_range (inp : string) : in_range (fst (skip_comment inp)).
Proof.
  induction inp as [|a inp IH]; simpl.
  - apply in_range_EOF.
  - destruct ((ord a =? 10) || (ord a =? 13)); [apply in_range_ord | apply IH].
Qed.

(** The identifier read from a letter on is the text of an identifier. *)
Lemma read_identifier_text (inp id : string) :
  identifier_text id = true ->
  identifier_text (fst (fst (read_identifier inp id))) = true.
Proof.
  revert id. induction inp as [|a inp IH]; intros id Hid; simpl; [exact Hid|].
  destruct (isalnum (ord a)) eqn:Ea; [|exact Hid].
  apply IH. rewrite char_of_ord.
  destruct id as [|b w]; [discriminate|]. simpl in *.
  apply andb_prop in Hid. destruct Hid as [Hb Hw]. rewrite Hb. simpl.
  clear -Hw Ea. induction w as [|c w IHw]; simpl in *.
  - now rewrite Ea.
  - apply andb_prop in Hw. destruct Hw as [Hc Hw]. rewrite Hc. now apply IHw.
Qed.

Lemma gettok_body_well_lexed (self : State -> option (Z * State))
    (st : State) :
  (forall a, in_range (LastChar a) -> well_lexed (self a)) ->
  in_range (LastChar st) -> well_lexed (gettok_body self st).
Proof.
  intros Hself Hst. unfold gettok_body.
  pose proof (skip_space_range (stdin st) (LastChar st) Hst) as Hsp.
  pose proof (skip_space_not_space (stdin st) (LastChar st)) as Hns.
  destruct (skip_space (stdin st) (LastChar st)) as [c inp].
  simpl in Hsp, Hns.
  destruct (isalpha c) eqn:Ealpha.
  { pose proof (read_identifier_range inp (String (char_of c) "")) as Hr.
    assert (identifier_text (String (char_of c) "") = true) as Hid0.
    { simpl. rewrite ord_char_of by (unfold isascii, isalpha in *; lia).
      now rewrite Ealpha. }
    pose proof (read_identifier_text inp _ Hid0) as Ht.
    destruct (read_identifier inp (String (char_of c) "")) as [[id c'] inp'].
    simpl in Hr, Ht.
    destruct (String.eqb_spec id "def") as [Ed|Ed];
      [|destruct (String.eqb_spec id "extern") as [Ee|Ee]];
      (split; [exact Hr|]); (split; [unfold token_kind; tauto|]);
      simpl; repeat split; intros; try discriminate; auto. }
  destruct (isdigit c || (c =? ord ".")) eqn:Enum.
  { pose proof (read_number_range inp c "") as Hr.
    destruct (read_number inp c "") as [[NumStr c'] inp']. simpl in Hr.
    destruct (stod NumStr); [|exact I].
    split; [exact Hr|]. split; [unfold token_kind; tauto|].
    repeat split; intros; discriminate. }
  destruct (c =? ord "#") eqn:Ehash.
  { pose proof (skip_comment_range inp) as Hr.
    destruct (skip_comment inp) as [c' inp']. simpl in Hr.
    destruct (Z.eqb_spec c' EOF) as [Ec|Ec]; simpl.
    - split; [exact Hr|]. split; [unfold token_kind; tauto|].
      repeat split; intros; try discriminate; auto.
    - apply Hself. exact Hr. }
  destruct (Z.eqb_spec c EOF) as [Ec|Ec].
  { split; [exact Hsp|]. split; [unfold token_kind; tauto|].
    repeat split; intros; try discriminate; auto. }
  unfold getchar. simpl.
  assert (token_kind c) as Hkind.
  { unfold token_kind. do 5 right. unfold in_range, EOF in *.
    apply orb_false_iff in Enum. destruct Enum as [Ed Edot].
    apply Z.eqb_neq in Edot, Ehash.
    repeat split; try lia; auto.
    unfold isalnum. now rewrite Ealpha, Ed. }
  assert (c <> tok_def /\ c <> tok_extern /\ c <> tok_identifier /\
          c <> tok_eof) as (N1 & N2 & N3 & N4).
  { unfold in_range, EOF, tok_def, tok_extern, tok_identifier, tok_eof in *.
    lia. }
  destruct inp as [|a inp]; simpl;
    (split; [first [apply in_range_EOF | apply in_range_ord]|]);
    (split; [exact Hkind|]); repeat split; intros; congruence.
Qed.

Lemma gettok_well_lexed (st : State) :
  in_range (LastChar st) -> well_lexed (gettok st).
Proof.
  unfold gettok. generalize (String.length (stdin st)). intros n. revert st.
  induction n as [|n IH]; intros st Hst; simpl.
  - apply gettok_body_well_lexed; [|exact Hst]. intros; exact I.
  - apply gettok_body_well_lexed; [|exact Hst]. exact IH.
Qed.

(** X1: every token is of one of the five kinds of [enum Token] or is a
    character that is neither whitespace, nor a letter or digit, nor '.',
    nor '#'; the lookahead stays a character or [EOF]; with [tok_def] and
    [tok_extern] the text is "def" and "extern", and the text of an
    identifier token is a letter followed by letters and digits and is
    neither of the two keywords. *)
Theorem gettok_tokens (st : State) (tok : Z) (st' : State) :
  in_range (LastChar st) -> gettok st = Some (tok, st') ->
  in_range (LastChar st') /\ token_kind tok /\
  (tok = tok_def -> IdentifierStr st' = "def") /\
  (tok = tok_extern -> IdentifierStr st' = "extern") /\
  (tok = tok_identifier ->
   identifier_text (IdentifierStr st') = true /\
   IdentifierStr st' <> "def" /\ IdentifierStr st' <> "extern").
Proof.
  intros Hst H. pose proof (gettok_well_lexed st Hst) as Hw.
  rewrite H in Hw. simpl in Hw. tauto.
Qed.

Lemma gettok_at_EOF (st : State) :
  LastChar st = EOF -> gettok st = Some (tok_eof, st).
Proof.
  intros H. rewrite gettok_unfold. unfold gettok_body.
  rewrite H, skip_space_stop by reflexivity. simpl.
  destruct st. simpl in *. now subst.
Qed.

Lemma gettok_body_eof (self : State -> option (Z * State)) (st : State)
    (st' : State) :
  (forall a b, self a = Some (tok_eof, b) -> LastChar b = EOF) ->
  gettok_body self st = Some (tok_eof, st') -> LastChar st' = EOF.
Proof.
  intros Hself. unfold gettok_body.
  destruct (skip_space (stdin st) (LastChar st)) as [c inp].
  destruct (isalpha c).
  { destruct (read_identifier inp (String (char_of c) "")) as [[id c'] inp'].
    destruct (String.eqb id "def"); [discriminate|].
    destruct (String.eqb id "extern"); discriminate. }
  destruct (isdigit c || (c =? ord ".")).
  { destruct (read_number inp c "") as [[NumStr c'] inp'].
    destruct (stod NumStr); discriminate. }
  destruct (c =? ord "#").
  { destruct (skip_comment inp) as [c' inp'].
    destruct (Z.eqb_spec c' EOF) as [Ec|Ec]; simpl.
    - intros [= <-]. exact Ec.
    - apply Hself. }
  destruct (Z.eqb_spec c EOF) as [Ec|Ec].
  { intros [= <-]. exact Ec. }
  unfold getchar. destruct (stdin _); simpl; intros [= E]; now contradiction Ec.
Qed.

(** X2: the end of input is final.  Once [gettok] has returned [tok_eof],
    every further call returns [tok_eof] again and changes nothing. *)
Theorem gettok_eof_again (st st' : State) :
  gettok st = Some (tok_eof, st') -> gettok st' = Some (tok_eof, st').
Proof.
  intros H. apply gettok_at_EOF. revert H. unfold gettok.
  generalize (String.length (stdin st)). intros n. revert st st'.
  induction n as [|n IH]; intros st st'; simpl.
  - apply gettok_body_eof. discriminate.
  - apply gettok_body_eof. exact IH.
Qed.

(** X3: at a digit or a dot, after any whitespace and comments, the lexer
    takes the maximal run of digits and dots, however many dots it has, and
    converts the whole run with [std::stod]: when the conversion succeeds
    the token is [tok_number] with the value in [NumVal], [IdentifierStr]
    is left alone and the character that ended the run is the lookahead;
    when it throws, so does [gettok]. *)
Theorem number_lexing (st : State) (g : list piece) (a : ascii)
    (w X : string) :
  forallb piece_ok g = true ->
  LastChar st = lookahead (gap_text g ++ String a w ++ X) ->
  stdin st = unread (gap_text g ++ String a w ++ X) ->
  numeric (ord a) = true -> all numeric w = true ->
  numeric (lookahead X) = false ->
  match stod (String a w) with
  | Some v =>
      exists st',
        gettok st = Some (tok_number, st') /\
        NumVal st' = v /\ IdentifierStr st' = IdentifierStr st /\
        LastChar st' = lookahead X /\ stdin st' = unread X
  | None => gettok st = None
  end.
Proof.
  intros Hg Hc Hin Ha Hw HX.
  rewrite (gettok_gap g (String a w ++ X) st) by assumption.
  rewrite (gettok_numeral _ a w X) by auto.
  destruct (stod (String a w)) as [v|]; [|reflexivity].
  eexists. split; [reflexivity|]. repeat split.
Qed.

(** X4: a call of [gettok] leaves the current token, the precedence table
    and standard error alone; it never puts characters back, and a token
    other than [tok_eof] has taken at least one character. *)
Theorem gettok_consumes (st : State) (tok : Z) (st' : State) :
  gettok st = Some (tok, st') ->
  CurTok st' = CurTok st /\
  BinopPrecedence st' = BinopPrecedence st /\
  stderr st' = stderr st /\
  (pending st' <= pending st)%nat /\
  (tok <> tok_eof -> (pending st' < pending st)%nat).
Proof.
  intros H. apply gettok_advances in H. unfold advances in H. tauto.
Qed.

Lemma tokens_stable (n m : nat) (st : State) :
  (pending st < n)%nat -> (pending st < m)%nat ->
  tokens n st = tokens m st /\ (length (tokens n st) <= pending st + 1)%nat.
Proof.
  revert m st. induction n as [|n IH]; intros m st Hn Hm; [lia|].
  destruct m as [|m]; [lia|]. simpl.
  destruct (gettok st) as [[tok st']|] eqn:E; [|simpl; split; [easy | lia]].
  apply gettok_advances in E. destruct E as (Hle & Hlt & _).
  destruct (Z.eqb_spec tok tok_eof) as [Et|Et]; [simpl; split; [easy | lia]|].
  specialize (Hlt Et).
  destruct (IH m st' ltac:(lia) ltac:(lia)) as [IH1 IH2].
  rewrite IH1. split; [reflexivity|]. simpl. rewrite <- IH1. lia.
Qed.

(** X5: lexing terminates.  An input of [n] characters has at most [n + 2]
    tokens, [tok_eof] included, and allowing more calls of [gettok] than
    that adds nothing to the sequence. *)
Theorem lex_terminates (s : string) (k : nat) :
  (length (lex s) <= String.length s + 2)%nat /\
  tokens (String.length s + 2 + k) (initial s) = lex s.
Proof.
  unfold lex.
  assert (pending (initial s) = (String.length s + 1)%nat) as Hp.
  { reflexivity. }
  destruct (tokens_stable (String.length s + 2) (String.length s + 2 + k)
              (initial s) ltac:(lia) ltac:(lia)) as [H1 H2].
  split; [lia | now rewrite H1].
Qed.

(** X6: lexing gives back the token texts.  The token sequence of a stream
    that lays out token texts, with any whitespace and comments between
    them, is the sequence of their tokens: the keyword or identifier with
    its text, the number with the value of its text, the character itself;
    it ends with [tok_eof], or before the first number whose conversion
    throws. *)
Theorem lex_layout (L : list (list piece * lexeme)) (e : list piece)
    (t : option string) :
  layout_ok L e t = true -> lex (render L e t) = expected (map snd L).
Proof. apply lex_render. Qed.

End LexerRest.

(** ** Prototypes, the entry points and the handlers *)

Section Entries.
Context `{FP : Floating}.

Lemma getNextToken_step (st : State) (t : Z) (st' : State) :
  getNextToken st = Done t st' ->
  CurTok st' = t /\
  (remaining st' <= remaining st)%nat /\
  (CurTok st <> tok_eof \/ t <> tok_eof ->
   (remaining st' < remaining st)%nat) /\
  stderr st' = stderr st /\
  BinopPrecedence st' = BinopPrecedence st.
Proof.
  unfold getNextToken. destruct (gettok st) as [[tok st1]|] eqn:E;
    [|discriminate].
  intros [= <- <-]. apply gettok_advances in E.
  destruct E as (H1 & H2 & H3 & H4 & H5).
  unfold remaining, pending in *. simpl. repeat split; auto.
  - destruct (Z.eqb_spec tok tok_eof); destruct (CurTok st =? tok_eof); lia.
  - intros [Hne|Hne].
    + apply Z.eqb_neq in Hne. rewrite Hne.
      destruct (Z.eqb_spec tok tok_eof); lia.
    + specialize (H2 Hne). destruct (Z.eqb_spec tok tok_eof); [easy|].
      destruct (CurTok st =? tok_eof); lia.
Qed.

Lemma ParsePrototype_names_correct (fuel : nat) :
  forall (ArgNames : list string) (st : State),
    match ParsePrototype_names fuel ArgNames st with
    | Done _ st' =>
        (remaining st' <= remaining st)%nat /\
        stderr st' = stderr st /\
        BinopPrecedence st' = BinopPrecedence st
    | Throw => True
    | OutOfFuel => ~ within 1 fuel st
    end.
Proof.
  induction fuel as [|fuel IH]; intros ArgNames st.
  { simpl. unfold within. lia. }
  simpl. unfold bind, read.
  destruct (getNextToken st) as [t st1| |] eqn:Etok; try exact I.
  2: { pose proof (getNextToken_spec st) as H. now rewrite Etok in H. }
  apply getNextToken_step in Etok. destruct Etok as (_ & H1 & H2 & H3 & H4).
  destruct (Z.eqb_spec t tok_identifier) as [E|E].
  - assert (remaining st1 < remaining st)%nat as Hlt.
    { apply H2. right. rewrite E. discriminate. }
    specialize (IH (ArgNames ++ [IdentifierStr st1])%list st1).
    unfold within in *.
    destruct (ParsePrototype_names fuel _ st1) as [l st2| |]; auto.
    + destruct IH as (I1 & I2 & I3).
      repeat split; [lia | congruence | congruence].
    + lia.
  - unfold ret. auto.
Qed.

Lemma ParsePrototype_correct (fuel : nat) (st : State) :
  correct false 1 fuel st (ParsePrototype fuel st) /\
  match ParsePrototype fuel st with
  | Done _ st' => BinopPrecedence st' = BinopPrecedence st
  | _ => True
  end.
Proof.
  unfold correct, post.
  unfold ParsePrototype, bind, read, LogErrorP, LogError, ret.
  destruct (CurTok st =? tok_identifier); simpl.
  2: { rewrite remaining_set_stderr. repeat split; eauto. }
  destruct (getNextToken st) as [t st1| |] eqn:Etok; auto.
  2: { pose proof (getNextToken_spec st) as H. now rewrite Etok in H. }
  apply getNextToken_step in Etok. destruct Etok as (_ & H1 & _ & H3 & H4).
  destruct (CurTok st1 =? ord "("); simpl.
  2: { rewrite remaining_set_stderr, H3, H4. repeat split; eauto. }
  pose proof (ParsePrototype_names_correct fuel [] st1) as Hn.
  destruct (ParsePrototype_names fuel [] st1) as [names st2| |]; auto.
  2: { split; [|exact I]. unfold within in *. lia. }
  destruct Hn as (I1 & I2 & I3).
  destruct (CurTok st2 =? ord ")"); simpl.
  2: { rewrite remaining_set_stderr, I2, I3, H3, H4.
       repeat split; eauto; lia. }
  destruct (getNextToken st2) as [t2 st3| |] eqn:Etok2; auto.
  2: { pose proof (getNextToken_spec st2) as H. now rewrite Etok2 in H. }
  apply getNextToken_step in Etok2. destruct Etok2 as (_ & J1 & _ & J3 & J4).
  rewrite J3, J4, I2, I3, H3, H4. repeat split; auto; try lia.
Qed.

Lemma ParseDefinition_correct (fuel : nat) (st : State) :
  correct false 5 fuel st (ParseDefinition fuel st) /\
  consumed st (ParseDefinition fuel st).
Proof.
  unfold consumed, ParseDefinition, bind.
  destruct (getNextToken st) as [t st1| |] eqn:Etok; try (split; exact I).
  2: { pose proof (getNextToken_spec st) as H. now rewrite Etok in H. }
  apply getNextToken_step in Etok. destruct Etok as (_ & H1 & H2 & H3 & H4).
  destruct (ParsePrototype_correct fuel st1) as [HP HPt].
  destruct (ParsePrototype fuel st1) as [[P|] st2| |]; try (split; exact I).
  3: { split; [|exact I]. unfold correct, within in *. lia. }
  2: { unfold correct, post, ret in *. destruct HP as (P1 & P2 & line & P3).
       rewrite HPt, H4. split; [repeat split; auto; try lia|].
       - exists line. congruence.
       - intros Hne. specialize (H2 (or_introl Hne)). lia. }
  unfold correct, post in HP. destruct HP as (P1 & P2 & _ & P3).
  destruct (parser_correct fuel) as (HE & _). specialize (HE st2).
  destruct (ParseExpression fuel st2) as [[E|] st3| |];
    unfold correct, post, ret in *.
  - destruct HE as (E1 & E2 & _ & E3). rewrite HPt, H4 in E2.
    split; [repeat split; auto; try lia; try congruence|].
    intros Hne. specialize (H2 (or_introl Hne)). lia.
  - destruct HE as (E1 & E2 & line & E3). rewrite HPt, H4 in E2.
    split; [repeat split; auto; try lia|].
    + exists line. congruence.
    + intros Hne. specialize (H2 (or_introl Hne)). lia.
  - split; exact I.
  - split; [|exact I]. unfold within in *. lia.
Qed.

Lemma ParseExtern_correct (fuel : nat) (st : State) :
  correct false 5 fuel st (ParseExtern fuel st) /\
  consumed st (ParseExtern fuel st).
Proof.
  unfold consumed, ParseExtern, bind.
  destruct (getNextToken st) as [t st1| |] eqn:Etok; try (split; exact I).
  2: { pose proof (getNextToken_spec st) as H. now rewrite Etok in H. }
  apply getNextToken_step in Etok. destruct Etok as (_ & H1 & H2 & H3 & H4).
  destruct (ParsePrototype_correct fuel st1) as [HP HPt].
  destruct (ParsePrototype fuel st1) as [[P|] st2| |]; try (split; exact I);
    unfold correct, post in *.
  - destruct HP as (P1 & P2 & _ & P3). rewrite HPt, H4.
    split; [repeat split; auto; try lia; try congruence|].
    intros Hne. specialize (H2 (or_introl Hne)). lia.
  - destruct HP as (P1 & P2 & line & P3). rewrite HPt, H4.
    split; [repeat split; auto; try lia|].
    + exists line. congruence.
    + intros Hne. specialize (H2 (or_introl Hne)). lia.
  - split; [|exact I]. unfold within in *. lia.
Qed.

Lemma ParseTopLevelExpr_correct (fuel : nat) (st : State) :
  correct true 5 fuel st (ParseTopLevelExpr fuel st).
Proof.
  unfold ParseTopLevelExpr, bind.
  destruct (parser_correct fuel) as (HE & _). specialize (HE st).
  destruct (ParseExpression fuel st) as [[E|] st1| |]; exact HE.
Qed.

(** X7: the entry points terminate.  In every state, with the fuel
    [enough st] or more, [ParseDefinition], [ParseExtern] and
    [ParseTopLevelExpr] return or are ended by an exception of the
    conversion, they never put tokens back, the first two have consumed a
    token whenever they did not start at the end of input, and the third
    has consumed one whenever it returns a node. *)
Theorem entry_points_terminate (st : State) (k : nat) :
  match ParseDefinition (enough st + k) st with
  | Done _ st' =>
      (remaining st' <= remaining st)%nat /\
      (CurTok st = tok_eof \/ (remaining st' < remaining st)%nat)
  | Throw => True
  | OutOfFuel => False
  end /\
  match ParseExtern (enough st + k) st with
  | Done _ st' =>
      (remaining st' <= remaining st)%nat /\
      (CurTok st = tok_eof \/ (remaining st' < remaining st)%nat)
  | Throw => True
  | OutOfFuel => False
  end /\
  match ParseTopLevelExpr (enough st + k) st with
  | Done (Some _) st' => (remaining st' < remaining st)%nat
  | Done None st' => (remaining st' <= remaining st)%nat
  | Throw => True
  | OutOfFuel => False
  end.
Proof.
  destruct (ParseDefinition_correct (enough st + k) st) as [D1 D2].
  destruct (ParseExtern_correct (enough st + k) st) as [E1 E2].
  pose proof (ParseTopLevelExpr_correct (enough st + k) st) as T1.
  unfold correct, post, consumed, within, enough in *.
  repeat split.
  - destruct (ParseDefinition _ st) as [r st'| |]; auto; [|lia].
    split; [tauto|]. destruct (Z.eq_dec (CurTok st) tok_eof); auto.
  - destruct (ParseExtern _ st) as [r st'| |]; auto; [|lia].
    split; [tauto|]. destruct (Z.eq_dec (CurTok st) tok_eof); auto.
  - destruct (ParseTopLevelExpr _ st) as [[r|] st'| |]; auto; try tauto; lia.
Qed.

Lemma remaining_parity (st st1 : State) :
  (remaining st1 <= remaining st)%nat ->
  CurTok st <> tok_eof -> CurTok st1 = tok_eof ->
  (remaining st1 < remaining st)%nat.
Proof.
  unfold remaining. intros H Hne He. rewrite He in *.
  apply Z.eqb_neq in Hne. rewrite Hne in *.
  change (tok_eof =? tok_eof) with true in *. cbv iota in *. lia.
Qed.

(** After a parse that failed the handler skips a token. *)
Lemma recovery (fuel : nat) (st st1 : State) (line : string) :
  (remaining st1 <= remaining st)%nat ->
  (table_inv (BinopPrecedence st) -> table_inv (BinopPrecedence st1)) ->
  stderr st1 = (stderr st ++ [line])%list ->
  handled fuel st ((getNextToken ;;; ret tt) st1).
Proof.
  intros H1 H2 H3. unfold handled, bind, ret.
  destruct (getNextToken st1) as [t st2| |] eqn:Etok; auto.
  2: { pose proof (getNextToken_spec st1) as H. now rewrite Etok in H. }
  apply getNextToken_step in Etok. destruct Etok as (_ & J1 & J2 & J3 & J4).
  rewrite J3, J4. repeat split; auto; try lia.
  - intros Hne. destruct (Z.eq_dec (CurTok st1) tok_eof) as [E|E].
    + pose proof (remaining_parity st st1 H1 Hne E). lia.
    + specialize (J2 (or_introl E)). lia.
  - exists line. exact H3.
Qed.

Lemma HandleDefinition_handled (fuel : nat) (st : State) :
  handled fuel st (HandleDefinition fuel st).
Proof.
  unfold HandleDefinition, bind.
  destruct (ParseDefinition_correct fuel st) as [D1 D2].
  destruct (ParseDefinition fuel st) as [[F|] st1| |];
    unfold correct, post, consumed in *; auto.
  - destruct D1 as (P1 & P2 & _ & P3). unfold handled, fprintf_stderr.
    rewrite remaining_set_stderr. simpl. rewrite P3.
    repeat split; eauto.
  - destruct D1 as (P1 & P2 & line & P3). now apply (recovery fuel st st1 line).
Qed.

Lemma HandleExtern_handled (fuel : nat) (st : State) :
  handled fuel st (HandleExtern fuel st).
Proof.
  unfold HandleExtern, bind.
  destruct (ParseExtern_correct fuel st) as [D1 D2].
  destruct (ParseExtern fuel st) as [[F|] st1| |];
    unfold correct, post, consumed in *; auto.
  - destruct D1 as (P1 & P2 & _ & P3). unfold handled, fprintf_stderr.
    rewrite remaining_set_stderr. simpl. rewrite P3.
    repeat split; eauto.
  - destruct D1 as (P1 & P2 & line & P3). now apply (recovery fuel st st1 line).
Qed.

Lemma HandleTopLevelExpression_handled (fuel : nat) (st : State) :
  handled fuel st (HandleTopLevelExpression fuel st).
Proof.
  unfold HandleTopLevelExpression, bind.
  pose proof (ParseTopLevelExpr_correct fuel st) as D1.
  destruct (ParseTopLevelExpr fuel st) as [[F|] st1| |];
    unfold correct, post in *; auto.
  - destruct D1 as (P1 & P2 & P4 & P3). unfold handled, fprintf_stderr.
    rewrite remaining_set_stderr. simpl. rewrite P3.
    repeat split; eauto.
  - destruct D1 as (P1 & P2 & line & P3). now apply (recovery fuel st st1 line).
Qed.

(** X8: each handler of the driver writes exactly one line to standard
    error, whether the parse returned a node or failed; it consumes at
    least one token unless it is called at the end of input; and with the
    fuel [enough st] or more it returns or is ended by an exception of the
    conversion. *)
Theorem handlers_report_once (st : State) (k : nat) :
  let returns_with_one_line (o : outcome unit) :=
    match o with
    | Done _ st' =>
        (exists line, stderr st' = (stderr st ++ [line])%list) /\
        (CurTok st = tok_eof \/ (remaining st' < remaining st)%nat)
    | Throw => True
    | OutOfFuel => False
    end in
  returns_with_one_line (HandleDefinition (enough st + k) st) /\
  returns_with_one_line (HandleExtern (enough st + k) st) /\
  returns_with_one_line (HandleTopLevelExpression (enough st + k) st).
Proof.
  intros P. subst P.
  pose proof (HandleDefinition_handled (enough st + k) st) as H1.
  pose proof (HandleExtern_handled (enough st + k) st) as H2.
  pose proof (HandleTopLevelExpression_handled (enough st + k) st) as H3.
  unfold handled, within, enough in *.
  repeat split.
  - destruct (HandleDefinition _ st) as [r st'| |]; auto; [|lia].
    split; [tauto|]. destruct (Z.eq_dec (CurTok st) tok_eof); tauto.
  - destruct (HandleExtern _ st) as [r st'| |]; auto; [|lia].
    split; [tauto|]. destruct (Z.eq_dec (CurTok st) tok_eof); tauto.
  - destruct (HandleTopLevelExpression _ st) as [r st'| |]; auto; [|lia].
    split; [tauto|]. destruct (Z.eq_dec (CurTok st) tok_eof); tauto.
Qed.

Lemma MainLoop_looped (fuel : nat) :
  forall (stdout : list string) (st : State),
    looped fuel stdout st (MainLoop fuel stdout st).
Proof.
  induction fuel as [|fuel IH]; intros stdout st.
  { simpl. unfold within. lia. }
  assert (forall (o : outcome unit),
            handled fuel st o -> CurTok st <> tok_eof ->
            looped (S fuel) stdout st
              (bind (fun _ => o)
                 (fun _ => MainLoop fuel (stdout ++ ["ready> "])%list) st))
    as Hturn.
  { intros o Ho Hne. unfold bind. destruct o as [[] st1| |]; simpl in *; auto.
    2: { unfold within in *. lia. }
    destruct Ho as (H1 & H2 & H3 & line & H4). specialize (H2 Hne).
    specialize (IH (stdout ++ ["ready> "])%list st1).
    destruct (MainLoop fuel _ st1) as [out' st'| |]; simpl in *; auto.
    2: { unfold within in *. lia. }
    destruct IH as (I1 & I2 & n & lines & I3 & I4 & I5).
    split; [exact I1|]. split; [tauto|].
    exists (S n), (line :: lines). repeat split.
    - rewrite I3, <- app_assoc. reflexivity.
    - rewrite I4, H4, <- app_assoc. reflexivity.
    - simpl. lia. }
  simpl. unfold bind at 1, read.
  destruct (Z.eqb_spec (CurTok st) tok_eof) as [E0|E0].
  { unfold ret. simpl. split; [exact E0|]. split; [auto|].
    exists 0%nat, []. repeat split; auto. now rewrite app_nil_r. }
  destruct (Z.eqb_spec (CurTok st) (ord ";")) as [E1|E1].
  { unfold bind.
    destruct (getNextToken st) as [t st1| |] eqn:Etok; simpl; auto.
    2: { pose proof (getNextToken_spec st) as H. now rewrite Etok in H. }
    apply getNextToken_step in Etok. destruct Etok as (_ & J1 & J2 & J3 & J4).
    specialize (J2 (or_introl E0)).
    specialize (IH (stdout ++ ["ready> "])%list st1).
    destruct (MainLoop fuel _ st1) as [out' st'| |]; simpl in *; auto.
    2: { unfold within in *. lia. }
    destruct IH as (I1 & I2 & n & lines & I3 & I4 & I5).
    split; [exact I1|]. split; [now rewrite <- J4|].
    exists (S n), lines. repeat split.
    - rewrite I3, <- app_assoc. reflexivity.
    - now rewrite I4, J3.
    - lia. }
  destruct (Z.eqb_spec (CurTok st) tok_def) as [E2|E2].
  { apply (Hturn _ (HandleDefinition_handled fuel st) E0). }
  destruct (Z.eqb_spec (CurTok st) tok_extern) as [E3|E3].
  { apply (Hturn _ (HandleExtern_handled fuel st) E0). }
  apply (Hturn _ (HandleTopLevelExpression_handled fuel st) E0).
Qed.

(** X9: the driver terminates.  On every input, with the fuel
    [4 * remaining (initial s) + 6] or more, [main] returns or is ended by
    an exception of the conversion; it returns only at the end of input,
    having printed at least two prompts, and it has written at most one
    line to standard error for each prompt but the first and the last. *)
Theorem main_terminates (s : string) (k : nat) :
  match main (4 * remaining (initial s) + 6 + k) (initial s) with
  | Done stdout st' =>
      CurTok st' = tok_eof /\
      exists n, stdout = repeat "ready> " (S (S n)) /\
                (length (stderr st') <= n)%nat
  | Throw => True
  | OutOfFuel => False
  end.
Proof.
  unfold main, bind.
  destruct (getNextToken (initial s)) as [t st1| |] eqn:Etok; auto.
  2: { pose proof (getNextToken_spec (initial s)) as H. now rewrite Etok in H. }
  apply getNextToken_step in Etok. destruct Etok as (_ & J1 & _ & J3 & _).
  pose proof (MainLoop_looped (4 * remaining (initial s) + 6 + k)
                ["ready> "] st1) as H.
  unfold looped, within in H.
  destruct (MainLoop _ _ st1) as [out st'| |]; auto; [|lia].
  destruct H as (H1 & _ & n & lines & H2 & H3 & H4).
  split; [exact H1|]. exists n. split; [exact H2|].
  rewrite H3, J3. simpl. exact H4.
Qed.

(** X10: a whole session leaves the operators their precedence.  Whatever
    the input, when [main] returns, the five entries of the initialiser are
    in the table with their values, and any other entry is a zero that a
    lookup has inserted. *)
Theorem main_keeps_operators (s : string) (fuel : nat)
    (stdout : list string) (st' : State) :
  main fuel (initial s) = Done stdout st' ->
  table_inv (BinopPrecedence st') /\
  BinopPrecedence st' !! ord "<" = Some 10 /\
  BinopPrecedence st' !! ord "+" = Some 20 /\
  BinopPrecedence st' !! ord "-" = Some 20 /\
  BinopPrecedence st' !! ord "*" = Some 40 /\
  BinopPrecedence st' !! ord "/" = Some 40.
Proof.
  unfold main, bind.
  destruct (getNextToken (initial s)) as [t st1| |] eqn:Etok; try discriminate.
  apply getNextToken_step in Etok. destruct Etok as (_ & _ & _ & _ & J4).
  pose proof (MainLoop_looped fuel ["ready> "] st1) as H. unfold looped in H.
  intros E. rewrite E in H. destruct H as (_ & H & _).
  assert (table_inv (BinopPrecedence st')) as Hinv.
  { apply H. rewrite J4. apply table_inv_init. }
  split; [exact Hinv|]. repeat split.
  all: match goal with |- _ !! ?k = _ =>
         destruct (Hinv k) as [-> | [F _]]; [reflexivity | discriminate F] end.
Qed.

End Entries.

(** ** What the parser changes *)

Section Keeping.
Context `{FP : Floating}.

Lemma preserves_ret (I : State -> Prop) {A} (a : A) : preserves I (ret a).
Proof. intros st b st' H [= _ <-]. exact H. Qed.

Lemma preserves_read (I : State -> Prop) {A} (f : State -> A) :
  preserves I (read f).
Proof. intros st b st' H [= _ <-]. exact H. Qed.

Lemma preserves_out_of_fuel (I : State -> Prop) {A} :
  preserves I (@out_of_fuel _ A).
Proof. intros st b st' _ H. discriminate H. Qed.

Lemma preserves_bind (I : State -> Prop) {A B} (m : M A) (k : A -> M B) :
  preserves I m -> (forall a, preserves I (k a)) -> preserves I (bind m k).
Proof.
  intros Hm Hk st b st' H. unfold bind.
  destruct (m st) as [a st1| |] eqn:E; try discriminate.
  apply (Hk a st1). apply (Hm st a st1 H E).
Qed.

End Keeping.

Ltac keep_step :=
  first
    [ assumption
    | apply preserves_ret
    | apply preserves_read
    | apply preserves_out_of_fuel
    | apply preserves_bind; [| intros ?]
    | match goal with
      | |- preserves _ (match ?x with _ => _ end) => destruct x
      | H : forall _, preserves _ _ |- _ => apply H
      | H : forall _ _, preserves _ _ |- _ => apply H
      end ].

Ltac keep := repeat keep_step.

(** The line is one of [messages]. *)
Ltac listed := solve [repeat first [left; reflexivity | right]].

Section Frame.
Context `{FP : Floating}.
Variable I : State -> Prop.
Hypothesis Htok : preserves I getNextToken.
Hypothesis Hprec : preserves I GetTokPrecedence.
Hypothesis Herr :
  forall line st,
    In line messages -> I st -> I (set_stderr (stderr st ++ [line]) st).

Lemma preserves_LogError {A} (Str : string) :
  In ("LogError: " ++ Str)%string messages -> preserves I (@LogError _ A Str).
Proof. intros Hin st b st' H [= _ <-]. now apply Herr. Qed.

Lemma preserves_fprintf_stderr (line : string) :
  In line messages -> preserves I (fprintf_stderr line).
Proof. intros Hin st b st' H [= _ <-]. now apply Herr. Qed.

Ltac keep_lines :=
  repeat first
    [ keep_step
    | apply preserves_LogError; listed
    | apply preserves_fprintf_stderr; listed ].

Lemma parser_preserves (fuel : nat) :
  preserves I (ParseExpression fuel) /\
  preserves I (ParsePrimary fuel) /\
  preserves I (ParseParenExpr fuel) /\
  preserves I (ParseIdentifierExpr fuel) /\
  (forall Args, preserves I (ParseArguments fuel Args)) /\
  (forall ExprPrec LHS, preserves I (ParseBinOpRHS fuel ExprPrec LHS)).
Proof.
  induction fuel as [|fuel (IHE & IHP & IHPa & IHI & IHA & IHR)].
  { repeat split; intros; apply preserves_out_of_fuel. }
  repeat split; intros.
  - rewrite ParseExpression_S. keep_lines.
  - rewrite ParsePrimary_S. unfold ParseNumberExpr. keep_lines.
  - rewrite ParseParenExpr_S. keep_lines.
  - rewrite ParseIdentifierExpr_S. keep_lines.
  - rewrite ParseArguments_S. keep_lines.
  - rewrite ParseBinOpRHS_S. keep_lines.
Qed.

Lemma ParsePrototype_names_preserves (fuel : nat) :
  forall ArgNames, preserves I (ParsePrototype_names fuel ArgNames).
Proof.
  induction fuel as [|fuel IH]; intros ArgNames; simpl; keep.
Qed.

Lemma ParsePrototype_preserves (fuel : nat) :
  preserves I (ParsePrototype fuel).
Proof.
  pose proof (ParsePrototype_names_preserves fuel) as HN.
  unfold ParsePrototype, LogErrorP. keep_lines.
Qed.

Lemma MainLoop_preserves (fuel : nat) :
  forall stdout, preserves I (MainLoop fuel stdout).
Proof.
  induction fuel as [|fuel IH]; intros stdout; simpl; [keep|].
  destruct (parser_preserves fuel) as (HE & _).
  pose proof (ParsePrototype_preserves fuel) as HP.
  unfold HandleDefinition, HandleExtern, HandleTopLevelExpression,
    ParseDefinition, ParseExtern, ParseTopLevelExpr.
  keep_lines.
Qed.

(** X11: the parser and the driver change the state only by reading a
    token, looking up a precedence and appending one of the nine lines of
    [messages] to standard error: a property of states that these three
    keep is kept by expression parsing, by the three entry points and by
    the whole of [main]. *)
Theorem main_frame (fuel : nat) :
  preserves I (ParseExpression fuel) /\
  preserves I (ParseDefinition fuel) /\
  preserves I (ParseExtern fuel) /\
  preserves I (ParseTopLevelExpr fuel) /\
  preserves I (main fuel).
Proof.
  destruct (parser_preserves fuel) as (HE & _).
  pose proof (ParsePrototype_preserves fuel) as HP.
  pose proof (MainLoop_preserves fuel) as HM.
  unfold ParseDefinition, ParseExtern, ParseTopLevelExpr, main.
  repeat split; keep_lines.
Qed.

End Frame.

(** ** What is written to standard error *)

Section Messages.
Context `{FP : Floating}.

Lemma getNextToken_messages :
  preserves (fun st => Forall (fun l => In l messages) (stderr st))
    getNextToken.
Proof.
  intros st t st' H Etok. apply getNextToken_step in Etok.
  destruct Etok as (_ & _ & _ & E & _). now rewrite E.
Qed.

Lemma GetTokPrecedence_messages :
  preserves (fun st => Forall (fun l => In l messages) (stderr st))
    GetTokPrecedence.
Proof.
  intros st p st' H. unfold GetTokPrecedence, bind, read, map_subscript, ret.
  destruct (isascii (CurTok st)); simpl; [|now intros [= _ <-]].
  destruct (BinopPrecedence st !! CurTok st) as [v|]; simpl.
  - destruct (v <=? 0); now intros [= _ <-].
  - intros [= _ <-]. exact H.
Qed.

(** X17: the program writes nothing to standard error but the six errors of
    the parser, each behind the prefix of [LogError], and the three
    confirmations of the driver: when [main] returns, every line on
    standard error is one of these nine. *)
Theorem main_messages (s : string) (fuel : nat) (stdout : list string)
    (st' : State) :
  main fuel (initial s) = Done stdout st' ->
  Forall (fun l => In l messages) (stderr st').
Proof.
  intros H.
  refine (preserves_bind
            (fun st => Forall (fun l => In l messages) (stderr st))
            getNextToken _ getNextToken_messages _
            (initial s) stdout st' ltac:(constructor) H).
  intros _. apply MainLoop_preserves.
  - exact getNextToken_messages.
  - exact GetTokPrecedence_messages.
  - intros line st Hin Hst. simpl. apply Forall_app. split; [exact Hst|].
    now constructor.
Qed.

End Messages.

(** ** The end of input *)

Section Exhausted.
Context `{FP : Floating}.

Lemma drained_ord (a : ascii) (inp : string) : drained (ord a) inp.
Proof. intros H. pose proof (ord_range a). unfold EOF in H. lia. Qed.

Lemma drained_EOF : drained EOF "".
Proof. intros _. reflexivity. Qed.

Lemma skip_space_drained (inp : string) (c : Z) :
  drained c inp -> drained (fst (skip_space inp c)) (snd (skip_space inp c)).
Proof.
  revert c. induction inp as [|a inp IH]; intros c Hc; simpl.
  - destruct (isspace c); [apply drained_EOF | exact Hc].
  - destruct (isspace c); [apply IH, drained_ord | exact Hc].
Qed.

Lemma read_identifier_drained (inp id : string) :
  drained (snd (fst (read_identifier inp id))) (snd (read_identifier inp id)).
Proof.
  revert id. induction inp as [|a inp IH]; intros id; simpl.
  - apply drained_EOF.
  - destruct (isalnum (ord a)); [apply IH | apply drained_ord].
Qed.

Lemma read_number_drained (inp : string) (c : Z) (NumStr : string) :
  drained (snd (fst (read_number inp c NumStr)))
          (snd (read_number inp c NumStr)).
Proof.
  revert c NumStr. induction inp as [|a inp IH]; intros c NumStr; simpl.
  - apply drained_EOF.
  - destruct (isdigit (ord a) || (ord a =? ord "."));
      [apply IH | apply drained_ord].
Qed.

Lemma skip_comment_drained (inp : string) :
  drained (fst (skip_comment inp)) (snd (skip_comment inp)).
Proof.
  induction inp as [|a inp IH]; simpl.
  - apply drained_EOF.
  - destruct ((ord a =? 10) || (ord a =? 13)); [apply drained_ord | apply IH].
Qed.

Lemma gettok_body_drained (self : State -> option (Z * State)) (st : State)
    (tok : Z) (st' : State) :
  (forall a t b, drained (LastChar a) (stdin a) -> self a = Some (t, b) ->
                 drained (LastChar b) (stdin b)) ->
  drained (LastChar st) (stdin st) ->
  gettok_body self st = Some (tok, st') ->
  drained (LastChar st') (stdin st').
Proof.
  intros Hself Hst. unfold gettok_body.
  pose proof (skip_space_drained (stdin st) (LastChar st) Hst) as Hsp.
  destruct (skip_space (stdin st) (LastChar st)) as [c inp]. simpl in Hsp.
  destruct (isalpha c).
  { pose proof (read_identifier_drained inp (String (char_of c) "")) as H.
    destruct (read_identifier inp (String (char_of c) "")) as [[id c'] inp'].
    destruct (String.eqb id "def"); [|destruct (String.eqb id "extern")];
      intros [= _ <-]; exact H. }
  destruct (isdigit c || (c =? ord ".")).
  { pose proof (read_number_drained inp c "") as H.
    destruct (read_number inp c "") as [[NumStr c'] inp'].
    destruct (stod NumStr); [|discriminate]. intros [= _ <-]. exact H. }
  destruct (c =? ord "#").
  { pose proof (skip_comment_drained inp) as H.
    destruct (skip_comment inp) as [c' inp']. simpl in H.
    destruct (c' =? EOF); simpl.
    - intros [= _ <-]. exact H.
    - apply Hself. exact H. }
  destruct (c =? EOF).
  { intros [= _ <-]. exact Hsp. }
  unfold getchar. simpl. destruct inp as [|a inp]; simpl; intros [= _ <-].
  - apply drained_EOF.
  - apply drained_ord.
Qed.

Lemma gettok_drained (st : State) (tok : Z) (st' : State) :
  drained (LastChar st) (stdin st) -> gettok st = Some (tok, st') ->
  drained (LastChar st') (stdin st').
Proof.
  unfold gettok. generalize (String.length (stdin st)). intros n.
  revert st tok st'. induction n as [|n IH]; intros st tok st' Hst; simpl.
  - apply gettok_body_drained; [discriminate | exact Hst].
  - apply gettok_body_drained; [|exact Hst]. intros a t b Ha. now apply IH.
Qed.

Lemma gettok_eof_lookahead (st st' : State) :
  gettok st = Some (tok_eof, st') -> LastChar st' = EOF.
Proof.
  unfold gettok. generalize (String.length (stdin st)). intros n.
  revert st st'. induction n as [|n IH]; intros st st'; simpl.
  - apply gettok_body_eof. discriminate.
  - apply gettok_body_eof. exact IH.
Qed.

Lemma getNextToken_exhausted : preserves exhausted getNextToken.
Proof.
  intros st t st' [_ Hd]. unfold getNextToken.
  destruct (gettok st) as [[tok st1]|] eqn:E; [|discriminate].
  intros [= <- <-]. split; simpl.
  - intros ->. now apply (gettok_eof_lookahead st).
  - now apply (gettok_drained st tok).
Qed.

Lemma GetTokPrecedence_exhausted : preserves exhausted GetTokPrecedence.
Proof.
  intros st p st' H. unfold GetTokPrecedence, bind, read, map_subscript, ret.
  destruct (isascii (CurTok st)); simpl; [|now intros [= _ <-]].
  destruct (BinopPrecedence st !! CurTok st) as [v|]; simpl.
  - destruct (v <=? 0); now intros [= _ <-].
  - intros [= _ <-]. exact H.
Qed.

(** X12: [main] returns only when the input is exhausted: the current token
    is [tok_eof], the lookahead is [EOF] and no character is unread. *)
Theorem main_reads_all (s : string) (fuel : nat) (stdout : list string)
    (st' : State) :
  main fuel (initial s) = Done stdout st' ->
  CurTok st' = tok_eof /\ LastChar st' = EOF /\ stdin st' = "".
Proof.
  intros H.
  assert (exhausted st') as [H1 H2].
  { revert H. unfold main.
    assert (exhausted (initial s)) as Hinit by (split; discriminate).
    revert Hinit. generalize (initial s). intros st Hst H.
    refine (preserves_bind exhausted getNextToken _ getNextToken_exhausted _
              st stdout st' Hst H).
    intros _. apply MainLoop_preserves.
    - exact getNextToken_exhausted.
    - exact GetTokPrecedence_exhausted.
    - intros l st0 _ Hs. exact Hs. }
  assert (CurTok st' = tok_eof) as He.
  { revert H. unfold main, bind.
    destruct (getNextToken (initial s)) as [t st1| |]; try discriminate.
    pose proof (MainLoop_looped fuel ["ready> "] st1) as HL.
    intros E. rewrite E in HL. apply HL. }
  auto.
Qed.

End Exhausted.

(** ** Prototypes and expressions, by the tokens they consume *)

Section Consumed.
Context `{FP : Floating}.

Lemma ParsePrototype_names_reads (fuel : nat) :
  forall (ArgNames : list string) (st : State) (l : list string)
         (st' : State),
    ParsePrototype_names fuel ArgNames st = Done l st' ->
    exists new,
      l = (ArgNames ++ new)%list /\
      reads st (observed (CurTok st) st ::
                map (fun x => (tok_identifier, Some x, None)) new) st' /\
      CurTok st' <> tok_identifier.
Proof.
  induction fuel as [|fuel IH]; intros ArgNames st l st'; [discriminate|].
  simpl. unfold bind, read.
  destruct (getNextToken st) as [t st1| |] eqn:Etok; try discriminate.
  pose proof (getNextToken_CurTok _ _ _ Etok) as Ht.
  destruct (Z.eqb_spec t tok_identifier) as [E|E].
  - intros H. apply IH in H. destruct H as (new & -> & Hreads & Hne).
    exists (IdentifierStr st1 :: new). split; [now rewrite <- app_assoc|].
    split; [|exact Hne]. eapply reads_token; [exact Etok|].
    rewrite Ht, E in Hreads. exact Hreads.
  - unfold ret. intros [= <- <-]. exists []. split; [now rewrite app_nil_r|].
    split; [|congruence]. eapply reads_token; [exact Etok | apply reads_nil].
Qed.

(** X13: a prototype that is parsed is the tokens that were consumed: the
    current token was an identifier, which is its name, and the tokens
    consumed from it on are the name, '(', the parameter names in their
    order, which are identifier tokens with nothing between them, and ')'. *)
Theorem ParsePrototype_tokens (fuel : nat) (st : State) (P : PrototypeAST)
    (st' : State) :
  ParsePrototype fuel st = Done (Some P) st' ->
  CurTok st = tok_identifier /\ Name P = IdentifierStr st /\
  reads st (prototype_tokens P) st'.
Proof.
  unfold ParsePrototype, bind, read, LogErrorP, LogError, ret.
  destruct (Z.eqb_spec (CurTok st) tok_identifier) as [E|E]; simpl;
    [|discriminate].
  destruct (getNextToken st) as [t st1| |] eqn:Etok; try discriminate.
  destruct (Z.eqb_spec (CurTok st1) (ord "(")) as [E1|E1]; simpl;
    [|discriminate].
  destruct (ParsePrototype_names fuel [] st1) as [names st2| |] eqn:EN;
    try discriminate.
  destruct (Z.eqb_spec (CurTok st2) (ord ")")) as [E2|E2]; simpl;
    [|discriminate].
  destruct (getNextToken st2) as [t2 st3| |] eqn:Etok2; try discriminate.
  intros [= <- <-]. split; [exact E|]. split; [reflexivity|].
  apply ParsePrototype_names_reads in EN.
  destruct EN as (new & Hnew & Hreads & _). simpl in Hnew. subst new.
  unfold prototype_tokens. simpl.
  replace (tok_identifier, Some (IdentifierStr st), None)
    with (observed (CurTok st) st) by now rewrite E.
  eapply reads_token; [exact Etok|].
  rewrite E1 in Hreads. rewrite observed_character in Hreads by reflexivity.
  rewrite app_comm_cons.
  eapply reads_app; [exact Hreads|].
  replace (ord ")", None, None) with (observed (CurTok st2) st2)
    by (rewrite E2; now apply observed_character).
  eapply reads_token; [exact Etok2 | apply reads_nil].
Qed.

Lemma table_inv_getNextToken :
  preserves (fun st => table_inv (BinopPrecedence st)) getNextToken.
Proof.
  intros st t st' H Etok. apply getNextToken_step in Etok.
  destruct Etok as (_ & _ & _ & _ & E). now rewrite E.
Qed.

Lemma table_inv_GetTokPrecedence :
  preserves (fun st => table_inv (BinopPrecedence st)) GetTokPrecedence.
Proof.
  intros st p st' H E.
  destruct (GetTokPrecedence_inv st H) as (st0 & E0 & H0 & _).
  rewrite E0 in E. now injection E as _ <-.
Qed.

Lemma ParseBinOpRHS_stops (fuel : nat) :
  forall (ExprPrec : Z) (LHS : ExprAST) (st : State) (T : ExprAST)
         (st' : State),
    table_inv (BinopPrecedence st) ->
    ParseBinOpRHS fuel ExprPrec LHS st = Done (Some T) st' ->
    pending_precedence st' < ExprPrec.
Proof.
  induction fuel as [|fuel IH]; intros ExprPrec LHS st T st' Htab;
    [discriminate|].
  destruct (parser_preserves (fun st => table_inv (BinopPrecedence st))
              table_inv_getNextToken table_inv_GetTokPrecedence
              ltac:(intros l s _ H; exact H) fuel)
    as (_ & HP & _ & _ & _ & HR).
  rewrite ParseBinOpRHS_S. unfold bind, read.
  destruct (GetTokPrecedence_inv st Htab)
    as (st0 & E0 & Htab0 & _ & _ & _ & _ & Hc0 & _).
  rewrite E0. fold (pending_precedence st).
  destruct (Z.ltb_spec (pending_precedence st) ExprPrec) as [E1|E1].
  { unfold ret. intros [= _ <-]. unfold pending_precedence in *.
    now rewrite Hc0. }
  destruct (getNextToken st0) as [t st1| |] eqn:Etok; try discriminate.
  pose proof (table_inv_getNextToken st0 t st1 Htab0 Etok) as Htab1.
  destruct (ParsePrimary fuel st1) as [[RHS|] st2| |] eqn:EP; try discriminate.
  pose proof (HP st1 _ st2 Htab1 EP) as Htab2. simpl in Htab2.
  destruct (GetTokPrecedence_inv st2 Htab2) as (st3 & E3 & Htab3 & _).
  rewrite E3.
  destruct (_ <? _).
  - destruct (ParseBinOpRHS fuel (pending_precedence st + 1) RHS st3)
      as [[R|] st4| |] eqn:ER; try discriminate.
    pose proof (HR _ _ st3 _ st4 Htab3 ER) as Htab4. simpl in Htab4.
    apply IH. exact Htab4.
  - unfold ret at 1. apply IH. exact Htab3.
Qed.

(** X14: expression parsing is greedy.  When [ParseExpression] returns a
    node, the token it stopped at is none of the binary operators, whatever
    lookups were made before. *)
Theorem ParseExpression_stops (fuel : nat) (st : State) (T : ExprAST)
    (st' : State) :
  table_inv (BinopPrecedence st) ->
  ParseExpression fuel st = Done (Some T) st' ->
  BinopPrecedence_init !! CurTok st' = None.
Proof.
  intros Htab. destruct fuel as [|fuel]; [discriminate|].
  rewrite ParseExpression_S. unfold bind.
  destruct (parser_preserves (fun st => table_inv (BinopPrecedence st))
              table_inv_getNextToken table_inv_GetTokPrecedence
              ltac:(intros l s _ H; exact H) fuel)
    as (_ & HP & _).
  destruct (ParsePrimary fuel st) as [[LHS|] st1| |] eqn:EP; try discriminate.
  pose proof (HP st _ st1 Htab EP) as Htab1. simpl in Htab1.
  intros H. apply ParseBinOpRHS_stops in H; [|exact Htab1].
  unfold pending_precedence in H. rewrite BinopPrecedence_init_lookup in *.
  destruct (isascii (CurTok st')) eqn:Ea.
  - destruct (CurTok st' =? ord "<"); [simpl in H; lia|].
    destruct ((CurTok st' =? ord "+") || (CurTok st' =? ord "-"));
      [simpl in H; lia|].
    destruct ((CurTok st' =? ord "*") || (CurTok st' =? ord "/"));
      [simpl in H; lia|]. reflexivity.
  - unfold isascii in Ea.
    destruct (Z.eqb_spec (CurTok st') (ord "<")) as [E|_];
      [rewrite E in Ea; discriminate|].
    destruct (Z.eqb_spec (CurTok st') (ord "+")) as [E|_];
      [rewrite E in Ea; discriminate|].
    destruct (Z.eqb_spec (CurTok st') (ord "-")) as [E|_];
      [rewrite E in Ea; discriminate|].
    destruct (Z.eqb_spec (CurTok st') (ord "*")) as [E|_];
      [rewrite E in Ea; discriminate|].
    destruct (Z.eqb_spec (CurTok st') (ord "/")) as [E|_];
      [rewrite E in Ea; discriminate|].
    reflexivity.
Qed.

End Consumed.

(** ** Empty statements *)

Section Semicolons.
Context `{FP : Floating}.

Lemma getNextToken_semicolon (L : list (list piece * lexeme))
    (e : list piece) (t : option string) (st : State) :
  layout_ok L e t = true -> semicolons L = true ->
  stands st (render L e t) ->
  exists st1,
    getNextToken st =
      Done (match L with [] => tok_eof | _ :: _ => ord ";" end) st1 /\
    stderr st1 = stderr st /\
    stands st1 (match L with [] => "" | _ :: L' => render L' e t end).
Proof.
  intros Hok Hsemi [Hc Hin]. unfold getNextToken.
  destruct L as [|[g l] L']; simpl in *.
  - apply andb_prop in Hok. destruct Hok as [He Ht].
    rewrite (gettok_gap e (tail_text t) st), (gettok_end _ t) by auto.
    eexists. split; [reflexivity|]. split; [reflexivity|]. now split.
  - apply andb_prop in Hok. destruct Hok as [Hok HL].
    apply andb_prop in Hok. destruct Hok as [Hok Hcl].
    apply andb_prop in Hok. destruct Hok as [Hg Hl].
    apply andb_prop in Hsemi. destruct Hsemi as [Hs _].
    destruct l as [a w | a w | a]; try discriminate.
    apply Z.eqb_eq, ord_inj in Hs. subst a.
    rewrite (gettok_gap g (text (Punct ";") ++ render L' e t) st) by auto.
    rewrite (gettok_punct _ ";" (render L' e t)) by auto.
    eexists. split; [reflexivity|]. split; [reflexivity|]. now split.
Qed.

Lemma layout_ok_tail (gl : list piece * lexeme)
    (L : list (list piece * lexeme)) (e : list piece) (t : option string) :
  layout_ok (gl :: L) e t = true -> layout_ok L e t = true.
Proof.
  destruct gl as [g l]. simpl. intros H. apply andb_prop in H. apply H.
Qed.

Lemma MainLoop_semicolons (L : list (list piece * lexeme)) (e : list piece)
    (t : option string) (k : nat) :
  forall (stdout : list string) (st : State),
    layout_ok L e t = true -> semicolons L = true ->
    stands st (render L e t) -> CurTok st = ord ";" ->
    exists st',
      MainLoop (length L + 2 + k) stdout st =
        Done (stdout ++ repeat "ready> " (length L + 2))%list st' /\
      stderr st' = stderr st.
Proof.
  induction L as [|gl L IH]; intros stdout st Hok Hsemi Hst Hcur.
  - destruct (getNextToken_semicolon [] e t st Hok Hsemi Hst)
      as (st1 & Etok & Herr & _).
    pose proof (getNextToken_CurTok _ _ _ Etok) as Hc1.
    simpl. unfold bind at 1, read. rewrite Hcur.
    change (ord ";" =? tok_eof) with false.
    change (ord ";" =? ord ";") with true. cbv iota.
    unfold bind at 1. rewrite Etok. unfold bind, read, ret. rewrite Hc1.
    change (tok_eof =? tok_eof) with true. cbv iota.
    exists st1. split; [|exact Herr]. now rewrite <- app_assoc.
  - destruct (getNextToken_semicolon (gl :: L) e t st Hok Hsemi Hst)
      as (st1 & Etok & Herr & Hst1).
    pose proof (getNextToken_CurTok _ _ _ Etok) as Hc1.
    apply layout_ok_tail in Hok.
    simpl in Hsemi. apply andb_prop in Hsemi. destruct Hsemi as [_ Hsemi].
    destruct (IH (stdout ++ ["ready> "])%list st1 Hok Hsemi Hst1 Hc1)
      as (st' & HM & Herr').
    change (length (gl :: L) + 2 + k)%nat with (S (length L + 2 + k)).
    simpl MainLoop. unfold bind at 1, read. rewrite Hcur.
    change (ord ";" =? tok_eof) with false.
    change (ord ";" =? ord ";") with true. cbv iota.
    unfold bind at 1. rewrite Etok, HM.
    exists st'. split; [|congruence]. rewrite <- app_assoc. reflexivity.
Qed.

(** X15: semicolons at the top level are empty statements.  On an input
    made of semicolons, whitespace and comments only, the empty input
    included, [main] writes nothing to standard error and prints one prompt
    for each semicolon and two more. *)
Theorem main_on_semicolons (L : list (list piece * lexeme)) (e : list piece)
    (t : option string) (k : nat) :
  layout_ok L e t = true -> semicolons L = true ->
  value (main (length L + 1 + k) (initial (render L e t))) =
    Some (repeat "ready> " (length L + 2)) /\
  errors (main (length L + 1 + k) (initial (render L e t))) = [].
Proof.
  intros Hok Hsemi. unfold main.
  set (s := render L e t).
  assert (exists st1,
            getNextToken (initial s) =
              Done (match L with [] => tok_eof | _ :: _ => ord ";" end) st1 /\
            stderr st1 = [] /\
            stands st1 (match L with [] => "" | _ :: L' => render L' e t end))
    as (st1 & Etok & Herr & Hst1).
  { destruct L as [|[g l] L'].
    - apply (getNextToken_semicolon [] (Blank " " :: e) t (initial s));
        [exact Hok | exact Hsemi | now split].
    - apply (getNextToken_semicolon ((Blank " " :: g, l) :: L') e t
               (initial s)); [exact Hok | exact Hsemi | now split]. }
  pose proof (getNextToken_CurTok _ _ _ Etok) as Hc1.
  unfold bind. rewrite Etok.
  destruct L as [|gl L'].
  - simpl. unfold bind, read, ret. rewrite Hc1.
    change (tok_eof =? tok_eof) with true. cbv iota. simpl. now split.
  - apply layout_ok_tail in Hok.
    simpl in Hsemi. apply andb_prop in Hsemi. destruct Hsemi as [_ Hsemi].
    destruct (MainLoop_semicolons L' e t k ["ready> "] st1 Hok Hsemi Hst1 Hc1)
      as (st' & HM & Herr').
    replace (length (gl :: L') + 1 + k)%nat with (length L' + 2 + k)%nat
      by (simpl; lia).
    rewrite HM. simpl. split; [reflexivity | congruence].
Qed.

End Semicolons.

(** ** The properties on example runs *)

Section Examples.
#[local] Existing Instance Decimal.floating.

Lemma gettok_tokens_witness :
  in_range (LastChar (at_stream (FP := Decimal.floating) "+1"
                        (set_IdentifierStr "foo" (initial "foo+1")))) /\
  token_kind tok_identifier /\
  (tok_identifier = tok_def ->
   IdentifierStr (at_stream (FP := Decimal.floating) "+1"
                    (set_IdentifierStr "foo" (initial "foo+1"))) = "def") /\
  (tok_identifier = tok_extern ->
   IdentifierStr (at_stream (FP := Decimal.floating) "+1"
                    (set_IdentifierStr "foo" (initial "foo+1"))) = "extern") /\
  (tok_identifier = tok_identifier ->
   identifier_text
     (IdentifierStr (at_stream (FP := Decimal.floating) "+1"
                       (set_IdentifierStr "foo" (initial "foo+1")))) = true /\
   IdentifierStr (at_stream (FP := Decimal.floating) "+1"
                    (set_IdentifierStr "foo" (initial "foo+1"))) <> "def" /\
   IdentifierStr (at_stream (FP := Decimal.floating) "+1"
                    (set_IdentifierStr "foo" (initial "foo+1"))) <> "extern").
Proof.
  apply (gettok_tokens (FP := Decimal.floating) (initial "foo+1")
           tok_identifier
           (at_stream "+1" (set_IdentifierStr "foo" (initial "foo+1"))));
    [vm_compute; split; discriminate | reflexivity].
Defined.

Lemma gettok_eof_again_witness :
  gettok (at_stream (FP := Decimal.floating) "" (initial " #x")) =
    Some (tok_eof, at_stream "" (initial " #x")).
Proof.
  exact (gettok_eof_again (FP := Decimal.floating) (initial " #x")
           (at_stream "" (initial " #x")) eq_refl).
Defined.

Lemma number_lexing_witness :
  exists st',
    gettok (initial (FP := Decimal.floating) "1.5.2+x") =
      Some (tok_number, st') /\
    NumVal st' = (15%N, 10%N) /\
    IdentifierStr st' = "" /\
    LastChar st' = ord "+" /\ stdin st' = "x".
Proof.
  exact (number_lexing (FP := Decimal.floating) (initial "1.5.2+x")
           [Blank " "] "1" ".5.2" "+x"
           eq_refl eq_refl eq_refl eq_refl eq_refl eq_refl).
Defined.

Lemma gettok_consumes_witness :
  CurTok (at_stream (FP := Decimal.floating) "+1"
            (set_IdentifierStr "foo" (initial "foo+1"))) =
    CurTok (initial (FP := Decimal.floating) "foo+1") /\
  BinopPrecedence (at_stream (FP := Decimal.floating) "+1"
                     (set_IdentifierStr "foo" (initial "foo+1"))) =
    BinopPrecedence (initial (FP := Decimal.floating) "foo+1") /\
  stderr (at_stream (FP := Decimal.floating) "+1"
            (set_IdentifierStr "foo" (initial "foo+1"))) =
    stderr (initial (FP := Decimal.floating) "foo+1") /\
  (pending (at_stream (FP := Decimal.floating) "+1"
              (set_IdentifierStr "foo" (initial "foo+1"))) <=
   pending (initial (FP := Decimal.floating) "foo+1"))%nat /\
  (tok_identifier <> tok_eof ->
   (pending (at_stream (FP := Decimal.floating) "+1"
               (set_IdentifierStr "foo" (initial "foo+1"))) <
    pending (initial (FP := Decimal.floating) "foo+1"))%nat).
Proof.
  exact (gettok_consumes (FP := Decimal.floating) (initial "foo+1")
           tok_identifier
           (at_stream "+1" (set_IdentifierStr "foo" (initial "foo+1")))
           eq_refl).
Defined.

Lemma lex_layout_witness :
  lex (FP := Decimal.floating)
    (render [([], Word "d" "ef"); ([Blank " "], Word "f" "1");
             ([Comment "c" "010"], Punct "("); ([], Numeral "." "5")]
       [Blank " "] (Some "end")) =
  expected [Word "d" "ef"; Word "f" "1"; Punct "("; Numeral "." "5"].
Proof.
  exact (lex_layout (FP := Decimal.floating)
           [([], Word "d" "ef"); ([Blank " "], Word "f" "1");
            ([Comment "c" "010"], Punct "("); ([], Numeral "." "5")]
           [Blank " "] (Some "end") eq_refl).
Defined.

Lemma ParseBinOpRHS_iteration_witness :
  (remaining (end_state (ParseBinOpRHS 10 0 (VariableExprAST "a")
                           (first_token "+b*c)"))
                (first_token "+b*c)")) <
   remaining (first_token "+b*c)"))%nat \/
  (remaining (end_state (ParseBinOpRHS 10 0 (VariableExprAST "a")
                           (first_token "+b*c)"))
                (first_token "+b*c)")) =
   remaining (first_token "+b*c)") /\
   Some (BinaryExprAST "+" (VariableExprAST "a")
           (BinaryExprAST "*" (VariableExprAST "b") (VariableExprAST "c"))) =
   Some (VariableExprAST "a")).
Proof.
  apply (ParseBinOpRHS_iteration (FP := Decimal.floating) 10 0
           (VariableExprAST "a") (first_token "+b*c)")
           (Some (BinaryExprAST "+" (VariableExprAST "a")
                    (BinaryExprAST "*" (VariableExprAST "b")
                       (VariableExprAST "c"))))
           (end_state (ParseBinOpRHS 10 0 (VariableExprAST "a")
                         (first_token "+b*c)"))
              (first_token "+b*c)")));
    [lia | vm_compute; reflexivity].
Defined.

Lemma main_keeps_operators_witness :
  table_inv (BinopPrecedence session_end) /\
  BinopPrecedence session_end !! ord "<" = Some 10 /\
  BinopPrecedence session_end !! ord "+" = Some 20 /\
  BinopPrecedence session_end !! ord "-" = Some 20 /\
  BinopPrecedence session_end !! ord "*" = Some 40 /\
  BinopPrecedence session_end !! ord "/" = Some 40.
Proof.
  apply (main_keeps_operators (FP := Decimal.floating) session_input 200
           session_stdout session_end).
  vm_compute; reflexivity.
Defined.

Lemma main_frame_witness :
  preserves (FP := Decimal.floating)
    (fun st => table_inv (BinopPrecedence st)) (ParseExpression 9) /\
  preserves (fun st => table_inv (BinopPrecedence st)) (ParseDefinition 9) /\
  preserves (fun st => table_inv (BinopPrecedence st)) (ParseExtern 9) /\
  preserves (fun st => table_inv (BinopPrecedence st))
    (ParseTopLevelExpr 9) /\
  preserves (fun st => table_inv (BinopPrecedence st)) (main 9).
Proof.
  apply (main_frame (FP := Decimal.floating)
           (fun st => table_inv (BinopPrecedence st))
           table_inv_getNextToken table_inv_GetTokPrecedence
           (fun _ _ _ H => H) 9).
Defined.

Lemma main_messages_witness :
  Forall (fun l => In l messages) (stderr session_end).
Proof.
  apply (main_messages (FP := Decimal.floating) session_input 200
           session_stdout session_end).
  vm_compute; reflexivity.
Defined.

Lemma main_reads_all_witness :
  CurTok session_end = tok_eof /\ LastChar session_end = EOF /\
  stdin session_end = "".
Proof.
  apply (main_reads_all (FP := Decimal.floating) session_input 200
           session_stdout session_end).
  vm_compute; reflexivity.
Defined.

Lemma ParsePrototype_tokens_witness :
  CurTok (first_token "f(x y) 1") = tok_identifier /\
  Name {| Name := "f"; Args := ["x"; "y"] |} =
    IdentifierStr (first_token "f(x y) 1") /\
  reads (first_token "f(x y) 1")
    (prototype_tokens {| Name := "f"; Args := ["x"; "y"] |})
    (end_state (ParsePrototype 9 (first_token "f(x y) 1"))
       (first_token "f(x y) 1")).
Proof.
  apply (ParsePrototype_tokens (FP := Decimal.floating) 9
           (first_token "f(x y) 1") {| Name := "f"; Args := ["x"; "y"] |}
           (end_state (ParsePrototype 9 (first_token "f(x y) 1"))
              (first_token "f(x y) 1"))).
  vm_compute; reflexivity.
Defined.

Lemma ParseExpression_stops_witness :
  BinopPrecedence_init !!
    CurTok (end_state (ParseExpression 20 (first_token "a+b)*c"))
              (first_token "a+b)*c")) = None.
Proof.
  apply (ParseExpression_stops (FP := Decimal.floating) 20
           (first_token "a+b)*c")
           (BinaryExprAST "+" (VariableExprAST "a") (VariableExprAST "b"))
           (end_state (ParseExpression 20 (first_token "a+b)*c"))
              (first_token "a+b)*c")));
    [exact table_inv_init | vm_compute; reflexivity].
Defined.

Lemma main_on_semicolons_witness :
  value (main (FP := Decimal.floating) 3
           (initial (render [([], Punct ";"); ([Blank " "], Punct ";")]
                       [Comment "c" "010"] None))) =
    Some ["ready> "; "ready> "; "ready> "; "ready> "] /\
  errors (main (FP := Decimal.floating) 3
            (initial (render [([], Punct ";"); ([Blank " "], Punct ";")]
                        [Comment "c" "010"] None))) = [].
Proof.
  exact (main_on_semicolons (FP := Decimal.floating)
           [([], Punct ";"); ([Blank " "], Punct ";")]
           [Comment "c" "010"] None 0 eq_refl eq_refl).
Defined.

End Examples.
